(** * cypress-repeat-pro: the repeat-run orchestrator of [index.js]

    A shallow embedding of [index.js] and the properties of its
    specification.  The script parses its command line, builds one run
    configuration per attempt (each a JSON clone of the parsed options),
    runs Cypress once per configuration in sequence, feeds every result to
    [onTestResults], and ends with a summary block ([finally]) and an error
    block ([catch]).

    Modelling choices:
    - JavaScript objects live in a heap of property lists addressed by
      references, so that aliasing between configurations can be stated;
    - counters are JavaScript numbers: integers or [NaN];
    - [cypress.run] and [cypress.cli.parseRunArguments] are external: the
      first is a section variable giving the outcome of every attempt, the
      second is the input of [main];
    - console output and the external calls are recorded in a log of
      events, one constructor per [console.log] / [console.error] call;
      the script never calls [process.exit], so what a run reports is what
      its [finally] and [catch] blocks log;
    - objects are plain objects (an array would be an object keyed by its
      indices), and the counts are integers. *)

From Stdlib Require Import ZArith String Ascii DecimalString Lia.
From stdpp Require Import base list strings.

Local Open Scope Z_scope.

(** ** JavaScript values, objects and the heap *)

Module Js.

(** A value is a primitive or a reference to an object of the heap. *)
Inductive val : Type :=
  | VUndef
  | VNull
  | VBool (b : bool)
  | VNum (z : Z)
  | VStr (s : string)
  | VRef (l : nat).

(** An object is its list of properties in insertion order; the heap is the
    list of allocated objects, a reference being an index into it. *)
Abbreviation obj := (list (string * val)).
Abbreviation heap := (list (list (string * val))).

(** [if (v)]: the values that count as true. *)
Definition truthy (v : val) : bool :=
  match v with
  | VUndef | VNull => false
  | VBool b => b
  | VNum z => negb (z =? 0)
  | VStr s => negb (String.eqb s "")
  | VRef _ => true
  end.

(** Decimal rendering of an integer, as in a template literal. *)
Definition showZ (z : Z) : string := NilZero.string_of_int (Z.to_int z).

(** The string a value turns into when it is concatenated with a string. *)
Definition toString (v : val) : string :=
  match v with
  | VUndef => "undefined"
  | VNull => "null"
  | VBool true => "true"
  | VBool false => "false"
  | VNum z => showZ z
  | VStr s => s
  | VRef _ => "[object Object]"
  end.

Definition isPrim (v : val) : Prop :=
  match v with VRef _ => False | _ => True end.

(** [o[key]] and [o[key] = v] on a property list. *)
Fixpoint getProp (key : string) (o : obj) : val :=
  match o with
  | [] => VUndef
  | (k, v) :: r => if String.eqb k key then v else getProp key r
  end.

Fixpoint setProp (key : string) (v : val) (o : obj) : obj :=
  match o with
  | [] => [(key, v)]
  | (k, w) :: r =>
      if String.eqb k key then (k, v) :: r else (k, w) :: setProp key v r
  end.

(** [x.key] and [x.key = v] for a reference [x]. *)
Definition readField (h : heap) (x : nat) (key : string) : val :=
  match h !! x with
  | Some o => getProp key o
  | None => VUndef
  end.

Definition writeField (h : heap) (x : nat) (key : string) (v : val) : heap :=
  match h !! x with
  | Some o => <[x := setProp key v o]> h
  | None => h
  end.

(** *** JSON trees, [JSON.stringify] and [JSON.parse] *)

#[warnings="-register-all"]
Inductive json : Type :=
  | JNull
  | JBool (b : bool)
  | JNum (z : Z)
  | JStr (s : string)
  | JObj (members : list (string * json)).

(** The members of an object: a property whose value is [undefined] is left
    out; an error in a member is an error of the whole. *)
Fixpoint serMembers (rec : val -> option (option json)) (o : obj)
  : option (list (string * json)) :=
  match o with
  | [] => Some []
  | (k, v) :: r =>
      match rec v with
      | None => None
      | Some jv =>
          match serMembers rec r with
          | None => None
          | Some js =>
              Some (match jv with None => js | Some j => (k, j) :: js end)
          end
      end
  end.

(** [JSON.stringify], as a tree.  [None] is the [TypeError] of a circular
    structure: every object entered costs one unit of [fuel], and a path
    without a cycle enters at most [length h] objects.  [Some None] is the
    result [undefined]. *)
Fixpoint stringify (fuel : nat) (h : heap) (v : val) : option (option json) :=
  match v with
  | VUndef => Some None
  | VNull => Some (Some JNull)
  | VBool b => Some (Some (JBool b))
  | VNum z => Some (Some (JNum z))
  | VStr s => Some (Some (JStr s))
  | VRef l =>
      match fuel with
      | O => None
      | S f =>
          match h !! l with
          | None => None
          | Some o =>
              match serMembers (stringify f h) o with
              | None => None
              | Some ms => Some (Some (JObj ms))
              end
          end
      end
  end.

(** [JSON.parse] of a tree: every object of the tree is allocated at the end
    of the heap, the members before the object that holds them. *)
Definition parseMembers (rec : json -> heap -> val * heap)
  : list (string * json) -> heap -> obj * heap :=
  fix go (ms : list (string * json)) (h : heap) : obj * heap :=
    match ms with
    | [] => ([], h)
    | (k, j) :: r =>
        let '(v, h1) := rec j h in
        let '(o, h2) := go r h1 in
        ((k, v) :: o, h2)
    end.

Fixpoint parse (j : json) (h : heap) : val * heap :=
  match j with
  | JNull => (VNull, h)
  | JBool b => (VBool b, h)
  | JNum z => (VNum z, h)
  | JStr s => (VStr s, h)
  | JObj ms =>
      let '(o, h1) := parseMembers parse ms h in
      (VRef (length h1), h1 ++ [o])
  end.

(** What [JSON.stringify] gives for [v] in the heap [h]. *)
Definition view (h : heap) (v : val) : option (option json) :=
  stringify (length h) h v.

(** [const clone = (x) => JSON.parse(JSON.stringify(x))], for an object [x].
    [None] is a thrown error. *)
Definition clone (h : heap) (x : nat) : option (nat * heap) :=
  match view h (VRef x) with
  | Some (Some j) =>
      match parse j h with
      | (VRef c, h') => Some (c, h')
      | _ => None
      end
  | _ => None
  end.

(** *** Regions of the heap

    [inBlock a b v]: the value [v] is a primitive or a reference into the
    block of addresses [a <= l < b].  A block is closed when the objects it
    holds refer only to objects of the block. *)
Definition inBlock (a b : nat) (v : val) : Prop :=
  match v with
  | VRef l => (a <= l < b)%nat
  | _ => True
  end.

Definition closedBlock (h : heap) (a b : nat) : Prop :=
  forall l o key v,
    (a <= l < b)%nat -> h !! l = Some o -> (key, v) ∈ o -> inBlock a b v.

(** [reach h v l]: the object at [l] is [v] itself or is found by following
    properties from [v]. *)
Inductive reach (h : heap) : val -> nat -> Prop :=
  | reach_here l : reach h (VRef l) l
  | reach_step l o key v l' :
      h !! l = Some o -> (key, v) ∈ o -> reach h v l' -> reach h (VRef l) l'.

(** The first member named [key] of a JSON object. *)
Fixpoint jget (key : string) (ms : list (string * json)) : option json :=
  match ms with
  | [] => None
  | (k, j) :: r => if String.eqb k key then Some j else jget key r
  end.

End Js.

Import Js.

(** ** Numbers, results and events *)

(** A JavaScript number, as far as the counters go. *)
Inductive number : Type :=
  | NaN
  | Num (z : Z).

(** [a + b] on numbers. *)
Definition add (a b : number) : number :=
  match a, b with
  | Num x, Num y => Num (x + y)
  | _, _ => NaN
  end.

(** [x || 0] for a field [x] that is a number or is missing ([None]):
    [undefined], [NaN] and [0] are falsy. *)
Definition orZero (x : option number) : number :=
  match x with
  | Some (Num z) => Num z
  | _ => Num 0
  end.

(** [if (x)] for such a field. *)
Definition truthyNum (x : option number) : bool :=
  match x with
  | Some (Num z) => negb (z =? 0)
  | _ => false
  end.

(** [`${x}`] for a number. *)
Definition showNumber (x : number) : string :=
  match x with
  | NaN => "NaN"
  | Num z => showZ z
  end.

(** One entry of [testResults.runs]: [run.stats.failures] and
    [run.spec.relative]. *)
Record RunEntry : Type := mkRunEntry {
  stats_failures : Z;
  spec_relative : string
}.

(** What [cypress.run] resolves with.  A field that a result lacks is
    [None]: a finished run has the totals and [runs], a failed run has
    [status], [failures] and [message]. *)
Module Res.
Record t : Type := mk {
  totalTests : option number;
  totalPassed : option number;
  totalFailed : option number;
  totalSkipped : option number;
  runs : option (list RunEntry);
  status : option string;
  failures : option number;
  message : option string
}.
End Res.

(** The reason of a rejected promise: an [Error] with its message, or the
    [TypeError] of a property access on [undefined]. *)
Inductive Rejection : Type :=
  | Err (message : string)
  | TypeErr.

Inductive Settled : Type :=
  | Fulfilled
  | Rejected (e : Rejection).

(** The promise of [cypress.run(runOptions)]. *)
Inductive RunOutcome : Type :=
  | RunResolved (testResults : Res.t)
  | RunRejected (e : Rejection).

(** The promise of [parseArguments()]: the parsed options, an object of the
    heap, or a rejection. *)
Inductive Parsed : Type :=
  | ParseResolved (h : heap) (options : nat)
  | ParseRejected (e : Rejection).

(** The observable events, in the order of the source. *)
Inductive Event : Type :=
  | LogAttempt (k n : Z)                 (* '***** %s %d of %d *****' *)
  | CypressRun (k : nat) (runOptions : nat) (out : RunOutcome)
  | LogFailedSpecs (failedSpecs : string) (* '%s failed specs' and the list *)
  | LogNoFailedSpecs                     (* '%s there were no failed specs' *)
  | ErrMessage (message : option string) (* console.error(testResults.message) *)
  | LogPassed (k n : Z)                  (* '%s successfully passed on run %d of %d' *)
  | ErrRunFailed (k n : Z)               (* '%s run %d of %d failed' *)
  | LogEnterSummary                      (* 'Entering final result summary block...' *)
  | LogSummary (resultSummary : string)  (* console.log(resultSummary) *)
  | LogWriting                           (* 'Writing result summary to file...' *)
  | WriteFile (resultSummary : string)   (* fs.writeFileSync(path, resultSummary) *)
  | LogWritten                           (* 'Result summary written successfully at: ...' *)
  | ErrWriting                           (* 'Error writing result summary to file:' *)
  | ErrSomeTestsFailed                   (* '***** Some tests failed during the run(s) *****' *)
  | LogExitTestFailures                  (* 'Exiting with failure due to test failures.' *)
  | LogFinished (n : Z)                  (* '***** finished %d run(s) successfully *****' *)
  | ErrError (e : Rejection)             (* console.error('Error:', e.message) *)
  | LogExitError.                        (* 'Exiting with failure due to an error.' *)

(** ** Command line and global state *)

(** The options of [arg]: [-n] is a number or is absent. *)
Record Args : Type := mkArgs {
  arg_n : option Z;
  arg_until_passes : bool;
  arg_rerun_failed_only : bool;
  arg_force : bool
}.

(** The module-level variables of the script, the heap and the log. *)
Record State : Type := mkState {
  theHeap : heap;
  anyTestFailed : bool;
  totalTests : number;
  totalPassed : number;
  totalFailed : number;
  totalSkipped : number;
  log : list Event
}.

Definition initial (h : heap) : State :=
  mkState h false (Num 0) (Num 0) (Num 0) (Num 0) [].

Definition emit (e : Event) (st : State) : State :=
  mkState (theHeap st) (anyTestFailed st) (totalTests st) (totalPassed st)
          (totalFailed st) (totalSkipped st) (log st ++ [e]).

Definition setHeap (h : heap) (st : State) : State :=
  mkState h (anyTestFailed st) (totalTests st) (totalPassed st)
          (totalFailed st) (totalSkipped st) (log st).

Definition setAnyTestFailed (b : bool) (st : State) : State :=
  mkState (theHeap st) b (totalTests st) (totalPassed st)
          (totalFailed st) (totalSkipped st) (log st).

(** The four [+=] at the head of [onTestResults]. *)
Definition updateTotals (testResults : Res.t) (st : State) : State :=
  mkState (theHeap st) (anyTestFailed st)
          (add (totalTests st) (orZero (Res.totalTests testResults)))
          (add (totalPassed st) (orZero (Res.totalPassed testResults)))
          (add (totalFailed st) (orZero (Res.totalFailed testResults)))
          (add (totalSkipped st) (orZero (Res.totalSkipped testResults)))
          (log st).

(** *** Statements with early return

    A statement changes the state and either falls through ([None]) or
    returns a settled promise from the enclosing function. *)
Definition Stmt : Type := State -> State * option Settled.

Definition skip : Stmt := fun st => (st, None).
Definition exec (f : State -> State) : Stmt := fun st => (f st, None).
Definition ret (s : Settled) : Stmt := fun st => (st, Some s).
Definition seq (a b : Stmt) : Stmt :=
  fun st => match a st with
            | (st', None) => b st'
            | r => r
            end.
Definition when (c : bool) (a : Stmt) : Stmt := if c then a else skip.

Notation "a >>> b" := (seq a b) (at level 62, right associativity).

(** A function body: falling off the end returns [undefined], which fulfils
    the promise of [then]. *)
Definition body (a : Stmt) (st : State) : State * Settled :=
  match a st with
  | (st', Some s) => (st', s)
  | (st', None) => (st', Fulfilled)
  end.

Definition nl : string := String (ascii_of_nat 10) EmptyString.

(** ** The script *)

Section Script.

(** The parsed command line, the Cypress module API and the file system:
    [cypressRun k h runOptions] is what the [k]-th call of [cypress.run]
    settles with when given the object [runOptions] of the heap [h];
    [writeFileOk] tells whether [fs.writeFileSync] returns or throws. *)
Variable args : Args.
Variable cypressRun : nat -> heap -> nat -> RunOutcome.
Variable writeFileOk : bool.

(** [const repeatNtimes = args['-n'] || 1], and the three flags. *)
Definition repeatNtimes : Z :=
  match arg_n args with
  | Some z => if z =? 0 then 1 else z
  | None => 1
  end.
Definition untilPasses : bool := arg_until_passes args || false.
Definition rerunFailedOnly : bool := arg_rerun_failed_only args || false.
Definition forceContinue : bool := arg_force args || false.

(** *** First [then]: one configuration per attempt *)

(** [`cypress_repeat_n=${repeatNtimes},cypress_repeat_k=${k + 1}`] *)
Definition envVariables (k : nat) : string :=
  "cypress_repeat_n=" +:+ showZ repeatNtimes +:+
  ",cypress_repeat_k=" +:+ showZ (Z.of_nat k + 1).

(** [`-${k + 1}-of-${repeatNtimes}`] *)
Definition groupSuffix (k : nat) : string :=
  "-" +:+ showZ (Z.of_nat k + 1) +:+ "-of-" +:+ showZ repeatNtimes.

(** [runOptions.env = runOptions.env ? runOptions.env + ',' + envVariables : envVariables] *)
Definition injectEnv (runOptions k : nat) (h : heap) : heap :=
  let env := readField h runOptions "env" in
  writeField h runOptions "env"
    (if truthy env
     then VStr (toString env +:+ "," +:+ envVariables k)
     else VStr (envVariables k)).

(** [if (options.record && options.group) { runOptions.group = options.group;
      if (runOptions.group && repeatNtimes > 1) runOptions.group += suffix }] *)
Definition injectGroup (options runOptions k : nat) (h : heap) : heap :=
  if truthy (readField h options "record") && truthy (readField h options "group")
  then
    let h := writeField h runOptions "group" (readField h options "group") in
    if truthy (readField h runOptions "group") && (1 <? repeatNtimes)
    then writeField h runOptions "group"
           (VStr (toString (readField h runOptions "group") +:+ groupSuffix k))
    else h
  else h.

(** [if (forceContinue) runOptions.force = true] *)
Definition injectForce (runOptions : nat) (h : heap) : heap :=
  if forceContinue then writeField h runOptions "force" (VBool true) else h.

(** The body of the [for] loop, up to the [push]: the new configuration and
    the heap that holds it. *)
Definition buildRunOptions (options : nat) (k : nat) (h : heap)
  : option (nat * heap) :=
  match clone h options with
  | None => None
  | Some (runOptions, h) =>
      Some (runOptions,
            injectForce runOptions
              (injectGroup options runOptions k (injectEnv runOptions k h)))
  end.

(** [for (let k = 0; k < repeatNtimes; k++) { ...; allRunOptions.push(runOptions) }],
    with [count] iterations left. *)
Fixpoint buildLoop (options : nat) (count : nat) (k : nat) (h : heap)
    (allRunOptions : list nat) : option (list nat * heap) :=
  match count with
  | O => Some (allRunOptions, h)
  | S count' =>
      match buildRunOptions options k h with
      | None => None
      | Some (runOptions, h') =>
          buildLoop options count' (S k) h' (allRunOptions ++ [runOptions])
      end
  end.

Definition buildAllRunOptions (options : nat) (h : heap)
  : option (list nat * heap) :=
  buildLoop options (Z.to_nat repeatNtimes) 0 h [].

(** *** Second [then]: the attempts *)

(** [testResults.runs.filter(...).map(...).join(',')] *)
Definition failed (run : RunEntry) : bool := negb (stats_failures run =? 0).

Definition failedSpecsOf (runs : list RunEntry) : string :=
  String.concat "," (map spec_relative (filter failed runs)).

Definition isFailedStatus (status : option string) : bool :=
  match status with
  | Some s => String.eqb s "failed"
  | None => false
  end.

(** [const isLastRun = k === n - 1] *)
Definition isLastRun (k n : nat) : bool := Z.of_nat k =? Z.of_nat n - 1.

(** [if (rerunFailedOnly && !isLastRun) { ... }]: the failed specs become the
    [spec] of the next configuration; without failed specs the function
    returns [Promise.resolve()] unless [forceContinue]. *)
Definition rerunStep (allRunOptions : list nat) (k n : nat)
    (testResults : Res.t) : Stmt :=
  when (rerunFailedOnly && negb (isLastRun k n)) (
    match Res.runs testResults with
    | None => ret (Rejected TypeErr)
    | Some runs =>
        let failedSpecs := failedSpecsOf runs in
        if negb (String.length failedSpecs =? 0)%nat then
          exec (emit (LogFailedSpecs failedSpecs)) >>>
          match allRunOptions !! S k with
          | None => ret (Rejected TypeErr)
          | Some next =>
              fun st =>
                exec (setHeap (writeField (theHeap st) next "spec"
                                 (VStr failedSpecs))) st
          end
        else
          exec (emit LogNoFailedSpecs) >>>
          when (negb forceContinue) (ret Fulfilled)
    end).

(** [if (testResults.status === 'failed') { if (testResults.failures) { ... } }] *)
Definition failedStatusStep (testResults : Res.t) : Stmt :=
  when (isFailedStatus (Res.status testResults)) (
    when (truthyNum (Res.failures testResults)) (
      exec (emit (ErrMessage (Res.message testResults))) >>>
      exec (setAnyTestFailed true) >>>
      when (negb forceContinue)
        (ret (Rejected (Err "Test results indicate failures"))))).

(** [if (untilPasses) { ... } else { ... }] *)
Definition verdictStep (k n : nat) (testResults : Res.t) : Stmt :=
  if untilPasses then
    when (negb (truthyNum (Res.totalFailed testResults))) (
      exec (emit (LogPassed (Z.of_nat k + 1) (Z.of_nat n))) >>>
      ret (Rejected (Err "No failures detected, exiting with success."))) >>>
    exec (emit (ErrRunFailed (Z.of_nat k + 1) (Z.of_nat n))) >>>
    when (negb forceContinue && (Z.of_nat k =? Z.of_nat n - 1))
      (ret (Rejected (Err "No more attempts left")))
  else
    when (truthyNum (Res.totalFailed testResults)) (
      exec (emit (ErrRunFailed (Z.of_nat k + 1) (Z.of_nat n))) >>>
      when (negb forceContinue && (negb rerunFailedOnly || isLastRun k n))
        (ret (Rejected (Err "Failures detected and conditions met")))).

(** [onTestResults], closed over [allRunOptions], the index [k] and the
    length [n] that [mapSeries] passes to its iterator. *)
Definition onTestResults (allRunOptions : list nat) (k n : nat)
    (testResults : Res.t) : State -> State * Settled :=
  body (
    exec (updateTotals testResults) >>>
    rerunStep allRunOptions k n testResults >>>
    failedStatusStep testResults >>>
    verdictStep k n testResults).

(** [Bluebird.mapSeries(allRunOptions, iterator)] from the item of index [k]
    on: the items are visited in order, each after the promise of the one
    before is fulfilled; the first rejection rejects the whole and no later
    item is visited.  The items are references, so attempt [k] sees what
    earlier attempts wrote into its configuration. *)
Fixpoint mapSeriesFrom (allRunOptions : list nat) (n : nat) (k : nat)
    (items : list nat) (st : State) : State * Settled :=
  match items with
  | [] => (st, Fulfilled)
  | runOptions :: rest =>
      let st := emit (LogAttempt (Z.of_nat k + 1) (Z.of_nat n)) st in
      let out := cypressRun k (theHeap st) runOptions in
      let st := emit (CypressRun k runOptions out) st in
      match out with
      | RunRejected e => (st, Rejected e)
      | RunResolved testResults =>
          match onTestResults allRunOptions k n testResults st with
          | (st', Fulfilled) => mapSeriesFrom allRunOptions n (S k) rest st'
          | (st', Rejected e) => (st', Rejected e)
          end
      end
  end.

Definition mapSeries (allRunOptions : list nat) (st : State) : State * Settled :=
  mapSeriesFrom allRunOptions (length allRunOptions) 0 allRunOptions st.

(** *** [finally] and [catch] *)

Definition summaryText (tests passed failed skipped : number) : string :=
  String.concat nl
    [ "***** Repeat Run Summary *****";
      "Total Tests with repeat: " +:+ showNumber tests;
      "Total Passed: " +:+ showNumber passed;
      "Total Failed: " +:+ showNumber failed;
      "Total Skipped: " +:+ showNumber skipped;
      "*****************************" ].

Definition resultSummary (st : State) : string :=
  summaryText (totalTests st) (totalPassed st) (totalFailed st) (totalSkipped st).

Definition finallyHandler (st : State) : State :=
  let summary := resultSummary st in
  let st := emit LogEnterSummary st in
  let st := emit (LogSummary summary) st in
  let st := emit LogWriting st in
  let st := emit (WriteFile summary) st in
  let st := if writeFileOk then emit LogWritten st else emit ErrWriting st in
  if anyTestFailed st
  then emit LogExitTestFailures (emit ErrSomeTestsFailed st)
  else emit (LogFinished repeatNtimes) st.

Definition catchHandler (e : Rejection) (st : State) : State :=
  let st := emit (ErrError e) st in
  if negb forceContinue then emit LogExitError st else st.

(** The promise chain
    [parseArguments().then(build).then(mapSeries).finally(...).catch(...)]:
    a rejection skips the [then] handlers, [finally] runs in both cases and
    passes the settlement on, [catch] runs on a rejection. *)
Definition chain (parsed : Parsed) : State * Settled :=
  match parsed with
  | ParseRejected e => (initial [], Rejected e)
  | ParseResolved h options =>
      match buildAllRunOptions options h with
      | None => (initial h, Rejected TypeErr)
      | Some (allRunOptions, h') => mapSeries allRunOptions (initial h')
      end
  end.

Definition main (parsed : Parsed) : State :=
  let '(st, settled) := chain parsed in
  let st := finallyHandler st in
  match settled with
  | Fulfilled => st
  | Rejected e => catchHandler e st
  end.

End Script.

(** ** Predicates of the statements *)

(** The properties that the build writes itself. *)
Definition injected : list string := ["env"; "group"; "force"].

(** [rootedBlock h a c]: the object at [c] and the block [a <= l < c] below
    it hold everything that is reached from [c]. *)
Definition rootedBlock (h : heap) (a c : nat) : Prop :=
  (a <= c)%nat /\ closedBlock h a c /\
  exists o, h !! c = Some o /\ forall k w, (k, w) ∈ o -> inBlock a c w.

(** [copyOf ms h c]: the object at [c] serialises to an object that has the
    members [ms], the injected properties apart. *)
Definition copyOf (ms : list (string * json)) (h : heap) (c : nat) : Prop :=
  exists ms', stringify (S c) h (VRef c) = Some (Some (JObj ms')) /\
    forall key, key ∉ injected -> jget key ms' = jget key ms.

(** The configurations [cs], numbered from [k], lie one after the other from
    the address [a] on, each with the property [P]. *)
Fixpoint layout (P : nat -> nat -> nat -> Prop) (k a : nat) (cs : list nat) : Prop :=
  match cs with
  | [] => True
  | c :: r => (a <= c)%nat /\ P k a c /\ layout P (S k) (S c) r
  end.

(** [extends h0 h]: the heap [h] has the objects of [h0], unchanged. *)
Definition extends (h0 h : heap) : Prop :=
  (length h0 <= length h)%nat /\
  forall l, (l < length h0)%nat -> h !! l = h0 !! l.

(** What the build makes of the group label [g] of the parsed options, for
    the attempt of index [k] out of [n]. *)
Definition groupLabel (n : Z) (k : nat) (g : val) : val :=
  if truthy g && (1 <? n)
  then VStr (toString g +:+ "-" +:+ showZ (Z.of_nat k + 1) +:+ "-of-" +:+ showZ n)
  else g.

(** The configuration at [c], built for attempt [k] from the parsed options
    with members [ms], record flag [record] and group label [group]: it is
    rooted in the block from [a], it is a copy, and it has its group label
    when grouping is requested. *)
Definition configured (ms : list (string * json)) (n : Z) (record group : val)
    (h : heap) (k a c : nat) : Prop :=
  rootedBlock h a c /\ copyOf ms h c /\
  (truthy record && truthy group = true ->
   readField h c "group" = groupLabel n k group).

(** The attempts that ran, and the results of those that completed. *)
Definition attemptOf (e : Event) : option nat :=
  match e with
  | CypressRun k _ _ => Some k
  | _ => None
  end.

Definition resultOf (e : Event) : option Res.t :=
  match e with
  | CypressRun _ _ (RunResolved r) => Some r
  | _ => None
  end.

Definition attempts (l : list Event) : list nat := omap attemptOf l.
Definition completed (l : list Event) : list Res.t := omap resultOf l.

(** The sum of one count over a list of results, a missing count being 0. *)
Definition countOf (x : option number) : Z :=
  match orZero x with
  | Num z => z
  | NaN => 0
  end.

Definition sumOf (field : Res.t -> option number) (rs : list Res.t) : Z :=
  foldr (fun r acc => countOf (field r) + acc) 0 rs.

(** The same sum as the specification words it, with no part of the script
    in it: the count that a result reports in a field is the number the
    field holds, and 0 when the field is missing or is not a number; the
    total of a field is the sum of the reported counts. *)
Definition reported (x : option number) : Z :=
  match x with
  | Some (Num z) => z
  | _ => 0
  end.

Fixpoint totalOf (field : Res.t -> option number) (rs : list Res.t) : Z :=
  match rs with
  | [] => 0
  | r :: rest => reported (field r) + totalOf field rest
  end.

(** The summaries printed and the summaries written to the file. *)
Definition summaryOf (e : Event) : option string :=
  match e with
  | LogSummary s => Some s
  | _ => None
  end.

Definition writeOf (e : Event) : option string :=
  match e with
  | WriteFile s => Some s
  | _ => None
  end.

Definition summaries (l : list Event) : list string := omap summaryOf l.
Definition written (l : list Event) : list string := omap writeOf l.

(** An event that is neither a call of Cypress nor part of the summary. *)
Definition quiet (e : Event) : Prop :=
  attemptOf e = None /\ summaryOf e = None /\ writeOf e = None.

(** [later st st']: from [st] to [st'] the counters are kept and the log
    grows by quiet events. *)
Definition later (st st' : State) : Prop :=
  totalTests st' = totalTests st /\ totalPassed st' = totalPassed st /\
  totalFailed st' = totalFailed st /\ totalSkipped st' = totalSkipped st /\
  exists l, log st' = log st ++ l /\ Forall quiet l.

Definition stable (s : Stmt) : Prop := forall st, later st (fst (s st)).

(** [accounted st]: the counters are the sums over the completed attempts of
    the log, and no summary was produced yet. *)
Definition accounted (st : State) : Prop :=
  totalTests st = Num (sumOf Res.totalTests (completed (log st))) /\
  totalPassed st = Num (sumOf Res.totalPassed (completed (log st))) /\
  totalFailed st = Num (sumOf Res.totalFailed (completed (log st))) /\
  totalSkipped st = Num (sumOf Res.totalSkipped (completed (log st))) /\
  summaries (log st) = [] /\ written (log st) = [].

(** [s.split(sep)] for a separator of one character, and the test that a
    string holds that character. *)
Fixpoint splitOn (sep : ascii) (s : string) : list string :=
  match s with
  | EmptyString => [EmptyString]
  | String c r =>
      if Ascii.eqb c sep then EmptyString :: splitOn sep r
      else match splitOn sep r with
           | [] => [String c EmptyString]
           | w :: ws => String c w :: ws
           end
  end.

Fixpoint hasChar (sep : ascii) (s : string) : bool :=
  match s with
  | EmptyString => false
  | String c r => Ascii.eqb c sep || hasChar sep r
  end.

(** The names of the spec files with failures, in the order of [runs]. *)
Definition failedNames (runs : list RunEntry) : list string :=
  map spec_relative (filter failed runs).

(** The early return of the rerun block: [--rerun-failed-only] without
    [--force], an attempt that is not the last, and no failed spec. *)
Definition resolvesEarly (args : Args) (k n : nat) (runs : list RunEntry) : bool :=
  rerunFailedOnly args && negb (isLastRun k n) && negb (forceContinue args)
  && (String.length (failedSpecsOf runs) =? 0)%nat.

(** ** Sample inputs *)

(** Parsed options with a nested object: [{ spec, record: true, group:
    'smoke', config: { baseUrl } }], the nested object allocated first. *)
Definition sampleHeap : heap :=
  [ [("baseUrl", VStr "http://localhost:3000")];
    [("spec", VStr "cypress/e2e/spec.cy.js"); ("record", VBool true);
     ("group", VStr "smoke"); ("config", VRef 0)] ].

Definition sampleOptions : nat := 1%nat.

Definition sampleMembers : list (string * json) :=
  [("spec", JStr "cypress/e2e/spec.cy.js"); ("record", JBool true);
   ("group", JStr "smoke");
   ("config", JObj [("baseUrl", JStr "http://localhost:3000")])].

(** [-n 3] and no flag. *)
Definition sampleArgs : Args := mkArgs (Some 3) false false false.

(** A run that passes, a run with one failing spec file out of two, and what
    [cypress.run] resolves with when Cypress itself could not run. *)
Definition passingResult : Res.t :=
  Res.mk (Some (Num 3)) (Some (Num 3)) (Some (Num 0)) (Some (Num 0))
         (Some [mkRunEntry 0 "cypress/e2e/spec.cy.js"])
         (Some "finished") None None.

Definition failingResult : Res.t :=
  Res.mk (Some (Num 5)) (Some (Num 3)) (Some (Num 2)) (Some (Num 0))
         (Some [mkRunEntry 0 "cypress/e2e/a.cy.js";
                mkRunEntry 1 "cypress/e2e/b.cy.js";
                mkRunEntry 1 "cypress/e2e/c.cy.js"])
         (Some "finished") None None.

Definition crashedResult : Res.t :=
  Res.mk None None None None None
         (Some "failed") (Some (Num 1))
         (Some "Could not find Cypress test run results").

(** [--rerun-failed-only -n 3], and three configurations as the build leaves
    them when the parsed options are [{ spec: 'cypress/e2e/*.cy.js' }]. *)
Definition rerunArgs : Args := mkArgs (Some 3) false true false.

Definition threeConfigs : heap :=
  [ [("spec", VStr "cypress/e2e/*.cy.js")];
    [("spec", VStr "cypress/e2e/*.cy.js");
     ("env", VStr "cypress_repeat_n=3,cypress_repeat_k=1")];
    [("spec", VStr "cypress/e2e/*.cy.js");
     ("env", VStr "cypress_repeat_n=3,cypress_repeat_k=2")];
    [("spec", VStr "cypress/e2e/*.cy.js");
     ("env", VStr "cypress_repeat_n=3,cypress_repeat_k=3")] ].

(** Cypress passing at every attempt, and failing at every attempt. *)
Definition alwaysPassing : nat -> heap -> nat -> RunOutcome :=
  fun _ _ _ => RunResolved passingResult.

Definition alwaysFailing : nat -> heap -> nat -> RunOutcome :=
  fun _ _ _ => RunResolved failingResult.

(** [--until-passes --rerun-failed-only -n 3] and [--until-passes --force -n 3]. *)
Definition untilRerunArgs : Args := mkArgs (Some 3) true true false.
Definition untilForceArgs : Args := mkArgs (Some 3) true false true.

(** [--force -n 3]. *)
Definition forceArgs : Args := mkArgs (Some 3) false false true.

(** [--until-passes -n 3]. *)
Definition untilArgs : Args := mkArgs (Some 3) true false false.

(** ** The rest of the script: the command line *)

(** [parseArguments], up to the call of [cypress.cli.parseRunArguments]:
    [if (cliArgs[0] !== 'cypress') cliArgs.unshift('cypress')] and
    [if (cliArgs[1] !== 'run') cliArgs.splice(1, 0, 'run')], on the
    positional arguments [args._]. *)
Definition unshiftCypress (cliArgs : list string) : list string :=
  match cliArgs !! 0%nat with
  | Some x => if String.eqb x "cypress" then cliArgs else "cypress" :: cliArgs
  | None => "cypress" :: cliArgs
  end.

Definition spliceRun (cliArgs : list string) : list string :=
  let spliced := take 1 cliArgs ++ "run" :: drop 1 cliArgs in
  match cliArgs !! 1%nat with
  | Some x => if String.eqb x "run" then cliArgs else spliced
  | None => spliced
  end.

Definition cliArgs (positional : list string) : list string :=
  spliceRun (unshiftCypress positional).

(** [parseArguments], with the parser of Cypress as a parameter. *)
Definition parseArguments (parseRunArguments : list string -> Parsed)
    (positional : list string) : Parsed :=
  parseRunArguments (cliArgs positional).

(** The configurations that the build made: none when the parser or the
    build failed. *)
Definition built (args : Args) (parsed : Parsed) : list nat :=
  match parsed with
  | ParseResolved h options =>
      match buildAllRunOptions args options h with
      | Some (allRunOptions, _) => allRunOptions
      | None => []
      end
  | ParseRejected _ => []
  end.

(** The rejections printed by the error block. *)
Definition errorOf (e : Event) : option Rejection :=
  match e with
  | ErrError x => Some x
  | _ => None
  end.

Definition errors (l : list Event) : list Rejection := omap errorOf l.

(** A result of a run that Cypress could not complete: status 'failed'
    with a truthy [failures]. *)
Definition crashed (r : Res.t) : bool :=
  isFailedStatus (Res.status r) && truthyNum (Res.failures r).

(** ** Relations between the states of a run *)

(** The events of the loop, as opposed to those of the summary block and of
    the error block. *)
Definition loopEvent (e : Event) : bool :=
  match e with
  | LogAttempt _ _ | CypressRun _ _ _ | LogFailedSpecs _ | LogNoFailedSpecs
  | ErrMessage _ | LogPassed _ _ | ErrRunFailed _ _ => true
  | _ => false
  end.

(** A statement keeps the relation [R] between the state it starts from and
    the state it ends in. *)
Definition holds (R : State -> State -> Prop) (s : Stmt) : Prop :=
  forall st, R st (fst (s st)).

(** The log grows by events of the kind [Q]. *)
Definition grows (Q : Event -> Prop) (st st' : State) : Prop :=
  exists l, log st' = log st ++ l /\ Forall Q l.

(** The failure flag is kept, or it is set and the result is that of a
    crashed run. *)
Definition flagged (r : Res.t) (st st' : State) : Prop :=
  anyTestFailed st' = anyTestFailed st \/
  (anyTestFailed st' = true /\ crashed r = true).

(** The heap keeps its objects, but for the [spec] of the object [next]. *)
Definition patches (next : option nat) (st st' : State) : Prop :=
  length (theHeap st') = length (theHeap st) /\
  (forall l, next <> Some l -> theHeap st' !! l = theHeap st !! l) /\
  (forall l key, key <> "spec" ->
     readField (theHeap st') l key = readField (theHeap st) l key).

(** The calls of [cypress.run]: the attempt and the configuration passed. *)
Definition callOf (e : Event) : option (nat * nat) :=
  match e with
  | CypressRun k runOptions _ => Some (k, runOptions)
  | _ => None
  end.

Definition calls (l : list Event) : list (nat * nat) := omap callOf l.

(** Two values that are the same primitive, or a reference each. *)
Definition alike (v w : val) : Prop :=
  match v, w with
  | VRef _, VRef _ => True
  | _, _ => v = w
  end.

(** An object that lies on a cycle of references: it is found again by
    following one of its own properties. *)
Definition onCycle (h : heap) (l : nat) : Prop :=
  exists o key v, h !! l = Some o /\ (key, v) ∈ o /\ reach h v l.

(** ** More sample inputs *)

(** Cypress unable to run at every attempt. *)
Definition alwaysCrashed : nat -> heap -> nat -> RunOutcome :=
  fun _ _ _ => RunResolved crashedResult.

(** [--rerun-failed-only --force -n 3]. *)
Definition rerunForceArgs : Args := mkArgs (Some 3) false true true.

(** Parsed options with an [env] of the user and a nested object. *)
Definition envHeap : heap :=
  [ [("baseUrl", VStr "http://localhost:3000")];
    [("spec", VStr "cypress/e2e/spec.cy.js"); ("env", VStr "user=qa");
     ("config", VRef 0)] ].

(** An object that refers to itself. *)
Definition circularHeap : heap := [ [("spec", VStr "cypress/e2e/*.cy.js"); ("self", VRef 0)] ].

(** * Properties *)

(** ** Objects and the heap *)

Section JsFacts.

Implicit Types (h : heap) (o : obj) (v : val) (j : json).

(** Induction on JSON trees with the members of an object at hand. *)
Lemma json_ind' (P : json -> Prop) :
  P JNull -> (forall b, P (JBool b)) -> (forall z, P (JNum z)) ->
  (forall s, P (JStr s)) ->
  (forall ms, Forall (fun kj => P (snd kj)) ms -> P (JObj ms)) ->
  forall j, P j.
Proof.
  intros HN HB HZ HS HO.
  fix IH 1. intros [| b | z | s | ms].
  - exact HN.
  - apply HB.
  - apply HZ.
  - apply HS.
  - apply HO. induction ms as [| [k j] r IHr].
    + constructor.
    + constructor; [exact (IH j) | exact IHr].
Qed.

Lemma getProp_setProp_eq key v o : getProp key (setProp key v o) = v.
Proof.
  induction o as [| [k w] r IH]; simpl.
  - by rewrite String.eqb_refl.
  - destruct (String.eqb k key) eqn:E; simpl; by rewrite E.
Qed.

Lemma getProp_setProp_ne key key' v o :
  key <> key' -> getProp key (setProp key' v o) = getProp key o.
Proof.
  intros Hne. induction o as [| [k w] r IH]; simpl.
  - destruct (String.eqb key' key) eqn:E; [| done].
    apply String.eqb_eq in E. congruence.
  - destruct (String.eqb k key') eqn:E; simpl.
    + apply String.eqb_eq in E. subst k.
      destruct (String.eqb key' key) eqn:E'; [| done].
      apply String.eqb_eq in E'. congruence.
    + destruct (String.eqb k key); [done | exact IH].
Qed.

Lemma elem_of_setProp k w key v o :
  (k, w) ∈ setProp key v o -> (k, w) ∈ o \/ w = v.
Proof.
  induction o as [| [k' w'] r IH]; simpl.
  - intros H. apply list_elem_of_singleton in H. right. congruence.
  - destruct (String.eqb k' key).
    + intros H. apply elem_of_cons in H as [H | H].
      * right. congruence.
      * left. by apply elem_of_cons; right.
    + intros H. apply elem_of_cons in H as [H | H].
      * left. apply elem_of_cons. by left.
      * destruct (IH H) as [H' | H']; [left | by right].
        apply elem_of_cons. by right.
Qed.

Lemma writeField_length h x key v : length (writeField h x key v) = length h.
Proof.
  unfold writeField. destruct (h !! x); [apply length_insert | done].
Qed.

Lemma writeField_lookup_ne h x key v l :
  l <> x -> writeField h x key v !! l = h !! l.
Proof.
  intros Hne. unfold writeField. destruct (h !! x); [| done].
  by apply list_lookup_insert_ne.
Qed.

Lemma writeField_lookup_eq h x key v o :
  h !! x = Some o -> writeField h x key v !! x = Some (setProp key v o).
Proof.
  intros H. unfold writeField. rewrite H.
  apply list_lookup_insert_eq. by eapply lookup_lt_Some.
Qed.

Lemma readField_writeField_eq h x key v :
  (x < length h)%nat -> readField (writeField h x key v) x key = v.
Proof.
  intros Hx. destruct (lookup_lt_is_Some_2 h x Hx) as [o Ho].
  unfold readField. rewrite (writeField_lookup_eq _ _ _ _ _ Ho).
  apply getProp_setProp_eq.
Qed.

Lemma readField_writeField_ne_key h x key key' v :
  key <> key' -> readField (writeField h x key' v) x key = readField h x key.
Proof.
  intros Hne. unfold readField. destruct (h !! x) as [o |] eqn:Ho.
  - rewrite (writeField_lookup_eq _ _ _ _ _ Ho). by apply getProp_setProp_ne.
  - unfold writeField. by rewrite !Ho.
Qed.

Lemma inBlock_weaken a b a' b' v :
  (a' <= a)%nat -> (b <= b')%nat -> inBlock a b v -> inBlock a' b' v.
Proof. destruct v; simpl; lia. Qed.

Lemma isPrim_inBlock a b v : isPrim v -> inBlock a b v.
Proof. by destruct v. Qed.

(** A closed block depends on its own cells only. *)
Lemma closedBlock_agree h h' a b :
  closedBlock h a b ->
  (forall l, (a <= l < b)%nat -> h' !! l = h !! l) ->
  closedBlock h' a b.
Proof.
  intros Hc Hag l o k w Hl Ho Hin. rewrite Hag in Ho by done. by eapply Hc.
Qed.

(** What is reached from inside a closed block lies in the block. *)
Lemma reach_closedBlock h a b v l :
  closedBlock h a b -> reach h v l -> inBlock a b v -> (a <= l < b)%nat.
Proof.
  intros Hc Hr. induction Hr as [l | l o key v l' Ho Hin Hr IH]; simpl.
  - done.
  - intros Hl. apply IH. by eapply Hc.
Qed.

Lemma serMembers_ext (f g : val -> option (option json)) o :
  (forall k v, (k, v) ∈ o -> f v = g v) -> serMembers f o = serMembers g o.
Proof.
  induction o as [| [k v] r IH]; simpl; [done |].
  intros H. rewrite (H k v) by (apply elem_of_cons; by left).
  rewrite IH; [done |]. intros k' v' Hin. apply (H k'). apply elem_of_cons. by right.
Qed.

(** Frame: [JSON.stringify] of a value of a closed block reads the cells of
    the block only. *)
Lemma stringify_agree fuel h h' a b v :
  closedBlock h a b ->
  (forall l, (a <= l < b)%nat -> h' !! l = h !! l) ->
  inBlock a b v ->
  stringify fuel h' v = stringify fuel h v.
Proof.
  intros Hc Hag. revert v.
  induction fuel as [| f IH]; intros [| | ? | ? | ? | l] Hv; simpl; try done.
  rewrite Hag by done. destruct (h !! l) as [o |] eqn:Ho; [| done].
  rewrite (serMembers_ext (stringify f h') (stringify f h)); [done |].
  intros k w Hin. apply IH. by eapply Hc.
Qed.

(** More fuel does not change a result. *)
Lemma stringify_fuel_mono f f' h v r :
  stringify f h v = Some r -> (f <= f')%nat -> stringify f' h v = Some r.
Proof.
  revert f' v r. induction f as [| f IH]; intros f' [| | ? | ? | ? | l] r;
    simpl; try done; try (intros H _; by destruct f').
  intros H Hle. destruct f' as [| f']; [lia |]. simpl.
  destruct (h !! l) as [o |]; [| done].
  destruct (serMembers (stringify f h) o) as [ms |] eqn:Hms; [| done].
  assert (serMembers (stringify f' h) o = Some ms) as ->; [| done].
  clear H. revert ms Hms. induction o as [| [k w] o IHo]; simpl; [done |].
  intros ms. destruct (stringify f h w) as [jw |] eqn:Hw; [| done].
  rewrite (IH f' w jw Hw) by lia.
  destruct (serMembers (stringify f h) o) as [js |]; [| done].
  by rewrite (IHo js eq_refl).
Qed.

(** *** The fuel of [JSON.stringify]

    When the object at [l] is serialised with [f + 1] units of fuel and not
    with [f], one of its members is an object that is serialised with [f]
    units and not with [f - 1]: a path of [f + 1] distinct objects. *)
Lemma serMembers_None (rec : val -> option (option json)) o :
  serMembers rec o = None -> exists k w, (k, w) ∈ o /\ rec w = None.
Proof.
  induction o as [| [k w] r IH]; simpl; [done |].
  destruct (rec w) as [jw |] eqn:Hw.
  - destruct (serMembers rec r); [done |]. intros _.
    destruct (IH eq_refl) as (k' & w' & Hin & Hn).
    exists k', w'. split; [apply elem_of_cons; by right | done].
  - intros _. exists k, w. split; [apply elem_of_cons; by left | done].
Qed.

Lemma serMembers_Some (rec : val -> option (option json)) o ms k w :
  serMembers rec o = Some ms -> (k, w) ∈ o -> exists r, rec w = Some r.
Proof.
  revert ms. induction o as [| [k0 w0] r IH]; simpl; intros ms.
  - intros _ Hin. by apply elem_of_nil in Hin.
  - destruct (rec w0) as [jw |] eqn:Hw; [| done].
    destruct (serMembers rec r) as [js |]; [| done].
    intros _ Hin. apply elem_of_cons in Hin as [[= -> ->] | Hin].
    + by eexists.
    + by apply (IH js).
Qed.

Lemma stringify_ref f h l :
  stringify (S f) h (VRef l) =
  match h !! l with
  | None => None
  | Some o =>
      match serMembers (stringify f h) o with
      | None => None
      | Some ms => Some (Some (JObj ms))
      end
  end.
Proof. reflexivity. Qed.

Lemma needs_next h f l :
  (exists r, stringify (S (S f)) h (VRef l) = Some r) ->
  stringify (S f) h (VRef l) = None ->
  exists l', (exists r, stringify (S f) h (VRef l') = Some r) /\
             stringify f h (VRef l') = None.
Proof.
  intros [r Hr] Hn. rewrite stringify_ref in Hr, Hn.
  destruct (h !! l) as [o |]; [| done].
  destruct (serMembers (stringify (S f) h) o) as [ms |] eqn:Hs; [| done].
  destruct (serMembers (stringify f h) o) eqn:Hs'; [done |].
  destruct (serMembers_None _ _ Hs') as (k & w & Hin & Hw).
  destruct (serMembers_Some _ _ _ _ _ Hs Hin) as (rw & Hrw).
  destruct w as [| | | | | l']; try (by destruct f).
  exists l'. split; [by exists rw | done].
Qed.

(** The objects entered on the longest path: one per unit of fuel, each
    with its own need. *)
Lemma needs_chain h f l :
  (exists r, stringify (S f) h (VRef l) = Some r) ->
  stringify f h (VRef l) = None ->
  exists ls, length ls = S f /\
    forall i l', ls !! i = Some l' ->
      (exists r, stringify (S (f - i)) h (VRef l') = Some r) /\
      stringify (f - i) h (VRef l') = None.
Proof.
  revert l. induction f as [| f IH]; intros l Hs Hn.
  - exists [l]. split; [done |]. intros [| i] l' Hi; [| done].
    injection Hi as <-. by split.
  - destruct (needs_next h f l Hs Hn) as (l1 & Hs1 & Hn1).
    destruct (IH l1 Hs1 Hn1) as (ls & Hlen & Hls).
    exists (l :: ls). split; [simpl; lia |].
    intros [| i] l' Hi.
    + injection Hi as <-. by split.
    + simpl in Hi. apply (Hls i l' Hi).
Qed.

(** Pigeonhole: a serialisation that succeeds needs no more fuel than the
    heap has objects. *)
Lemma stringify_enough_fuel h f v r :
  stringify f h v = Some r -> stringify (length h) h v = Some r.
Proof.
  destruct v as [| | b | z | s | l];
    try (intros H; destruct f, (length h); exact H).
  induction f as [| f IH]; [done |]. intros Hr.
  destruct (stringify f h (VRef l)) as [r' |] eqn:Hf.
  - rewrite (stringify_fuel_mono _ (S f) _ _ _ Hf) in Hr by lia.
    injection Hr as <-. by apply IH.
  - destruct (needs_chain h f l (ex_intro _ r Hr) Hf) as (ls & Hlen & Hls).
    assert (NoDup ls) as Hnd.
    { apply NoDup_alt. intros i j x Hi Hj.
      destruct (Hls i x Hi) as ([ri Hsi] & Hni).
      destruct (Hls j x Hj) as ([rj Hsj] & Hnj).
      pose proof (lookup_lt_Some _ _ _ Hi). pose proof (lookup_lt_Some _ _ _ Hj).
      destruct (decide (i = j)) as [| Hne]; [done |]. exfalso.
      destruct (decide (i < j)%nat).
      - rewrite (stringify_fuel_mono _ (f - i) _ _ _ Hsj) in Hni by lia. done.
      - rewrite (stringify_fuel_mono _ (f - j) _ _ _ Hsi) in Hnj by lia. done. }
    assert (S f <= length h)%nat as Hle.
    { rewrite <- Hlen, <- (length_seq (length h) 0).
      apply NoDup_incl_length; [by apply NoDup_ListNoDup |].
      intros x Hx. apply in_seq. apply list_elem_of_In, list_elem_of_lookup in Hx as [i Hi].
      destruct (Hls i x Hi) as ([ri Hsi] & _). rewrite stringify_ref in Hsi.
      destruct (h !! x) eqn:Hx; [| done]. apply lookup_lt_Some in Hx. lia. }
    by apply (stringify_fuel_mono (S f)).
Qed.

(** [JSON.parse] only appends to the heap; the objects it allocates form a
    closed block, and its result lies in that block. *)
Lemma parseMembers_struct ms :
  Forall (fun kj => forall h v h', parse (snd kj) h = (v, h') ->
            (exists ext, h' = h ++ ext) /\
            inBlock (length h) (length h') v /\
            closedBlock h' (length h) (length h')) ms ->
  forall h o h1, parseMembers parse ms h = (o, h1) ->
    (exists ext, h1 = h ++ ext) /\
    (forall k v, (k, v) ∈ o -> inBlock (length h) (length h1) v) /\
    closedBlock h1 (length h) (length h1).
Proof.
  induction 1 as [| [k j] r Hj _ IH]; intros h o h1; simpl.
  - intros [= <- <-]. split; [exists []; by rewrite app_nil_r |].
    split; [intros k v Hin; by apply elem_of_nil in Hin |].
    intros l ? ? ? Hl. lia.
  - destruct (parse j h) as [v ha] eqn:Hp.
    destruct (parseMembers parse r ha) as [o' hb] eqn:Hm.
    intros [= <- <-].
    destruct (Hj h v ha Hp) as ([e1 Ha] & Hv & Hc1).
    destruct (IH _ _ _ Hm) as ([e2 Hb] & Ho' & Hc2).
    assert (length ha = length h + length e1)%nat as La
      by (rewrite Ha; apply length_app).
    assert (length hb = length ha + length e2)%nat as Lb
      by (rewrite Hb; apply length_app).
    split; [exists (e1 ++ e2); by rewrite app_assoc, <- Ha |].
    split.
    + intros k' v' Hin. apply elem_of_cons in Hin as [[= -> ->] | Hin].
      * eapply inBlock_weaken; [| | exact Hv]; lia.
      * eapply inBlock_weaken; [| | exact (Ho' _ _ Hin)]; lia.
    + intros l c k' w Hl Hlk Hin.
      destruct (decide (l < length ha)%nat) as [Hlt | Hge].
      * rewrite Hb, lookup_app_l in Hlk by done.
        eapply inBlock_weaken; [| | exact (Hc1 l c k' w ltac:(lia) Hlk Hin)]; lia.
      * eapply inBlock_weaken; [| | exact (Hc2 l c k' w ltac:(lia) Hlk Hin)]; lia.
Qed.

Lemma parse_struct j h v h' :
  parse j h = (v, h') ->
  (exists ext, h' = h ++ ext) /\
  inBlock (length h) (length h') v /\
  closedBlock h' (length h) (length h').
Proof.
  revert h v h'. induction j as [| b | z | s | ms IH] using json_ind';
    intros h v h'; simpl;
    try (intros [= <- <-]; split; [exists []; by rewrite app_nil_r |];
         split; [done |]; intros l ? ? ? Hl; lia).
  destruct (parseMembers parse ms h) as [o h1] eqn:Hm.
  intros [= <- <-].
  destruct (parseMembers_struct ms IH _ _ _ Hm) as ([e He] & Ho & Hc).
  assert (length h1 = length h + length e)%nat as L1
    by (rewrite He; apply length_app).
  assert (length (h1 ++ [o]) = S (length h1)) as L2
    by (rewrite length_app; simpl; lia).
  split; [exists (e ++ [o]); by rewrite app_assoc, <- He |].
  split; [simpl; lia |].
  intros l c k w Hl Hlk Hin.
  destruct (decide (l < length h1)%nat) as [Hlt | Hge].
  - rewrite lookup_app_l in Hlk by done.
    eapply inBlock_weaken; [| | exact (Hc l c k w ltac:(lia) Hlk Hin)]; lia.
  - assert (l = length h1) as -> by lia.
    rewrite list_lookup_middle in Hlk by done. injection Hlk as <-.
    eapply inBlock_weaken; [| | exact (Ho _ _ Hin)]; lia.
Qed.

Lemma parse_struct_all ms :
  Forall (fun kj : string * json => forall h v h', parse (snd kj) h = (v, h') ->
            (exists ext, h' = h ++ ext) /\
            inBlock (length h) (length h') v /\
            closedBlock h' (length h) (length h')) ms.
Proof. apply Forall_forall. intros kj _ h v h'. apply parse_struct. Qed.

(** [JSON.stringify] after [JSON.parse] gives the tree back, with a fuel of
    the number of objects allocated. *)
Lemma parseMembers_roundtrip ms :
  Forall (fun kj => forall h v h', parse (snd kj) h = (v, h') ->
            forall f, (length h' - length h <= f)%nat ->
              stringify f h' v = Some (Some (snd kj))) ms ->
  forall h o h1, parseMembers parse ms h = (o, h1) ->
    forall h'' f,
      (forall l, (length h <= l < length h1)%nat -> h'' !! l = h1 !! l) ->
      (length h1 - length h <= f)%nat ->
      serMembers (stringify f h'') o = Some ms.
Proof.
  induction 1 as [| [k j] r Hj _ IH]; intros h o h1; simpl.
  - by intros [= <- <-].
  - destruct (parse j h) as [v ha] eqn:Hp.
    destruct (parseMembers parse r ha) as [o' hb] eqn:Hm.
    intros [= <- <-] h'' f Hag Hf. simpl in *.
    destruct (parse_struct _ _ _ _ Hp) as ([e1 Ha] & Hv & Hc1).
    destruct (parseMembers_struct r (parse_struct_all r) _ _ _ Hm)
      as ([e2 Hb] & _ & _).
    assert (length ha = length h + length e1)%nat as La
      by (rewrite Ha; apply length_app).
    assert (length hb = length ha + length e2)%nat as Lb
      by (rewrite Hb; apply length_app).
    assert (stringify f h'' v = Some (Some j)) as ->.
    { rewrite (stringify_agree f ha h'' (length h) (length ha)).
      - apply (Hj _ _ _ Hp). lia.
      - done.
      - intros l Hl. rewrite Hag by lia. rewrite Hb.
        apply lookup_app_l. lia.
      - done. }
    rewrite (IH _ _ _ Hm h'' f); [done | | lia].
    intros l Hl. apply Hag. lia.
Qed.

Lemma parse_roundtrip j h v h' :
  parse j h = (v, h') ->
  forall f, (length h' - length h <= f)%nat -> stringify f h' v = Some (Some j).
Proof.
  revert h v h'. induction j as [| b | z | s | ms IH] using json_ind';
    intros h v h'; simpl; try (intros [= <- <-] f _; by destruct f).
  destruct (parseMembers parse ms h) as [o h1] eqn:Hm.
  intros [= <- <-] f Hf.
  destruct (parseMembers_struct ms (parse_struct_all ms) _ _ _ Hm)
    as ([e He] & _ & _).
  assert (length h1 = length h + length e)%nat as L1
    by (rewrite He; apply length_app).
  assert (length (h1 ++ [o]) = S (length h1)) as L2
    by (rewrite length_app; simpl; lia).
  destruct f as [| f]; [lia |]. simpl.
  rewrite list_lookup_middle by done.
  rewrite (parseMembers_roundtrip ms IH _ _ _ Hm); [done | | lia].
  intros l Hl. apply lookup_app_l. lia.
Qed.

(** [clone]: the copy is the last object of the new heap, rooted in a fresh
    block, and it has the JSON of the original; no object of the old heap
    is touched. *)
Lemma clone_spec h x j :
  view h (VRef x) = Some (Some j) ->
  exists c h',
    clone h x = Some (c, h') /\
    length h' = S c /\ (length h <= c)%nat /\
    (forall l, (l < length h)%nat -> h' !! l = h !! l) /\
    rootedBlock h' (length h) c /\
    stringify (S c) h' (VRef c) = Some (Some j).
Proof.
  intros Hv. unfold clone. rewrite Hv.
  assert (exists ms, j = JObj ms) as [ms ->].
  { unfold view in Hv. destruct (length h); simpl in Hv; [done |].
    destruct (h !! x); [| done].
    destruct (serMembers _ _); [| done]. injection Hv as <-. by eexists. }
  destruct (parse (JObj ms) h) as [v h'] eqn:Hp.
  pose proof (parse_roundtrip _ _ _ _ Hp) as Hr.
  simpl in Hp. destruct (parseMembers parse ms h) as [o h1] eqn:Hm.
  injection Hp as <- <-.
  destruct (parseMembers_struct ms (parse_struct_all ms) _ _ _ Hm)
    as ([e He] & Ho & Hc).
  assert (length h1 = length h + length e)%nat as L1
    by (rewrite He; apply length_app).
  assert (length (h1 ++ [o]) = S (length h1)) as L2
    by (rewrite length_app; simpl; lia).
  eexists _, _. split; [done |]. split; [done |]. split; [lia |].
  split; [| split].
  - intros l Hl. rewrite lookup_app_l by lia. rewrite He. by apply lookup_app_l.
  - split; [lia |]. split.
    + intros l c k w Hl Hlk Hin. rewrite lookup_app_l in Hlk by lia.
      by eapply Hc.
    + exists o. split; [by apply list_lookup_middle | done].
  - apply Hr. lia.
Qed.

Lemma stringify_prim f h v : isPrim v -> exists r, stringify f h v = Some r.
Proof. destruct f, v; simpl; try done; intros _; by eexists. Qed.

(** Setting one property changes no other member of the serialised
    object. *)
Lemma serMembers_setProp (rec : val -> option (option json)) o key' v jv ms :
  serMembers rec o = Some ms -> rec v = Some jv ->
  exists ms', serMembers rec (setProp key' v o) = Some ms' /\
    forall key, key <> key' -> jget key ms' = jget key ms.
Proof.
  intros Hms Hv. revert ms Hms.
  induction o as [| [k w] r IH]; simpl; intros ms.
  - intros [= <-]. rewrite Hv. eexists. split; [done |].
    intros key Hne. destruct jv as [j |]; simpl; [| done].
    destruct (String.eqb key' key) eqn:E; [| done].
    apply String.eqb_eq in E. congruence.
  - destruct (rec w) as [jw |] eqn:Hw; [| done].
    destruct (serMembers rec r) as [js |] eqn:Hr; [| done].
    intros [= <-].
    destruct (String.eqb k key') eqn:E; simpl.
    + apply String.eqb_eq in E. subst k. rewrite Hv, Hr.
      eexists. split; [done |]. intros key Hne.
      assert (String.eqb key' key = false) as Ek.
      { apply String.eqb_neq. congruence. }
      destruct jv, jw; simpl; by rewrite ?Ek.
    + rewrite Hw. destruct (IH js eq_refl) as (js' & -> & Hjs).
      eexists. split; [done |]. intros key Hne.
      destruct jw; simpl; [| by apply Hjs].
      destruct (String.eqb k key); [done | by apply Hjs].
Qed.

Lemma rootedBlock_closed h a c : rootedBlock h a c -> closedBlock h a (S c).
Proof.
  intros (Hac & Hc & o & Ho & Hin) l o' k w Hl Hlk Hk.
  destruct (decide (l = c)) as [-> | Hne].
  - rewrite Ho in Hlk. injection Hlk as <-.
    eapply inBlock_weaken; [| | exact (Hin _ _ Hk)]; lia.
  - eapply inBlock_weaken; [| | exact (Hc l o' k w ltac:(lia) Hlk Hk)]; lia.
Qed.

Lemma rootedBlock_agree h h' a c :
  rootedBlock h a c ->
  (forall l, (a <= l < S c)%nat -> h' !! l = h !! l) ->
  rootedBlock h' a c.
Proof.
  intros (Hac & Hc & o & Ho & Hin) Hag. split; [done |]. split.
  - eapply closedBlock_agree; [exact Hc |]. intros l Hl. apply Hag. lia.
  - exists o. split; [| done]. rewrite Hag by lia. done.
Qed.

Lemma rootedBlock_writeField h a c key v :
  rootedBlock h a c -> isPrim v -> rootedBlock (writeField h c key v) a c.
Proof.
  intros (Hac & Hc & o & Ho & Hin) Hv. split; [done |]. split.
  - eapply closedBlock_agree; [exact Hc |]. intros l Hl.
    apply writeField_lookup_ne. lia.
  - exists (setProp key v o). split; [by apply writeField_lookup_eq |].
    intros k w Hk. destruct (elem_of_setProp _ _ _ _ _ Hk) as [H | ->].
    + by eapply Hin.
    + by apply isPrim_inBlock.
Qed.

Lemma copyOf_agree ms h h' a c :
  rootedBlock h a c -> copyOf ms h c ->
  (forall l, (a <= l < S c)%nat -> h' !! l = h !! l) ->
  copyOf ms h' c.
Proof.
  intros Hr (ms' & Hs & Hget) Hag. exists ms'. split; [| done].
  rewrite (stringify_agree (S c) h h' a (S c)); [done | | done |].
  - by apply rootedBlock_closed.
  - destruct Hr as (Hac & _). simpl. lia.
Qed.

Lemma copyOf_writeField ms h a c key' v :
  rootedBlock h a c -> copyOf ms h c -> isPrim v -> key' ∈ injected ->
  copyOf ms (writeField h c key' v) c.
Proof.
  intros (Hac & Hc & o & Ho & Hin) (ms' & Hs & Hget) Hv Hk.
  simpl in Hs. rewrite Ho in Hs.
  destruct (serMembers (stringify c h) o) as [ms0 |] eqn:Hser; [| done].
  injection Hs as <-.
  destruct (stringify_prim c h v Hv) as [jv Hjv].
  destruct (serMembers_setProp _ o key' v jv ms0 Hser Hjv) as (ms2 & Hser2 & Hget2).
  exists ms2. split.
  - simpl. rewrite (writeField_lookup_eq _ _ _ _ _ Ho).
    rewrite (serMembers_ext _ (stringify c h)); [by rewrite Hser2 |].
    intros k w Hin'. apply (stringify_agree c h _ a c); [done | |].
    + intros l Hl. apply writeField_lookup_ne. lia.
    + destruct (elem_of_setProp _ _ _ _ _ Hin') as [H | ->].
      * by eapply Hin.
      * by apply isPrim_inBlock.
  - intros key Hnk. rewrite Hget2; [by apply Hget |].
    intros ->. done.
Qed.

End JsFacts.

(** ** The configurations of the attempts *)

Lemma extends_refl (h : heap) : extends h h.
Proof. split; [lia | done]. Qed.

Lemma extends_trans_below (h0 h h' : heap) :
  extends h0 h -> (length h <= length h')%nat ->
  (forall l, (l < length h)%nat -> h' !! l = h !! l) -> extends h0 h'.
Proof.
  intros [Hl Hag] Hl' Hag'. split; [lia |].
  intros l H. rewrite Hag' by lia. by apply Hag.
Qed.

Section BuildFacts.

Variable args : Args.
Variables (h0 : heap) (options : nat) (ms : list (string * json)).

(** The parsed options: an object of a heap without dangling references,
    which [JSON.stringify] accepts, with a primitive group label. *)
Hypothesis Hwf : closedBlock h0 0 (length h0).
Hypothesis Hview : view h0 (VRef options) = Some (Some (JObj ms)).
Hypothesis Hgroup : isPrim (readField h0 options "group").

Let record0 := readField h0 options "record".
Let group0 := readField h0 options "group".
Let N := repeatNtimes args.

Lemma options_lt : (options < length h0)%nat.
Proof.
  unfold view in Hview. destruct (length h0) eqn:E; simpl in Hview; [done |].
  destruct (h0 !! options) as [o |] eqn:Ho; [| done].
  apply lookup_lt_Some in Ho. lia.
Qed.

Lemma view_extends h : extends h0 h -> view h (VRef options) = Some (Some (JObj ms)).
Proof.
  intros [Hl Hag]. unfold view.
  rewrite (stringify_agree (length h) h0 h 0 (length h0)); [| done | | ].
  - eapply stringify_fuel_mono; [exact Hview | done].
  - intros l Hlt. apply Hag. lia.
  - simpl. pose proof options_lt. lia.
Qed.

Lemma readField_extends h key :
  extends h0 h -> readField h options key = readField h0 options key.
Proof.
  intros [Hl Hag]. unfold readField. by rewrite Hag by apply options_lt.
Qed.

(** One injected write keeps the configuration under construction. *)
Lemma build_write h a c key v :
  rootedBlock h a c /\ copyOf ms h c -> isPrim v -> key ∈ injected ->
  rootedBlock (writeField h c key v) a c /\ copyOf ms (writeField h c key v) c.
Proof.
  intros [Hr Hc] Hv Hk. split.
  - by apply rootedBlock_writeField.
  - by eapply copyOf_writeField.
Qed.

Lemma injectEnv_spec h a c k :
  rootedBlock h a c /\ copyOf ms h c ->
  let h' := injectEnv args c k h in
  (rootedBlock h' a c /\ copyOf ms h' c) /\
  length h' = length h /\
  (forall l, l <> c -> h' !! l = h !! l).
Proof.
  intros H. unfold injectEnv. simpl. split; [| split].
  - apply build_write; [done | by destruct (truthy _) | ].
    unfold injected. apply elem_of_cons. by left.
  - apply writeField_length.
  - intros l Hl. by apply writeField_lookup_ne.
Qed.

Lemma injectForce_spec h a c :
  rootedBlock h a c /\ copyOf ms h c ->
  let h' := injectForce args c h in
  (rootedBlock h' a c /\ copyOf ms h' c) /\
  length h' = length h /\
  (forall l, l <> c -> h' !! l = h !! l) /\
  readField h' c "group" = readField h c "group".
Proof.
  intros H. unfold injectForce. simpl.
  destruct (forceContinue args); [| done].
  split; [| split; [| split]].
  - apply build_write; [done | done |].
    unfold injected. do 2 (apply elem_of_cons; right). apply elem_of_cons. by left.
  - apply writeField_length.
  - intros l Hl. by apply writeField_lookup_ne.
  - by apply readField_writeField_ne_key.
Qed.

Lemma injectGroup_spec h a c k :
  extends h0 h -> (length h0 <= c < length h)%nat ->
  rootedBlock h a c /\ copyOf ms h c ->
  let h' := injectGroup args options c k h in
  (rootedBlock h' a c /\ copyOf ms h' c) /\
  length h' = length h /\
  (forall l, l <> c -> h' !! l = h !! l) /\
  (truthy record0 && truthy group0 = true ->
   readField h' c "group" = groupLabel N k group0).
Proof.
  intros Hext Hc H. unfold injectGroup. simpl.
  rewrite !(readField_extends h) by done. fold record0 group0.
  destruct (truthy record0 && truthy group0) eqn:Hreq; [| done].
  assert (key_group : "group" ∈ injected).
  { unfold injected. apply elem_of_cons; right. apply elem_of_cons. by left. }
  set (h1 := writeField h c "group" group0).
  assert (readField h1 c "group" = group0) as Hrd
    by (apply readField_writeField_eq; lia).
  assert (rootedBlock h1 a c /\ copyOf ms h1 c) as H1
    by (apply build_write; done).
  rewrite Hrd. unfold groupLabel. fold N.
  destruct (truthy group0 && (1 <? N)) eqn:Hsfx.
  - split; [by apply build_write |].
    split; [unfold h1; by rewrite !writeField_length |].
    split; [intros l Hl; unfold h1; by rewrite !writeField_lookup_ne |].
    intros _. rewrite readField_writeField_eq by (unfold h1; rewrite writeField_length; lia).
    done.
  - split; [done |]. split; [apply writeField_length |].
    split; [intros l Hl; by apply writeField_lookup_ne |]. done.
Qed.

(** One turn of the loop allocates the configuration of attempt [k] above
    everything allocated so far. *)
Lemma buildRunOptions_spec k h :
  extends h0 h ->
  exists c h',
    buildRunOptions args options k h = Some (c, h') /\
    (length h <= c)%nat /\ length h' = S c /\
    (forall l, (l < length h)%nat -> h' !! l = h !! l) /\
    configured ms N record0 group0 h' k (length h) c.
Proof.
  intros Hext.
  destruct (clone_spec h options (JObj ms) (view_extends h Hext))
    as (c & hc & Hclone & Hlen & Hc & Hag & Hroot & Hstr).
  unfold buildRunOptions. rewrite Hclone.
  assert (rootedBlock hc (length h) c /\ copyOf ms hc c) as Hcfg.
  { split; [done |]. exists ms. by split. }
  pose proof Hext as [Hl0 _].
  destruct (injectEnv_spec hc (length h) c k Hcfg) as (Hcfg1 & Hlen1 & Hag1).
  set (h1 := injectEnv args c k hc) in *.
  assert (extends h0 h1) as Hext1.
  { apply (extends_trans_below h0 h); [done | lia |].
    intros l Hl. rewrite Hag1 by lia. by apply Hag. }
  destruct (injectGroup_spec h1 (length h) c k Hext1 ltac:(lia) Hcfg1)
    as (Hcfg2 & Hlen2 & Hag2 & Hgrp).
  set (h2 := injectGroup args options c k h1) in *.
  destruct (injectForce_spec h2 (length h) c Hcfg2) as (Hcfg3 & Hlen3 & Hag3 & Hgrp3).
  set (h3 := injectForce args c h2) in *.
  exists c, h3. split; [done |]. split; [done |]. split; [lia |]. split.
  - intros l Hl. rewrite Hag3, Hag2, Hag1 by lia. by apply Hag.
  - destruct Hcfg3 as [Hr3 Hc3]. split; [done |]. split; [done |].
    intros Hreq. rewrite Hgrp3. by apply Hgrp.
Qed.

Lemma configured_agree h h' k a c :
  configured ms N record0 group0 h k a c ->
  (forall l, (a <= l < S c)%nat -> h' !! l = h !! l) ->
  configured ms N record0 group0 h' k a c.
Proof.
  intros (Hr & Hc & Hg) Hag. split; [by eapply rootedBlock_agree |].
  split; [by eapply copyOf_agree |].
  intros Hreq. rewrite <- (Hg Hreq). unfold readField.
  destruct Hr as (Hac & _). by rewrite Hag by lia.
Qed.

(** The accumulator of the loop only grows at its end. *)
Lemma buildLoop_acc count k h acc :
  buildLoop args options count k h acc =
  match buildLoop args options count k h [] with
  | Some (cs, h') => Some (acc ++ cs, h')
  | None => None
  end.
Proof.
  revert k h acc. induction count as [| n IH]; intros k h acc; simpl.
  - by rewrite app_nil_r.
  - destruct (buildRunOptions args options k h) as [[c h'] |]; [| done].
    rewrite (IH (S k) h' (acc ++ [c])), (IH (S k) h' [c]).
    destruct (buildLoop args options n (S k) h' []) as [[cs h''] |]; [| done].
    by rewrite <- app_assoc.
Qed.

(** The loop runs to its end: [count] configurations, laid out one after the
    other above the heap it started from. *)
Lemma buildLoop_spec count k h :
  extends h0 h ->
  exists cs h1,
    buildLoop args options count k h [] = Some (cs, h1) /\
    length cs = count /\
    extends h0 h1 /\ (length h <= length h1)%nat /\
    (forall l, (l < length h)%nat -> h1 !! l = h !! l) /\
    (forall c, c ∈ cs -> (length h <= c < length h1)%nat) /\
    layout (configured ms N record0 group0 h1) k (length h) cs.
Proof.
  revert k h. induction count as [| n IH]; intros k h Hext; simpl.
  - exists [], h. split; [done |]. split; [done |]. split; [done |].
    split; [lia |]. split; [done |]. split; [| done].
    intros c Hc. by apply elem_of_nil in Hc.
  - destruct (buildRunOptions_spec k h Hext) as (c & h' & -> & Hc & Hlen & Hag & Hcfg).
    assert (extends h0 h') as Hext'.
    { apply (extends_trans_below h0 h); [done | lia | done]. }
    destruct (IH (S k) h' Hext') as (cs & h1 & Hloop & Hn & Hext1 & Hl1 & Hag1 & Hin1 & Hlay).
    rewrite buildLoop_acc, Hloop. simpl.
    exists (c :: cs), h1. split; [done |]. split; [simpl; lia |].
    split; [done |]. split; [lia |]. split; [| split].
    + intros l Hl. rewrite Hag1 by lia. by apply Hag.
    + intros c' Hc'. apply elem_of_cons in Hc' as [-> | Hc']; [lia |].
      specialize (Hin1 c' Hc'). lia.
    + simpl. split; [done |]. split.
      * eapply configured_agree; [exact Hcfg |]. intros l Hl. apply Hag1. lia.
      * by rewrite <- Hlen.
Qed.

End BuildFacts.

(** ** Layout of the configurations *)

Section LayoutFacts.

Variable P : nat -> nat -> nat -> Prop.

Lemma layout_lookup k a cs i c :
  layout P k a cs -> cs !! i = Some c ->
  exists a', (a <= a')%nat /\ (a' <= c)%nat /\ P (k + i)%nat a' c.
Proof.
  revert k a i. induction cs as [| c0 r IH]; intros k a i; [done |].
  simpl. intros (Hac & Hp & Hr). destruct i as [| i]; simpl.
  - intros [= ->]. exists a. rewrite Nat.add_0_r. by repeat split.
  - intros Hi. destruct (IH _ _ _ Hr Hi) as (a' & Ha & Hc & Hp').
    exists a'. rewrite Nat.add_succ_r. repeat split; [lia | done | done].
Qed.

Lemma layout_sep k a cs i j ci cj :
  layout P k a cs -> cs !! i = Some ci -> cs !! j = Some cj -> (i < j)%nat ->
  exists a', (ci < a')%nat /\ (a' <= cj)%nat /\ P (k + j)%nat a' cj.
Proof.
  revert k a i j. induction cs as [| c0 r IH]; intros k a i j; [done |].
  simpl. intros (Hac & Hp & Hr) Hi Hj Hlt.
  destruct j as [| j]; [lia |]. simpl in Hj. rewrite Nat.add_succ_r.
  destruct i as [| i]; simpl in Hi.
  - injection Hi as ->.
    destruct (layout_lookup _ _ _ _ _ Hr Hj) as (a' & Ha & Hc & Hp').
    exists a'. repeat split; [lia | done | done].
  - apply (IH (S k) (S c0) i j); [done | done | done | lia].
Qed.

End LayoutFacts.

(** ** C6 and C9: the per-attempt configurations *)

(** C6.  For a repeat count N >= 1 the build yields exactly N
    configurations.  Each is a deep copy of the parsed options (the
    properties the build injects apart), and they are independent: an
    object reached from one configuration is reached neither from the
    parsed options nor from another configuration, so that changing it
    leaves what every other configuration serialises to, and what the
    parsed options serialise to, as it was.  The parsed options are an
    object of a heap without dangling references that [JSON.stringify]
    accepts, with a primitive group label. *)
Theorem build_independent_copies (args : Args) (h0 : heap) (options : nat)
    (fuel : nat) (ms : list (string * json)) :
  closedBlock h0 0 (length h0) ->
  stringify fuel h0 (VRef options) = Some (Some (JObj ms)) ->
  isPrim (readField h0 options "group") ->
  1 <= repeatNtimes args ->
  exists allRunOptions h1,
    buildAllRunOptions args options h0 = Some (allRunOptions, h1) /\
    Z.of_nat (length allRunOptions) = repeatNtimes args /\
    view h1 (VRef options) = view h0 (VRef options) /\
    (forall i c, allRunOptions !! i = Some c ->
       exists ms', view h1 (VRef c) = Some (Some (JObj ms')) /\
         forall key, key ∉ injected -> jget key ms' = jget key ms) /\
    (forall i c l, allRunOptions !! i = Some c -> reach h1 (VRef c) l ->
       ~ reach h1 (VRef options) l /\
       (forall i' c', i' <> i -> allRunOptions !! i' = Some c' ->
          ~ reach h1 (VRef c') l) /\
       forall o,
         view (<[l := o]> h1) (VRef options) = view h1 (VRef options) /\
         forall i' c', i' <> i -> allRunOptions !! i' = Some c' ->
           view (<[l := o]> h1) (VRef c') = view h1 (VRef c')).
Proof.
  intros Hwf Hfuel Hgroup HN.
  pose proof (stringify_enough_fuel _ _ _ _ Hfuel) as Hview. fold (view h0 (VRef options)) in Hview.
  destruct (buildLoop_spec args h0 options ms Hwf Hview Hgroup
              (Z.to_nat (repeatNtimes args)) 0 h0 (extends_refl h0))
    as (cs & h1 & Hloop & Hlen & Hext & Hl & Hag & Hin & Hlay).
  exists cs, h1. split; [exact Hloop |]. split; [lia |].
  pose proof (options_lt args _ _ _ Hwf Hview) as Hopt.
  split; [by rewrite (view_extends args _ _ _ Hwf Hview h1 Hext) |].
  assert (closedBlock h1 0 (length h0)) as Hwf1.
  { eapply closedBlock_agree; [exact Hwf |]. intros l Hlt. apply Hext. lia. }
  split.
  - intros i c Hi.
    destruct (layout_lookup _ _ _ _ _ _ Hlay Hi)
      as (a & Ha & Hac & Hr & (ms' & Hs & Hget) & _).
    exists ms'. split; [| done]. unfold view.
    eapply stringify_fuel_mono; [exact Hs |].
    assert (c ∈ cs) as Hc by (eapply list_elem_of_lookup_2; exact Hi).
    specialize (Hin c Hc). lia.
  - intros i c l Hi Hreach.
    (* [l] lies above the heap of the parsed options *)
    assert (length h0 <= l)%nat as Hbase.
    { destruct (layout_lookup _ _ _ _ _ _ Hlay Hi) as (a & Ha & Hac & Hr & _).
      pose proof (reach_closedBlock _ _ _ _ _ (rootedBlock_closed _ _ _ Hr) Hreach
                    ltac:(simpl; lia)). lia. }
    (* and outside the block of every other configuration *)
    assert (forall i' c', i' <> i -> cs !! i' = Some c' ->
              exists a', rootedBlock h1 a' c' /\ ((l < a')%nat \/ (c' < l)%nat))
      as Hsep.
    { intros i' c' Hne Hi'.
      destruct (decide (i < i')%nat) as [Hlt | Hge].
      - destruct (layout_lookup _ _ _ _ _ _ Hlay Hi) as (a & Ha & Hac & Hr & _).
        pose proof (reach_closedBlock _ _ _ _ _ (rootedBlock_closed _ _ _ Hr) Hreach
                      ltac:(simpl; lia)) as Hl_in.
        destruct (layout_sep _ _ _ _ _ _ _ _ Hlay Hi Hi' Hlt) as (b & Hb1 & Hb2 & Hrb & _).
        exists b. split; [done | lia].
      - assert (i' < i)%nat as Hlt by lia.
        destruct (layout_sep _ _ _ _ _ _ _ _ Hlay Hi' Hi Hlt) as (b & Hb1 & Hb2 & Hrb & _).
        pose proof (reach_closedBlock _ _ _ _ _ (rootedBlock_closed _ _ _ Hrb) Hreach
                      ltac:(simpl; lia)) as Hl_in.
        destruct (layout_lookup _ _ _ _ _ _ Hlay Hi') as (a' & Ha' & Hac' & Hr' & _).
        exists a'. split; [done | lia]. }
    split; [| split].
    + intros Hopt_reach.
      pose proof (reach_closedBlock _ _ _ _ _ Hwf1 Hopt_reach ltac:(simpl; lia)). lia.
    + intros i' c' Hne Hi' Hreach'.
      destruct (Hsep i' c' Hne Hi') as (a' & Hr' & Hout).
      pose proof Hr' as (Hac' & _).
      pose proof (reach_closedBlock _ _ _ _ _ (rootedBlock_closed _ _ _ Hr') Hreach'
                    ltac:(simpl; lia)). lia.
    + intros o. unfold view. rewrite !length_insert. split.
      * apply (stringify_agree _ h1 _ 0 (length h0)); [done | | simpl; lia].
        intros l' Hl'. apply list_lookup_insert_ne. lia.
      * intros i' c' Hne Hi'.
        destruct (Hsep i' c' Hne Hi') as (a' & Hr' & Hout).
        pose proof Hr' as (Hac' & _).
        apply (stringify_agree _ h1 _ a' (S c'));
          [by apply rootedBlock_closed | | simpl; lia].
        intros l' Hl'. apply list_lookup_insert_ne. lia.
Qed.

Lemma sampleHeap_closed : closedBlock sampleHeap 0 (length sampleHeap).
Proof.
  intros l o key v Hl Hlk Hin. simpl in Hl.
  destruct l as [| [| l]]; [| | lia]; simpl in Hlk; injection Hlk as <-;
    repeat (apply elem_of_cons in Hin as [[= -> ->] | Hin]; [simpl; lia || done |]);
    by apply elem_of_nil in Hin.
Qed.

Lemma build_independent_copies_witness :
  exists allRunOptions h1,
    buildAllRunOptions sampleArgs sampleOptions sampleHeap = Some (allRunOptions, h1) /\
    Z.of_nat (length allRunOptions) = repeatNtimes sampleArgs /\
    view h1 (VRef sampleOptions) = view sampleHeap (VRef sampleOptions) /\
    (forall i c, allRunOptions !! i = Some c ->
       exists ms', view h1 (VRef c) = Some (Some (JObj ms')) /\
         forall key, key ∉ injected -> jget key ms' = jget key sampleMembers) /\
    (forall i c l, allRunOptions !! i = Some c -> reach h1 (VRef c) l ->
       ~ reach h1 (VRef sampleOptions) l /\
       (forall i' c', i' <> i -> allRunOptions !! i' = Some c' ->
          ~ reach h1 (VRef c') l) /\
       forall o,
         view (<[l := o]> h1) (VRef sampleOptions) = view h1 (VRef sampleOptions) /\
         forall i' c', i' <> i -> allRunOptions !! i' = Some c' ->
           view (<[l := o]> h1) (VRef c') = view h1 (VRef c')).
Proof.
  apply (build_independent_copies sampleArgs sampleHeap sampleOptions 2 sampleMembers).
  - exact sampleHeap_closed.
  - reflexivity.
  - exact I.
  - vm_compute. discriminate.
Defined.

(** C9.  When the parsed options ask for grouping (a truthy [record] and a
    non-empty group label [g]), the configuration of every attempt of index
    [k] (numbered [k + 1]) has the group label [g] followed by
    [-(k+1)-of-N] if N > 1, and the label [g] itself if N = 1. *)
Theorem group_label_suffix (args : Args) (h0 : heap) (options : nat)
    (fuel : nat) (ms : list (string * json)) (g : string) :
  closedBlock h0 0 (length h0) ->
  stringify fuel h0 (VRef options) = Some (Some (JObj ms)) ->
  truthy (readField h0 options "record") = true ->
  readField h0 options "group" = VStr g ->
  g <> "" ->
  exists allRunOptions h1,
    buildAllRunOptions args options h0 = Some (allRunOptions, h1) /\
    length allRunOptions = Z.to_nat (repeatNtimes args) /\
    forall k c, allRunOptions !! k = Some c ->
      (1 < repeatNtimes args ->
       readField h1 c "group" =
         VStr (g +:+ "-" +:+ showZ (Z.of_nat k + 1) +:+ "-of-" +:+
               showZ (repeatNtimes args))) /\
      (repeatNtimes args = 1 -> readField h1 c "group" = VStr g).
Proof.
  intros Hwf Hfuel Hrec Hg Hne.
  pose proof (stringify_enough_fuel _ _ _ _ Hfuel) as Hview. fold (view h0 (VRef options)) in Hview.
  assert (isPrim (readField h0 options "group")) as Hprim by (by rewrite Hg).
  destruct (buildLoop_spec args h0 options ms Hwf Hview Hprim
              (Z.to_nat (repeatNtimes args)) 0 h0 (extends_refl h0))
    as (cs & h1 & Hloop & Hlen & _ & _ & _ & _ & Hlay).
  exists cs, h1. split; [exact Hloop |]. split; [exact Hlen |].
  intros k c Hk.
  destruct (layout_lookup _ _ _ _ _ _ Hlay Hk) as (a & _ & _ & _ & _ & Hlabel).
  assert (truthy (VStr g) = true) as Htg.
  { simpl. destruct (String.eqb g "") eqn:E; [| done].
    apply String.eqb_eq in E. congruence. }
  rewrite Hrec, Hg, Htg in Hlabel. specialize (Hlabel eq_refl).
  rewrite Hlabel. unfold groupLabel. rewrite Htg. simpl.
  split; intros HN.
  - by rewrite (proj2 (Z.ltb_lt _ _) HN).
  - by rewrite HN.
Qed.

Lemma group_label_suffix_witness :
  exists allRunOptions h1,
    buildAllRunOptions sampleArgs sampleOptions sampleHeap = Some (allRunOptions, h1) /\
    length allRunOptions = Z.to_nat (repeatNtimes sampleArgs) /\
    forall k c, allRunOptions !! k = Some c ->
      (1 < repeatNtimes sampleArgs ->
       readField h1 c "group" =
         VStr ("smoke" +:+ "-" +:+ showZ (Z.of_nat k + 1) +:+ "-of-" +:+
               showZ (repeatNtimes sampleArgs))) /\
      (repeatNtimes sampleArgs = 1 -> readField h1 c "group" = VStr "smoke").
Proof.
  apply (group_label_suffix sampleArgs sampleHeap sampleOptions 2 sampleMembers "smoke").
  - exact sampleHeap_closed.
  - reflexivity.
  - reflexivity.
  - reflexivity.
  - discriminate.
Defined.

(** ** Statements: what every block of [onTestResults] keeps *)

Section StmtFacts.

Lemma later_refl st : later st st.
Proof.
  repeat split. exists []. split; [by rewrite app_nil_r | constructor].
Qed.

Lemma later_trans st1 st2 st3 : later st1 st2 -> later st2 st3 -> later st1 st3.
Proof.
  intros (A1 & B1 & C1 & D1 & l1 & L1 & Q1) (A2 & B2 & C2 & D2 & l2 & L2 & Q2).
  repeat split; try congruence.
  exists (l1 ++ l2). split.
  - by rewrite L2, L1, app_assoc.
  - by apply Forall_app.
Qed.

Lemma later_emit e st : quiet e -> later st (emit e st).
Proof.
  intros Hq. repeat split. exists [e]. split; [done |]. by constructor.
Qed.

Lemma stable_skip : stable skip.
Proof. intros st. apply later_refl. Qed.

Lemma stable_ret s : stable (ret s).
Proof. intros st. apply later_refl. Qed.

Lemma stable_emit e : quiet e -> stable (exec (emit e)).
Proof. intros Hq st. by apply later_emit. Qed.

Lemma stable_setAnyTestFailed b : stable (exec (setAnyTestFailed b)).
Proof.
  intros st. repeat split. exists []. split; [by rewrite app_nil_r | constructor].
Qed.

Lemma stable_setHeap (f : State -> heap) :
  stable (fun st => exec (setHeap (f st)) st).
Proof.
  intros st. repeat split. exists []. split; [by rewrite app_nil_r | constructor].
Qed.

Lemma stable_seq a b : stable a -> stable b -> stable (a >>> b).
Proof.
  intros Ha Hb st. unfold seq. specialize (Ha st).
  destruct (a st) as [st' [s |]]; [done |].
  eapply later_trans; [exact Ha | apply Hb].
Qed.

Lemma stable_when c a : stable a -> stable (when c a).
Proof. intros Ha. destruct c; [done | apply stable_skip]. Qed.

Lemma fst_body a st : fst (body a st) = fst (a st).
Proof. unfold body. by destruct (a st) as [st' [s |]]. Qed.

End StmtFacts.

Create HintDb stmt.
#[local] Hint Resolve stable_skip stable_ret stable_setAnyTestFailed
  stable_setHeap stable_seq stable_when : stmt.
#[local] Hint Extern 1 (stable (exec (emit _))) =>
  apply stable_emit; repeat split : stmt.

Section StepFacts.

Variable args : Args.

Lemma stable_rerunStep all k n r : stable (rerunStep args all k n r).
Proof.
  unfold rerunStep. apply stable_when.
  destruct (Res.runs r) as [runs |]; [| auto with stmt].
  destruct (negb _); [| auto with stmt].
  destruct (all !! S k); auto with stmt.
Qed.

Lemma stable_failedStatusStep r : stable (failedStatusStep args r).
Proof. unfold failedStatusStep. auto 10 with stmt. Qed.

Lemma stable_verdictStep k n r : stable (verdictStep args k n r).
Proof. unfold verdictStep. destruct (untilPasses args); auto 10 with stmt. Qed.

(** [onTestResults] adds the counts of the result, once and first; the rest
    of the function keeps the counters and logs quiet events. *)
Lemma onTestResults_later all k n r st :
  later (updateTotals r st) (fst (onTestResults args all k n r st)).
Proof.
  unfold onTestResults. rewrite fst_body.
  change ((exec (updateTotals r) >>> rerunStep args all k n r >>>
           failedStatusStep args r >>> verdictStep args k n r) st)
    with ((rerunStep args all k n r >>> failedStatusStep args r >>>
           verdictStep args k n r) (updateTotals r st)).
  apply stable_seq; [apply stable_rerunStep |].
  apply stable_seq; [apply stable_failedStatusStep | apply stable_verdictStep].
Qed.

End StepFacts.

(** ** Accumulation *)

Section Accumulation.

Lemma sumOf_snoc field rs r :
  sumOf field (rs ++ [r]) = sumOf field rs + countOf (field r).
Proof.
  unfold sumOf. induction rs as [| r0 rs IH]; simpl; [lia |].
  rewrite IH. lia.
Qed.

Lemma add_orZero a x : add (Num a) (orZero x) = Num (a + countOf x).
Proof. unfold countOf. by destruct x as [[| z] |]. Qed.

Lemma countOf_missing : countOf None = 0.
Proof. reflexivity. Qed.

Lemma accounted_initial h : accounted (initial h).
Proof. by repeat split. Qed.

Lemma omap_quiet (l : list Event) :
  Forall quiet l ->
  completed l = [] /\ summaries l = [] /\ written l = [] /\ attempts l = [].
Proof.
  induction 1 as [| e l (He1 & He2 & He3) _ (IH1 & IH2 & IH3 & IH4)]; [done |].
  unfold completed, summaries, written, attempts in *.
  change (e :: l) with ([e] ++ l).
  rewrite !omap_app, IH1, IH2, IH3, IH4, !app_nil_r.
  by destruct e.
Qed.

Lemma accounted_later st st' : accounted st -> later st st' -> accounted st'.
Proof.
  intros (A & B & C & D & S & W) (A' & B' & C' & D' & l & L & Q).
  destruct (omap_quiet l Q) as (Hc & Hs & Hw & _).
  unfold accounted, completed, summaries, written in *.
  rewrite L, !omap_app, Hc, Hs, Hw, !app_nil_r.
  repeat split; congruence.
Qed.

Lemma accounted_resolved st k c r :
  accounted st ->
  accounted (updateTotals r (emit (CypressRun k c (RunResolved r)) st)).
Proof.
  intros (A & B & C & D & S & W).
  unfold accounted, completed, summaries, written in *. simpl.
  rewrite !omap_app. simpl. fold (completed (log st)).
  rewrite !sumOf_snoc, A, B, C, D, S, W, !add_orZero.
  by repeat split.
Qed.

Lemma accounted_rejected st k c e :
  accounted st -> accounted (emit (CypressRun k c (RunRejected e)) st).
Proof.
  intros (A & B & C & D & S & W).
  unfold accounted, completed, summaries, written in *. simpl.
  rewrite !omap_app. simpl. rewrite S, W, !app_nil_r. by repeat split.
Qed.

Variable args : Args.
Variable cypressRun : nat -> heap -> nat -> RunOutcome.
Variable writeFileOk : bool.

(** The loop keeps the account, however it ends. *)
Lemma mapSeriesFrom_accounted all n k items st :
  accounted st -> accounted (fst (mapSeriesFrom args cypressRun all n k items st)).
Proof.
  revert k st. induction items as [| c rest IH]; intros k st Hacc; simpl; [done |].
  set (st1 := emit (LogAttempt (Z.of_nat k + 1) (Z.of_nat n)) st).
  assert (accounted st1) as Hacc1.
  { eapply accounted_later; [exact Hacc |]. by apply later_emit. }
  change (theHeap st1) with (theHeap st).
  destruct (cypressRun k (theHeap st) c) as [r | e]; simpl.
  - pose proof (onTestResults_later args all k n r
                  (emit (CypressRun k c (RunResolved r)) st1)) as Hl.
    pose proof (accounted_later _ _ (accounted_resolved st1 k c r Hacc1) Hl) as Hacc2.
    destruct (onTestResults args all k n r _) as [st2 [| e]]; simpl in *.
    + by apply IH.
    + done.
  - by apply accounted_rejected.
Qed.

Lemma chain_accounted parsed : accounted (fst (chain args cypressRun parsed)).
Proof.
  unfold chain. destruct parsed as [h options | e]; [| apply accounted_initial].
  destruct (buildAllRunOptions args options h) as [[all h'] |];
    [| apply accounted_initial].
  apply mapSeriesFrom_accounted, accounted_initial.
Qed.

(** The summary block prints and writes one summary, that of the counters. *)
Lemma finallyHandler_log st :
  exists e1 tail,
    log (finallyHandler args writeFileOk st) =
      log st ++ [LogEnterSummary; LogSummary (resultSummary st); LogWriting;
                 WriteFile (resultSummary st); e1] ++ tail /\
    quiet e1 /\ Forall quiet tail /\
    tail = (if anyTestFailed st
            then [ErrSomeTestsFailed; LogExitTestFailures]
            else [LogFinished (repeatNtimes args)]).
Proof.
  unfold finallyHandler.
  exists (if writeFileOk then LogWritten else ErrWriting).
  eexists. split; [| split; [| split; [| reflexivity]]].
  - destruct writeFileOk; simpl; destruct (anyTestFailed st); simpl;
      by rewrite <- ?app_assoc.
  - by destruct writeFileOk.
  - destruct (anyTestFailed st); repeat constructor.
Qed.

Lemma finallyHandler_totals st :
  let st' := finallyHandler args writeFileOk st in
  totalTests st' = totalTests st /\ totalPassed st' = totalPassed st /\
  totalFailed st' = totalFailed st /\ totalSkipped st' = totalSkipped st /\
  anyTestFailed st' = anyTestFailed st /\ theHeap st' = theHeap st.
Proof.
  unfold finallyHandler. simpl.
  destruct writeFileOk; simpl; destruct (anyTestFailed st) eqn:E; by simpl.
Qed.

Lemma catchHandler_later e st : later st (catchHandler args e st).
Proof.
  unfold catchHandler. destruct (negb (forceContinue args)).
  - eapply later_trans; apply later_emit; by repeat split.
  - apply later_emit. by repeat split.
Qed.

(** The whole script: one summary, printed and written, of the sums over
    the attempts that completed. *)
Lemma main_summary parsed :
  let st := main args cypressRun writeFileOk parsed in
  let rs := completed (log st) in
  let s := summaryText (Num (sumOf Res.totalTests rs)) (Num (sumOf Res.totalPassed rs))
                       (Num (sumOf Res.totalFailed rs)) (Num (sumOf Res.totalSkipped rs)) in
  summaries (log st) = [s] /\ written (log st) = [s].
Proof.
  unfold main. pose proof (chain_accounted parsed) as Hacc.
  destruct (chain args cypressRun parsed) as [st settled]. simpl in Hacc.
  destruct Hacc as (A & B & C & D & S & W).
  destruct (finallyHandler_log st) as (e1 & tail & Hlog & (Q1 & Q2 & Q3) & Qt & _).
  destruct (omap_quiet tail Qt) as (Tc & Ts & Tw & _).
  assert (completed (log (finallyHandler args writeFileOk st)) = completed (log st)
          /\ summaries (log (finallyHandler args writeFileOk st)) = [resultSummary st]
          /\ written (log (finallyHandler args writeFileOk st)) = [resultSummary st])
    as (Fc & Fs & Fw).
  { unfold completed, summaries, written in *. rewrite Hlog, !omap_app.
    rewrite S, W, Tc, Ts, Tw. simpl. rewrite Q2, Q3.
    assert (resultOf e1 = None) as -> by (destruct e1; try done; by simpl in Q1).
    by rewrite !app_nil_r. }
  assert (resultSummary st =
          summaryText (Num (sumOf Res.totalTests (completed (log st))))
            (Num (sumOf Res.totalPassed (completed (log st))))
            (Num (sumOf Res.totalFailed (completed (log st))))
            (Num (sumOf Res.totalSkipped (completed (log st))))) as Hsum
    by (unfold resultSummary; by rewrite A, B, C, D).
  destruct settled as [| e]; simpl.
  - by rewrite Fc, Fs, Fw, Hsum.
  - destruct (catchHandler_later e (finallyHandler args writeFileOk st))
      as (_ & _ & _ & _ & l & L & Q).
    destruct (omap_quiet l Q) as (Lc & Ls & Lw & _).
    unfold completed, summaries, written in *.
    rewrite L, !omap_app, Lc, Ls, Lw, !app_nil_r, Fc, Fs, Fw, Hsum. done.
Qed.

End Accumulation.

(** ** Splitting and joining *)

Section Strings.

Lemma hasChar_app sep a b : hasChar sep (a +:+ b) = hasChar sep a || hasChar sep b.
Proof.
  induction a as [| c a IH]; simpl; [done |]. rewrite IH. by destruct (Ascii.eqb c sep).
Qed.

Lemma splitOn_free sep w : hasChar sep w = false -> splitOn sep w = [w].
Proof.
  induction w as [| c w IH]; simpl; [done |].
  destruct (Ascii.eqb c sep); simpl; [done |]. intros H. by rewrite (IH H).
Qed.

Lemma splitOn_app sep w r :
  hasChar sep w = false -> splitOn sep (w +:+ String sep r) = w :: splitOn sep r.
Proof.
  induction w as [| c w IH]; simpl.
  - intros _. by rewrite Ascii.eqb_refl.
  - destruct (Ascii.eqb c sep); simpl; [done |]. intros H. by rewrite (IH H).
Qed.

(** Splitting a joined list gives the list back, when no element holds the
    separator. *)
Lemma splitOn_concat sep ls :
  ls <> [] -> Forall (fun w => hasChar sep w = false) ls ->
  splitOn sep (String.concat (String sep EmptyString) ls) = ls.
Proof.
  induction ls as [| x [| y r] IH]; [done | |]; intros _ Hall.
  - simpl. apply splitOn_free. by inversion Hall.
  - inversion Hall as [| ? ? Hx Hr]; subst.
    change (String.concat (String sep EmptyString) (x :: y :: r))
      with (x +:+ String sep (String.concat (String sep EmptyString) (y :: r))).
    rewrite splitOn_app by done. by rewrite IH.
Qed.

Lemma string_of_uint_no_nl d :
  hasChar (ascii_of_nat 10) (NilEmpty.string_of_uint d) = false.
Proof. induction d; simpl; done. Qed.

Lemma showZ_no_nl z : hasChar (ascii_of_nat 10) (showZ z) = false.
Proof.
  unfold showZ. destruct z as [| p | p]; simpl; [done | |].
  - destruct (Pos.to_uint p) eqn:E; simpl; try apply string_of_uint_no_nl; done.
  - destruct (Pos.to_uint p) eqn:E; simpl; try apply string_of_uint_no_nl; done.
Qed.

End Strings.

(** ** The totals and the text of the summary *)

Lemma countOf_reported (x : option number) : countOf x = reported x.
Proof. by destruct x as [[| z] |]. Qed.

Lemma sumOf_totalOf (field : Res.t -> option number) (rs : list Res.t) :
  sumOf field rs = totalOf field rs.
Proof.
  induction rs as [| r rs IH]; [done |].
  unfold sumOf in *. simpl. by rewrite IH, countOf_reported.
Qed.

Lemma add_reported a x : add (Num a) (orZero x) = Num (a + reported x).
Proof. by destruct x as [[| z] |]. Qed.

Lemma summaryText_lines (tests passed failed skipped : Z) :
  summaryText (Num tests) (Num passed) (Num failed) (Num skipped) =
  String.concat (String (ascii_of_nat 10) EmptyString)
    [ "***** Repeat Run Summary *****";
      "Total Tests with repeat: " +:+ showZ tests;
      "Total Passed: " +:+ showZ passed;
      "Total Failed: " +:+ showZ failed;
      "Total Skipped: " +:+ showZ skipped;
      "*****************************" ].
Proof. reflexivity. Qed.

(** The whole script: the counters at the end are the totals over the
    attempts that completed, and the one summary printed and written shows
    them. *)
Lemma main_totals (args : Args)
    (cypressRun : nat -> heap -> nat -> RunOutcome) (writeFileOk : bool)
    (parsed : Parsed) :
  let st := main args cypressRun writeFileOk parsed in
  let rs := completed (log st) in
  let s := String.concat (String (ascii_of_nat 10) EmptyString)
             [ "***** Repeat Run Summary *****";
               "Total Tests with repeat: " +:+ showZ (totalOf Res.totalTests rs);
               "Total Passed: " +:+ showZ (totalOf Res.totalPassed rs);
               "Total Failed: " +:+ showZ (totalOf Res.totalFailed rs);
               "Total Skipped: " +:+ showZ (totalOf Res.totalSkipped rs);
               "*****************************" ] in
  summaries (log st) = [s] /\ written (log st) = [s].
Proof.
  cbv zeta. rewrite <- summaryText_lines, <- !sumOf_totalOf.
  apply main_summary.
Qed.

(** ** C5, C8 and C10: the summary and the counters *)

(** C5.  Whatever the command line, the parsed options, the outcomes of the
    Cypress runs (results or rejections) and the fate of the file write,
    the script prints exactly one summary and writes exactly one summary to
    the file, and that summary shows, line by line, the totals of the
    attempts that completed: for each of the four counts the sum, over the
    results that Cypress resolved with, of the count the result reports (0
    when the result has none). *)
Theorem summary_exactly_once (args : Args)
    (cypressRun : nat -> heap -> nat -> RunOutcome) (writeFileOk : bool)
    (parsed : Parsed) :
  let st := main args cypressRun writeFileOk parsed in
  let rs := completed (log st) in
  let s := String.concat (String (ascii_of_nat 10) EmptyString)
             [ "***** Repeat Run Summary *****";
               "Total Tests with repeat: " +:+ showZ (totalOf Res.totalTests rs);
               "Total Passed: " +:+ showZ (totalOf Res.totalPassed rs);
               "Total Failed: " +:+ showZ (totalOf Res.totalFailed rs);
               "Total Skipped: " +:+ showZ (totalOf Res.totalSkipped rs);
               "*****************************" ] in
  summaries (log st) = [s] /\ written (log st) = [s].
Proof. apply main_totals. Qed.

(** C8.  The summary of every run of the script has the same six lines: the
    header, the four counts in the order total, passed, failed, skipped,
    and the footer, whatever attempts ran and however the loop ended. *)
Theorem summary_shape (args : Args)
    (cypressRun : nat -> heap -> nat -> RunOutcome) (writeFileOk : bool)
    (parsed : Parsed) :
  exists (s : string) (tests passed failed skipped : Z),
    summaries (log (main args cypressRun writeFileOk parsed)) = [s] /\
    written (log (main args cypressRun writeFileOk parsed)) = [s] /\
    splitOn (ascii_of_nat 10) s =
      [ "***** Repeat Run Summary *****";
        "Total Tests with repeat: " +:+ showZ tests;
        "Total Passed: " +:+ showZ passed;
        "Total Failed: " +:+ showZ failed;
        "Total Skipped: " +:+ showZ skipped;
        "*****************************" ].
Proof.
  destruct (main_summary args cypressRun writeFileOk parsed) as [Hs Hw].
  eexists _, _, _, _, _. split; [exact Hs |]. split; [exact Hw |].
  unfold summaryText, nl. apply splitOn_concat; [done |].
  repeat constructor; rewrite ?hasChar_app, ?showZ_no_nl; done.
Qed.

(** C10.  [onTestResults] adds to each of the four counters the count of the
    result, a missing count (or [NaN]) being taken as 0: a counter that is
    a number stays a number, and a missing count leaves it as it was. *)
Theorem missing_counts_are_zero (args : Args) (allRunOptions : list nat)
    (k n : nat) (testResults : Res.t) (st : State) (a b c d : Z) :
  totalTests st = Num a -> totalPassed st = Num b ->
  totalFailed st = Num c -> totalSkipped st = Num d ->
  let st' := fst (onTestResults args allRunOptions k n testResults st) in
  (totalTests st' = Num (a + countOf (Res.totalTests testResults)) /\
   totalPassed st' = Num (b + countOf (Res.totalPassed testResults)) /\
   totalFailed st' = Num (c + countOf (Res.totalFailed testResults)) /\
   totalSkipped st' = Num (d + countOf (Res.totalSkipped testResults))) /\
  (Res.totalTests testResults = None -> totalTests st' = Num a) /\
  (Res.totalPassed testResults = None -> totalPassed st' = Num b) /\
  (Res.totalFailed testResults = None -> totalFailed st' = Num c) /\
  (Res.totalSkipped testResults = None -> totalSkipped st' = Num d).
Proof.
  intros A B C D st'.
  destruct (onTestResults_later args allRunOptions k n testResults st)
    as (A' & B' & C' & D' & _).
  fold st' in A', B', C', D'. simpl in A', B', C', D'.
  rewrite A, add_orZero in A'. rewrite B, add_orZero in B'.
  rewrite C, add_orZero in C'. rewrite D, add_orZero in D'.
  split; [done |].
  repeat split; intros H; rewrite H, countOf_missing, Z.add_0_r in *; done.
Qed.

Lemma missing_counts_are_zero_witness :
  let st' := fst (onTestResults sampleArgs [0%nat] 0 1 crashedResult (initial [[]])) in
  (totalTests st' = Num (0 + countOf (Res.totalTests crashedResult)) /\
   totalPassed st' = Num (0 + countOf (Res.totalPassed crashedResult)) /\
   totalFailed st' = Num (0 + countOf (Res.totalFailed crashedResult)) /\
   totalSkipped st' = Num (0 + countOf (Res.totalSkipped crashedResult))) /\
  (Res.totalTests crashedResult = None -> totalTests st' = Num 0) /\
  (Res.totalPassed crashedResult = None -> totalPassed st' = Num 0) /\
  (Res.totalFailed crashedResult = None -> totalFailed st' = Num 0) /\
  (Res.totalSkipped crashedResult = None -> totalSkipped st' = Num 0).
Proof.
  apply (missing_counts_are_zero sampleArgs [0%nat] 0 1 crashedResult (initial [[]]) 0 0 0 0);
    reflexivity.
Defined.

(** ** The blocks of [onTestResults], case by case *)

Section Blocks.

Variable args : Args.

Lemma onTestResults_unfold all k n r st :
  onTestResults args all k n r st =
  body (rerunStep args all k n r >>> failedStatusStep args r >>>
        verdictStep args k n r) (updateTotals r st).
Proof. reflexivity. Qed.

Lemma seq_next (a b : Stmt) st st' : a st = (st', None) -> (a >>> b) st = b st'.
Proof. intros H. unfold seq. by rewrite H. Qed.

Lemma seq_return (a b : Stmt) st st' s :
  a st = (st', Some s) -> (a >>> b) st = (st', Some s).
Proof. intros H. unfold seq. by rewrite H. Qed.

(** The two last blocks never touch the heap. *)
Lemma verdict_heap k n r st :
  theHeap (fst ((failedStatusStep args r >>> verdictStep args k n r) st)) = theHeap st.
Proof.
  unfold failedStatusStep, verdictStep, seq, when, exec, ret, skip.
  destruct (isFailedStatus _), (truthyNum (Res.failures r)), (forceContinue args),
    (untilPasses args), (truthyNum (Res.totalFailed r)), (rerunFailedOnly args),
    (isLastRun k n), (Z.of_nat k =? Z.of_nat n - 1); reflexivity.
Qed.

(** The rerun block with failed specs: they become the [spec] of the next
    configuration, and the function goes on. *)
Lemma rerunStep_patch all k n r runs next st :
  rerunFailedOnly args = true -> isLastRun k n = false ->
  Res.runs r = Some runs -> failedSpecsOf runs <> "" ->
  all !! S k = Some next ->
  rerunStep args all k n r st =
    (setHeap (writeField (theHeap st) next "spec" (VStr (failedSpecsOf runs)))
       (emit (LogFailedSpecs (failedSpecsOf runs)) st), None).
Proof.
  intros Hr Hl Hruns Hne Hnext. unfold rerunStep. rewrite Hr, Hl, Hruns, Hnext.
  simpl. destruct (failedSpecsOf runs) eqn:E; [done |]. reflexivity.
Qed.

(** The rerun block without failed specs and without [--force]: the
    function returns a fulfilled promise at once. *)
Lemma rerunStep_resolve all k n r runs st :
  rerunFailedOnly args = true -> isLastRun k n = false ->
  forceContinue args = false ->
  Res.runs r = Some runs -> failedSpecsOf runs = "" ->
  rerunStep args all k n r st = (emit LogNoFailedSpecs st, Some Fulfilled).
Proof.
  intros Hr Hl Hf Hruns He. unfold rerunStep. rewrite Hr, Hl, Hruns, He, Hf.
  reflexivity.
Qed.

Lemma failedStatusStep_skip r st :
  isFailedStatus (Res.status r) && truthyNum (Res.failures r) = false ->
  failedStatusStep args r st = (st, None).
Proof.
  unfold failedStatusStep, when, skip.
  by destruct (isFailedStatus _), (truthyNum _).
Qed.

End Blocks.

Section Joining.

Lemma append_nonempty_r (a b : string) : b <> "" -> a +:+ b <> "".
Proof. intros H. destruct a; simpl; [done | discriminate]. Qed.

Lemma append_nonempty_l (a b : string) : a <> "" -> a +:+ b <> "".
Proof. intros H. destruct a; simpl; [done | discriminate]. Qed.

Lemma concat_nonempty sep names w :
  w ∈ names -> w <> "" -> String.concat sep names <> "".
Proof.
  induction names as [| x [| y r] IH]; intros Hin Hw.
  - by apply elem_of_nil in Hin.
  - apply list_elem_of_singleton in Hin. by subst.
  - change (String.concat sep (x :: y :: r))
      with (x +:+ sep +:+ String.concat sep (y :: r)).
    apply elem_of_cons in Hin as [-> | Hin].
    + by apply append_nonempty_l.
    + apply append_nonempty_r, append_nonempty_r, IH; done.
Qed.

(** The failed names are the names of the files with failures, no other. *)
Lemma elem_of_failedNames runs w :
  w ∈ failedNames runs <->
  exists run, run ∈ runs /\ stats_failures run <> 0 /\ spec_relative run = w.
Proof.
  unfold failedNames. rewrite list_elem_of_fmap. split.
  - intros (run & -> & Hin). apply list_elem_of_filter in Hin as [Hf Hin].
    exists run. split; [done |]. split; [| done].
    unfold failed in Hf. destruct (stats_failures run =? 0) eqn:E; [done |].
    by apply Z.eqb_neq.
  - intros (run & Hin & Hf & <-). exists run. split; [done |].
    apply list_elem_of_filter. split; [| done].
    unfold failed. apply Z.eqb_neq in Hf. by rewrite Hf.
Qed.

End Joining.

(** ** C4: rerunning the failed specs only *)

(** C4.  With [--rerun-failed-only], after an attempt that is not the last
    and whose result has at least one spec file with failures, the [spec]
    of the next configuration is the comma-joined list of exactly the files
    with failures (file names are not empty); nothing else of that
    configuration and no other object changes.  Read back as a
    comma-separated list, the new [spec] is that list of files, when no
    name holds a comma. *)
Theorem rerun_restricts_next (args : Args) (allRunOptions : list nat)
    (k n : nat) (testResults : Res.t) (runs : list RunEntry) (next : nat)
    (st : State) :
  rerunFailedOnly args = true ->
  isLastRun k n = false ->
  Res.runs testResults = Some runs ->
  (exists run, run ∈ runs /\ stats_failures run <> 0) ->
  (forall run, run ∈ runs -> stats_failures run <> 0 -> spec_relative run <> "") ->
  allRunOptions !! S k = Some next ->
  (next < length (theHeap st))%nat ->
  let st' := fst (onTestResults args allRunOptions k n testResults st) in
  readField (theHeap st') next "spec" = VStr (String.concat "," (failedNames runs)) /\
  (forall w, w ∈ failedNames runs <->
     exists run, run ∈ runs /\ stats_failures run <> 0 /\ spec_relative run = w) /\
  (forall key, key <> "spec" ->
     readField (theHeap st') next key = readField (theHeap st) next key) /\
  (forall l, l <> next -> theHeap st' !! l = theHeap st !! l) /\
  (Forall (fun w => hasChar "," w = false) (failedNames runs) ->
   splitOn "," (String.concat "," (failedNames runs)) = failedNames runs).
Proof.
  intros Hr Hl Hruns (run & Hin & Hfail) Hnames Hnext Hlt st'.
  assert (spec_relative run ∈ failedNames runs) as Hmem.
  { apply elem_of_failedNames. by exists run. }
  assert (failedSpecsOf runs <> "") as Hne.
  { apply (concat_nonempty _ _ (spec_relative run)); [done |]. by apply Hnames. }
  assert (theHeap st' =
          writeField (theHeap st) next "spec" (VStr (failedSpecsOf runs))) as Hheap.
  { unfold st'. rewrite onTestResults_unfold, fst_body.
    rewrite (seq_next _ _ _ _ (rerunStep_patch args _ _ _ _ _ _ _ Hr Hl Hruns Hne Hnext)).
    by rewrite verdict_heap. }
  rewrite Hheap. split; [by apply readField_writeField_eq |].
  split; [apply elem_of_failedNames |].
  split; [intros key Hk; by apply readField_writeField_ne_key |].
  split; [intros l Hne'; by apply writeField_lookup_ne |].
  intros Hfree. apply (splitOn_concat ","); [| done].
  intros E. rewrite E in Hmem. by apply elem_of_nil in Hmem.
Qed.

Lemma rerun_restricts_next_witness :
  let st' := fst (onTestResults rerunArgs [1; 2; 3]%nat 0 3 failingResult
                    (initial threeConfigs)) in
  readField (theHeap st') 2 "spec" = VStr "cypress/e2e/b.cy.js,cypress/e2e/c.cy.js" /\
  splitOn "," "cypress/e2e/b.cy.js,cypress/e2e/c.cy.js" =
    ["cypress/e2e/b.cy.js"; "cypress/e2e/c.cy.js"].
Proof.
  assert (Forall (fun w => hasChar "," w = false)
            ["cypress/e2e/b.cy.js"; "cypress/e2e/c.cy.js"]) as Hfree
    by (repeat constructor).
  destruct (rerun_restricts_next rerunArgs [1; 2; 3]%nat 0 3 failingResult
              [mkRunEntry 0 "cypress/e2e/a.cy.js";
               mkRunEntry 1 "cypress/e2e/b.cy.js";
               mkRunEntry 1 "cypress/e2e/c.cy.js"] 2%nat (initial threeConfigs))
    as (Hspec & _ & _ & _ & Hsplit).
  - reflexivity.
  - reflexivity.
  - reflexivity.
  - exists (mkRunEntry 1 "cypress/e2e/b.cy.js"). split; [| discriminate].
    apply elem_of_cons; right. apply elem_of_cons; by left.
  - intros run Hin _.
    repeat (apply elem_of_cons in Hin as [-> | Hin]; [discriminate |]).
    by apply elem_of_nil in Hin.
  - reflexivity.
  - simpl. lia.
  - split; [exact Hspec | exact (Hsplit Hfree)].
Defined.

(** ** The loop *)

Section Loop.

Variable args : Args.
Variable cypressRun : nat -> heap -> nat -> RunOutcome.
Variable writeFileOk : bool.

(** One turn of the loop when Cypress resolves. *)
Lemma mapSeriesFrom_resolved all n k c rest st r :
  cypressRun k (theHeap st) c = RunResolved r ->
  mapSeriesFrom args cypressRun all n k (c :: rest) st =
  match onTestResults args all k n r
          (emit (CypressRun k c (RunResolved r))
             (emit (LogAttempt (Z.of_nat k + 1) (Z.of_nat n)) st)) with
  | (st', Fulfilled) => mapSeriesFrom args cypressRun all n (S k) rest st'
  | (st', Rejected e) => (st', Rejected e)
  end.
Proof.
  intros H. cbn [mapSeriesFrom].
  change (theHeap (emit (LogAttempt (Z.of_nat k + 1) (Z.of_nat n)) st))
    with (theHeap st).
  by rewrite H.
Qed.

Lemma onTestResults_log all k n r st :
  exists l, log (fst (onTestResults args all k n r st)) = log st ++ l /\ Forall quiet l.
Proof.
  destruct (onTestResults_later args all k n r st) as (_ & _ & _ & _ & l & L & Q).
  by exists l.
Qed.

(** The log only grows, and an attempt starts with its banner and its call
    of Cypress. *)
Lemma mapSeriesFrom_log_ext all n k items st :
  exists l, log (fst (mapSeriesFrom args cypressRun all n k items st)) = log st ++ l.
Proof.
  revert k st. induction items as [| c rest IH]; intros k st; simpl.
  - exists []. by rewrite app_nil_r.
  - destruct (cypressRun k (theHeap st) c) as [r | e]; simpl.
    + destruct (onTestResults_log all k n r
                  (emit (CypressRun k c (RunResolved r))
                     (emit (LogAttempt (Z.of_nat k + 1) (Z.of_nat n)) st)))
        as (l & L & _).
      destruct (onTestResults args all k n r _) as [st2 [| e]]; simpl in *.
      * destruct (IH (S k) st2) as (l' & L'). rewrite L', L.
        eexists. by rewrite <- !app_assoc.
      * rewrite L. eexists. by rewrite <- !app_assoc.
    + eexists. by rewrite <- !app_assoc.
Qed.

Lemma mapSeriesFrom_log_head all n k c rest st :
  exists tail,
    log (fst (mapSeriesFrom args cypressRun all n k (c :: rest) st)) =
    log st ++ [LogAttempt (Z.of_nat k + 1) (Z.of_nat n);
               CypressRun k c (cypressRun k (theHeap st) c)] ++ tail.
Proof.
  destruct (mapSeriesFrom_log_ext all n k (c :: rest) st) as (l & L).
  simpl in *.
  destruct (cypressRun k (theHeap st) c) as [r | e]; simpl in *.
  - destruct (onTestResults_log all k n r
                (emit (CypressRun k c (RunResolved r))
                   (emit (LogAttempt (Z.of_nat k + 1) (Z.of_nat n)) st)))
      as (l1 & L1 & _).
    destruct (onTestResults args all k n r _) as [st2 [| e]]; simpl in *.
    + destruct (mapSeriesFrom_log_ext all n (S k) rest st2) as (l2 & L2).
      rewrite L2, L1. exists (l1 ++ l2). by rewrite <- !app_assoc.
    + rewrite L1. exists l1. by rewrite <- !app_assoc.
  - exists []. by rewrite <- !app_assoc.
Qed.

Lemma no_failures_no_failedSpecs runs :
  Forall (fun run => stats_failures run = 0) runs -> failedSpecsOf runs = "".
Proof.
  intros H. unfold failedSpecsOf.
  assert (filter failed runs = []) as ->; [| done].
  induction H as [| run runs Hrun _ IH]; [done |].
  rewrite filter_cons. destruct (decide (failed run)) as [Hf | _]; [| exact IH].
  unfold failed in Hf. by rewrite Hrun in Hf.
Qed.

Lemma not_last_has_next (all : list nat) k :
  (k < length all)%nat -> isLastRun k (length all) = false ->
  exists next, all !! S k = Some next.
Proof.
  unfold isLastRun. intros Hk Hl. apply Z.eqb_neq in Hl.
  apply lookup_lt_is_Some_2. lia.
Qed.

(** The rerun block goes on to the next block unless it returns early. *)
Lemma rerunStep_falls all k r runs st :
  (k < length all)%nat -> Res.runs r = Some runs ->
  resolvesEarly args k (length all) runs = false ->
  exists st1, rerunStep args all k (length all) r st = (st1, None) /\
    later st st1 /\ anyTestFailed st1 = anyTestFailed st.
Proof.
  intros Hk Hruns Hre. unfold rerunStep, resolvesEarly in *.
  destruct (rerunFailedOnly args); simpl in *;
    [| exists st; split; [done |]; split; [apply later_refl | done]].
  destruct (isLastRun k (length all)) eqn:Hl; simpl in *;
    [exists st; split; [done |]; split; [apply later_refl | done] |].
  rewrite Hruns.
  destruct (String.length (failedSpecsOf runs) =? 0)%nat eqn:E; simpl.
  - rewrite andb_true_r in Hre. apply negb_false_iff in Hre. rewrite Hre. simpl.
    eexists. split; [reflexivity |]. split; [| reflexivity].
    apply later_emit. by repeat split.
  - destruct (not_last_has_next all k Hk Hl) as (next & ->).
    eexists. split; [reflexivity |]. split; [| reflexivity].
    apply (later_trans _ (emit (LogFailedSpecs (failedSpecsOf runs)) st));
      [apply later_emit; by repeat split |].
    apply (stable_setHeap (fun st => writeField (theHeap st) next "spec" _)).
Qed.

End Loop.

(** ** C3: rerun-failed-only without failed specs *)

(** C3, as the code has it.  With [--rerun-failed-only] and without
    [--force], an attempt that is not the last and whose result has no spec
    file with failures makes [onTestResults] return a fulfilled promise at
    once: the counts are added, nothing but the absence of failed specs is
    logged, no configuration and no flag is changed; and the loop goes on:
    the next attempt runs, on its configuration as it was. *)
Theorem no_failed_specs_continues (args : Args)
    (cypressRun : nat -> heap -> nat -> RunOutcome)
    (allRunOptions : list nat) (n k c c' : nat) (rest : list nat)
    (st : State) (testResults : Res.t) (runs : list RunEntry) :
  rerunFailedOnly args = true ->
  forceContinue args = false ->
  isLastRun k n = false ->
  cypressRun k (theHeap st) c = RunResolved testResults ->
  Res.runs testResults = Some runs ->
  Forall (fun run => stats_failures run = 0) runs ->
  (forall st0, onTestResults args allRunOptions k n testResults st0 =
                 (emit LogNoFailedSpecs (updateTotals testResults st0), Fulfilled)) /\
  exists tail,
    log (fst (mapSeriesFrom args cypressRun allRunOptions n k (c :: c' :: rest) st)) =
    log st ++ [LogAttempt (Z.of_nat k + 1) (Z.of_nat n);
               CypressRun k c (RunResolved testResults);
               LogNoFailedSpecs;
               LogAttempt (Z.of_nat (S k) + 1) (Z.of_nat n);
               CypressRun (S k) c' (cypressRun (S k) (theHeap st) c')] ++ tail.
Proof.
  intros Hr Hf Hl Hrun Hruns Hzero.
  assert (forall st0, onTestResults args allRunOptions k n testResults st0 =
            (emit LogNoFailedSpecs (updateTotals testResults st0), Fulfilled)) as Hstep.
  { intros st0. rewrite onTestResults_unfold. unfold body.
    by rewrite (seq_return _ _ _ _ _
                  (rerunStep_resolve args allRunOptions k n testResults runs _
                     Hr Hl Hf Hruns (no_failures_no_failedSpecs runs Hzero))). }
  split; [exact Hstep |].
  rewrite (mapSeriesFrom_resolved args cypressRun _ _ _ _ _ _ _ Hrun), Hstep.
  destruct (mapSeriesFrom_log_head args cypressRun allRunOptions n (S k) c' rest
              (emit LogNoFailedSpecs
                 (updateTotals testResults
                    (emit (CypressRun k c (RunResolved testResults))
                       (emit (LogAttempt (Z.of_nat k + 1) (Z.of_nat n)) st)))))
    as (tail & Htail).
  exists tail. rewrite Htail. simpl. by rewrite <- !app_assoc.
Qed.

Lemma no_failed_specs_continues_witness :
  exists tail,
    log (fst (mapSeriesFrom rerunArgs alwaysPassing [1; 2; 3]%nat 3 0
                (1 :: 2 :: [3])%nat (initial threeConfigs))) =
    log (initial threeConfigs) ++
      [LogAttempt (Z.of_nat 0 + 1) (Z.of_nat 3);
       CypressRun 0 1 (RunResolved passingResult);
       LogNoFailedSpecs;
       LogAttempt (Z.of_nat 1 + 1) (Z.of_nat 3);
       CypressRun 1 2 (alwaysPassing 1%nat (theHeap (initial threeConfigs)) 2%nat)] ++ tail.
Proof.
  apply (no_failed_specs_continues rerunArgs alwaysPassing [1; 2; 3]%nat 3 0 1 2 [3%nat]
           (initial threeConfigs) passingResult
           [mkRunEntry 0 "cypress/e2e/spec.cy.js"]);
    try reflexivity.
  by repeat constructor.
Defined.

(** The claim C3 fails as stated: with [--rerun-failed-only -n 3] and
    Cypress passing every time, the first attempt is not the last and has
    no failed spec, and the attempts of index 1 and 2 run all the same. *)
Lemma no_failed_specs_does_not_stop :
  let st := main rerunArgs alwaysPassing true (ParseResolved sampleHeap sampleOptions) in
  rerunFailedOnly rerunArgs = true /\ forceContinue rerunArgs = false /\
  isLastRun 0 3 = false /\
  completed (log st) = [passingResult; passingResult; passingResult] /\
  Forall (fun run => stats_failures run = 0) [mkRunEntry 0 "cypress/e2e/spec.cy.js"] /\
  attempts (log st) = [0; 1; 2]%nat /\
  ~ (forall k', k' ∈ attempts (log st) -> (k' <= 0)%nat).
Proof.
  assert (attempts (log (main rerunArgs alwaysPassing true
                           (ParseResolved sampleHeap sampleOptions))) = [0; 1; 2]%nat)
    as Hatt by (vm_compute; reflexivity).
  cbv zeta. rewrite Hatt.
  split; [reflexivity |]. split; [reflexivity |]. split; [reflexivity |].
  split; [vm_compute; reflexivity |]. split; [by repeat constructor |].
  split; [reflexivity |].
  intros H. specialize (H 1%nat). 
  assert (1 <= 0)%nat; [| lia].
  apply H. apply elem_of_cons; right. apply elem_of_cons; by left.
Qed.

(** ** C1: until-passes *)

(** C1, as the code has it.  With [--until-passes], an attempt whose result
    shows no failed test (and is not a failed-status result with failure
    details) ends the loop at once, unless the rerun block returns early
    ([--rerun-failed-only] without [--force], not the last attempt, no
    failed spec).  The loop is rejected with 'No failures detected,
    exiting with success.', whatever configurations are left no later
    attempt runs, the failure flag is as it was, and when it is unset the
    summary block ends on the report of a successful finish. *)
Theorem until_passes_stops (args : Args)
    (cypressRun : nat -> heap -> nat -> RunOutcome) (writeFileOk : bool)
    (allRunOptions : list nat) (k c : nat) (rest : list nat) (st : State)
    (testResults : Res.t) (runs : list RunEntry) :
  untilPasses args = true ->
  (k < length allRunOptions)%nat ->
  cypressRun k (theHeap st) c = RunResolved testResults ->
  truthyNum (Res.totalFailed testResults) = false ->
  isFailedStatus (Res.status testResults) && truthyNum (Res.failures testResults) = false ->
  Res.runs testResults = Some runs ->
  resolvesEarly args k (length allRunOptions) runs = false ->
  exists st',
    mapSeriesFrom args cypressRun allRunOptions (length allRunOptions) k (c :: rest) st =
      (st', Rejected (Err "No failures detected, exiting with success.")) /\
    attempts (log st') = attempts (log st) ++ [k] /\
    anyTestFailed st' = anyTestFailed st /\
    (anyTestFailed st = false ->
     last (log (finallyHandler args writeFileOk st')) =
       Some (LogFinished (repeatNtimes args))).
Proof.
  intros Hu Hk Hrun Hzero Hstatus Hruns Hearly.
  rewrite (mapSeriesFrom_resolved args cypressRun _ _ _ _ _ _ _ Hrun).
  set (st0 := emit (CypressRun k c (RunResolved testResults))
                (emit (LogAttempt (Z.of_nat k + 1) (Z.of_nat (length allRunOptions))) st)).
  rewrite onTestResults_unfold. unfold body.
  destruct (rerunStep_falls args allRunOptions k testResults runs
              (updateTotals testResults st0) Hk Hruns Hearly)
    as (st1 & Hstep & (_ & _ & _ & _ & l & L & Q) & Hflag).
  rewrite (seq_next _ _ _ _ Hstep).
  rewrite (seq_next _ _ _ _ (failedStatusStep_skip args testResults st1 Hstatus)).
  unfold verdictStep. rewrite Hu, Hzero. cbn.
  eexists. split; [reflexivity |].
  destruct (omap_quiet l Q) as (_ & _ & _ & Hl).
  split; [| split].
  - unfold attempts in *. simpl. rewrite L. simpl.
    rewrite !omap_app, Hl. simpl. by rewrite !app_nil_r.
  - simpl. by rewrite Hflag.
  - intros Hunset.
    destruct (finallyHandler_log args writeFileOk
                (emit (LogPassed (Z.of_nat k + 1) (Z.of_nat (length allRunOptions))) st1))
      as (e1 & tail & -> & _ & _ & ->).
    simpl. rewrite Hflag. simpl. rewrite Hunset.
    match goal with
    | |- last (?x ++ [?a; ?b; ?c; ?d; ?e; ?f]) = _ =>
        change (x ++ [a; b; c; d; e; f]) with (x ++ [a; b; c; d; e] ++ [f])
    end.
    rewrite app_assoc. apply last_snoc.
Qed.

Lemma until_passes_stops_witness :
  exists st',
    mapSeriesFrom untilForceArgs alwaysPassing [1; 2; 3]%nat (length [1; 2; 3]%nat) 0
      (1 :: [2; 3])%nat (initial threeConfigs) =
      (st', Rejected (Err "No failures detected, exiting with success.")) /\
    attempts (log st') = attempts (log (initial threeConfigs)) ++ [0%nat] /\
    anyTestFailed st' = anyTestFailed (initial threeConfigs) /\
    (anyTestFailed (initial threeConfigs) = false ->
     last (log (finallyHandler untilForceArgs true st')) =
       Some (LogFinished (repeatNtimes untilForceArgs))).
Proof.
  apply (until_passes_stops untilForceArgs alwaysPassing true [1; 2; 3]%nat 0 1
           [2; 3]%nat (initial threeConfigs) passingResult
           [mkRunEntry 0 "cypress/e2e/spec.cy.js"]);
    try reflexivity.
  simpl. lia.
Defined.

(** The claim C1 fails as stated: with [--until-passes --rerun-failed-only
    -n 3] and Cypress passing every time, the first attempt shows no failed
    test, and the attempts of index 1 and 2 run all the same. *)
Lemma until_passes_does_not_stop :
  let st := main untilRerunArgs alwaysPassing true
              (ParseResolved sampleHeap sampleOptions) in
  untilPasses untilRerunArgs = true /\
  completed (log st) = [passingResult; passingResult; passingResult] /\
  truthyNum (Res.totalFailed passingResult) = false /\
  attempts (log st) = [0; 1; 2]%nat /\
  ~ (forall k', k' ∈ attempts (log st) -> (k' <= 0)%nat).
Proof.
  assert (attempts (log (main untilRerunArgs alwaysPassing true
                           (ParseResolved sampleHeap sampleOptions))) = [0; 1; 2]%nat)
    as Hatt by (vm_compute; reflexivity).
  cbv zeta. rewrite Hatt.
  split; [reflexivity |]. split; [vm_compute; reflexivity |].
  split; [reflexivity |]. split; [reflexivity |].
  intros H. specialize (H 1%nat).
  assert (1 <= 0)%nat; [| lia].
  apply H. apply elem_of_cons; right. apply elem_of_cons; by left.
Qed.

(** What the script logs when the first attempt passes under
    [--until-passes -n 3]: the summary block reports a successful finish,
    and the error block then prints the rejection that ended the loop as an
    error, with 'Exiting with failure due to an error.' *)
Lemma until_passes_error_block :
  log (main untilArgs alwaysPassing true (ParseResolved sampleHeap sampleOptions)) =
    [ LogAttempt 1 3;
      CypressRun 0 3 (RunResolved passingResult);
      LogPassed 1 3;
      LogEnterSummary;
      LogSummary (summaryText (Num 3) (Num 3) (Num 0) (Num 0));
      LogWriting;
      WriteFile (summaryText (Num 3) (Num 3) (Num 0) (Num 0));
      LogWritten;
      LogFinished 3;
      ErrError (Err "No failures detected, exiting with success.");
      LogExitError ].
Proof. vm_compute. reflexivity. Qed.

(** ** C7: the totals under [--force] *)

Section Forced.

Variable args : Args.
Variable cypressRun : nat -> heap -> nat -> RunOutcome.
Variable writeFileOk : bool.

Lemma buildLoop_length options count k h acc cs h' :
  buildLoop args options count k h acc = Some (cs, h') ->
  length cs = (length acc + count)%nat.
Proof.
  revert k h acc. induction count as [| m IH]; intros k h acc; simpl.
  - intros [= <- <-]. lia.
  - destruct (buildRunOptions args options k h) as [[c h1] |]; [| done].
    intros H. rewrite (IH _ _ _ H), length_app. simpl. lia.
Qed.

Lemma drop_cons_inv (all : list nat) k c rest :
  drop k all = c :: rest -> (k < length all)%nat /\ drop (S k) all = rest.
Proof.
  intros H.
  assert (all !! k = Some c) as Hk.
  { rewrite <- (Nat.add_0_r k), <- lookup_drop, H. done. }
  split; [by eapply lookup_lt_Some |].
  rewrite (drop_S _ _ _ Hk) in H. by injection H.
Qed.

(** The whole script keeps the account. *)
Lemma main_accounted parsed :
  let st := main args cypressRun writeFileOk parsed in
  totalTests st = Num (sumOf Res.totalTests (completed (log st))) /\
  totalPassed st = Num (sumOf Res.totalPassed (completed (log st))) /\
  totalFailed st = Num (sumOf Res.totalFailed (completed (log st))) /\
  totalSkipped st = Num (sumOf Res.totalSkipped (completed (log st))).
Proof.
  unfold main. pose proof (chain_accounted args cypressRun parsed) as Hacc.
  destruct (chain args cypressRun parsed) as [st settled]. simpl in Hacc.
  destruct Hacc as (A & B & C & D & _ & _).
  destruct (finallyHandler_log args writeFileOk st)
    as (e1 & tail & Hlog & (Q1 & _ & _) & Qt & _).
  destruct (omap_quiet tail Qt) as (Tc & _ & _ & _).
  destruct (finallyHandler_totals args writeFileOk st) as (A' & B' & C' & D' & _).
  assert (completed (log (finallyHandler args writeFileOk st)) = completed (log st))
    as Fc.
  { unfold completed in *. rewrite Hlog, !omap_app, Tc. simpl.
    assert (resultOf e1 = None) as -> by (destruct e1; try done; by simpl in Q1).
    by rewrite !app_nil_r. }
  destruct settled as [| e]; cbv zeta.
  - rewrite Fc, A', B', C', D'. by repeat split.
  - destruct (catchHandler_later args e (finallyHandler args writeFileOk st))
      as (A2 & B2 & C2 & D2 & l & L & Q).
    destruct (omap_quiet l Q) as (Lc & _ & _ & _).
    assert (completed (log (catchHandler args e (finallyHandler args writeFileOk st)))
            = completed (log st)) as ->.
    { unfold completed in *. by rewrite L, omap_app, Lc, app_nil_r. }
    rewrite A2, B2, C2, D2, A', B', C', D'. by repeat split.
Qed.

Hypothesis Hforce : forceContinue args = true.
Hypothesis Huntil : untilPasses args = false.
Hypothesis Hres : forall k h c, exists r,
  cypressRun k h c = RunResolved r /\
  (rerunFailedOnly args = true -> Res.runs r <> None).

(** Under [--force] and without [--until-passes] no block returns. *)
Lemma onTestResults_forced all k r st :
  (k < length all)%nat ->
  (rerunFailedOnly args = true -> Res.runs r <> None) ->
  exists st', onTestResults args all k (length all) r st = (st', Fulfilled).
Proof.
  intros Hk Hruns. rewrite onTestResults_unfold. unfold body.
  assert (exists st1, rerunStep args all k (length all) r (updateTotals r st) = (st1, None))
    as (st1 & Hstep).
  { destruct (rerunFailedOnly args) eqn:Hr.
    - destruct (Res.runs r) as [runs |] eqn:E; [| by destruct (Hruns eq_refl)].
      destruct (rerunStep_falls args all k r runs (updateTotals r st) Hk E)
        as (st1 & H1 & _).
      + unfold resolvesEarly. rewrite Hforce. simpl. by rewrite andb_false_r.
      + by exists st1.
    - unfold rerunStep. rewrite Hr. by eexists. }
  rewrite (seq_next _ _ _ _ Hstep).
  unfold failedStatusStep, verdictStep, seq, when, exec, ret, skip.
  rewrite Hforce, Huntil. simpl.
  destruct (isFailedStatus _), (truthyNum (Res.failures r)),
    (truthyNum (Res.totalFailed r)); by eexists.
Qed.

(** So every configuration left is run, in order. *)
Lemma mapSeriesFrom_forced all items k st :
  drop k all = items ->
  exists st',
    mapSeriesFrom args cypressRun all (length all) k items st = (st', Fulfilled) /\
    attempts (log st') = attempts (log st) ++ List.seq k (length items) /\
    length (completed (log st')) = (length (completed (log st)) + length items)%nat.
Proof.
  revert k st. induction items as [| c rest IH]; intros k st Hdrop.
  - exists st. simpl. rewrite app_nil_r. split; [done |]. split; [done | lia].
  - destruct (drop_cons_inv all k c rest Hdrop) as [Hk Hrest].
    destruct (Hres k (theHeap st) c) as (r & Hrun & Hruns).
    rewrite (mapSeriesFrom_resolved args cypressRun _ _ _ _ _ _ _ Hrun).
    set (st0 := emit (CypressRun k c (RunResolved r))
                  (emit (LogAttempt (Z.of_nat k + 1) (Z.of_nat (length all))) st)).
    destruct (onTestResults_forced all k r st0 Hk Hruns) as (st2 & Hstep).
    destruct (onTestResults_log args all k (length all) r st0) as (l & L & Q).
    rewrite Hstep in *. simpl in L.
    destruct (omap_quiet l Q) as (Lc & _ & _ & La).
    destruct (IH (S k) st2 Hrest) as (st' & Hloop & Hatt & Hcomp).
    exists st'. split; [exact Hloop |].
    unfold attempts, completed in *.
    rewrite L, !omap_app, La in Hatt. rewrite L, !omap_app, Lc in Hcomp.
    simpl in Hatt, Hcomp. rewrite !app_nil_r in Hatt, Hcomp.
    split.
    + rewrite Hatt. simpl. by rewrite <- app_assoc.
    + rewrite Hcomp, length_app. simpl. lia.
Qed.

End Forced.

(** C7, as the code has it.  [onTestResults] adds the four counts that a
    result reports to the counters first, whatever it decides afterwards,
    so the counters at the end of the script, and the four count lines of
    the summary, are the totals over the attempts that completed.  With
    [--force] and without [--until-passes], when every call of Cypress
    resolves (with its [runs] under [--rerun-failed-only]), every one of
    the N configurations is run, in order, and completes: the totals are
    over all N attempts. *)
Theorem totals_sum_attempts (args : Args)
    (cypressRun : nat -> heap -> nat -> RunOutcome) (writeFileOk : bool) :
  (forall allRunOptions k n testResults st a b c d,
     totalTests st = Num a -> totalPassed st = Num b ->
     totalFailed st = Num c -> totalSkipped st = Num d ->
     let st' := fst (onTestResults args allRunOptions k n testResults st) in
     totalTests st' = Num (a + reported (Res.totalTests testResults)) /\
     totalPassed st' = Num (b + reported (Res.totalPassed testResults)) /\
     totalFailed st' = Num (c + reported (Res.totalFailed testResults)) /\
     totalSkipped st' = Num (d + reported (Res.totalSkipped testResults))) /\
  (forall parsed,
     let st := main args cypressRun writeFileOk parsed in
     let rs := completed (log st) in
     totalTests st = Num (totalOf Res.totalTests rs) /\
     totalPassed st = Num (totalOf Res.totalPassed rs) /\
     totalFailed st = Num (totalOf Res.totalFailed rs) /\
     totalSkipped st = Num (totalOf Res.totalSkipped rs) /\
     summaries (log st) =
       [ String.concat (String (ascii_of_nat 10) EmptyString)
           [ "***** Repeat Run Summary *****";
             "Total Tests with repeat: " +:+ showZ (totalOf Res.totalTests rs);
             "Total Passed: " +:+ showZ (totalOf Res.totalPassed rs);
             "Total Failed: " +:+ showZ (totalOf Res.totalFailed rs);
             "Total Skipped: " +:+ showZ (totalOf Res.totalSkipped rs);
             "*****************************" ] ]) /\
  (forceContinue args = true ->
   untilPasses args = false ->
   (forall k h c, exists r,
      cypressRun k h c = RunResolved r /\
      (rerunFailedOnly args = true -> Res.runs r <> None)) ->
   forall h0 options allRunOptions h1,
     buildAllRunOptions args options h0 = Some (allRunOptions, h1) ->
     let st := main args cypressRun writeFileOk (ParseResolved h0 options) in
     length allRunOptions = Z.to_nat (repeatNtimes args) /\
     attempts (log st) = List.seq 0 (length allRunOptions) /\
     length (completed (log st)) = length allRunOptions).
Proof.
  split; [| split].
  - intros all k n r st a b c d Ha Hb Hc Hd st'.
    destruct (onTestResults_later args all k n r st) as (A & B & C & D & _).
    fold st' in A, B, C, D. rewrite A, B, C, D. simpl.
    rewrite Ha, Hb, Hc, Hd, !add_reported. by repeat split.
  - intros parsed st rs.
    destruct (main_accounted args cypressRun writeFileOk parsed) as (A & B & C & D).
    destruct (main_totals args cypressRun writeFileOk parsed) as [Hs _].
    fold st in A, B, C, D. rewrite !sumOf_totalOf in A, B, C, D.
    by repeat split.
  - intros Hforce Huntil Hres h0 options all h1 Hbuild st.
    split; [exact (buildLoop_length args _ _ _ _ _ _ _ Hbuild) |].
    subst st. unfold main, chain. rewrite Hbuild. unfold mapSeries.
    destruct (mapSeriesFrom_forced args cypressRun Hforce Huntil Hres all all 0
                (initial h1) eq_refl) as (st' & -> & Hatt & Hcomp).
    destruct (finallyHandler_log args writeFileOk st')
      as (e1 & tail & Hlog & (Q1 & _ & _) & Qt & _).
    destruct (omap_quiet tail Qt) as (Tc & _ & _ & Ta).
    unfold attempts, completed in *. rewrite Hlog, !omap_app, Tc, Ta. simpl.
    assert (resultOf e1 = None) as -> by (destruct e1; try done; by simpl in Q1).
    rewrite Q1, !app_nil_r. simpl in Hatt, Hcomp. by split.
Qed.

Lemma totals_sum_attempts_witness :
  let st1 := fst (onTestResults forceArgs [1; 2; 3]%nat 0 3 failingResult
                    (initial threeConfigs)) in
  let st := main forceArgs alwaysFailing true (ParseResolved sampleHeap sampleOptions) in
  (totalTests st1 = Num (0 + 5) /\ totalPassed st1 = Num (0 + 3) /\
   totalFailed st1 = Num (0 + 2) /\ totalSkipped st1 = Num (0 + 0)) /\
  attempts (log st) = [0; 1; 2]%nat /\
  completed (log st) = [failingResult; failingResult; failingResult] /\
  (totalTests st = Num 15 /\ totalPassed st = Num 9 /\
   totalFailed st = Num 6 /\ totalSkipped st = Num 0) /\
  summaries (log st) =
    [ String.concat (String (ascii_of_nat 10) EmptyString)
        [ "***** Repeat Run Summary *****";
          "Total Tests with repeat: 15";
          "Total Passed: 9";
          "Total Failed: 6";
          "Total Skipped: 0";
          "*****************************" ] ].
Proof.
  destruct (totals_sum_attempts forceArgs alwaysFailing true) as (Hstep & Hsum & Hall).
  pose proof (Hstep [1; 2; 3]%nat 0%nat 3%nat failingResult (initial threeConfigs)
                0 0 0 0 eq_refl eq_refl eq_refl eq_refl) as H1.
  pose proof (Hsum (ParseResolved sampleHeap sampleOptions)) as H2.
  assert (forall (k : nat) (h : heap) (c : nat), exists r,
            alwaysFailing k h c = RunResolved r /\
            (rerunFailedOnly forceArgs = true -> Res.runs r <> None)) as Hres.
  { intros k h c. exists failingResult. split; [reflexivity | discriminate]. }
  destruct (Hall eq_refl eq_refl Hres sampleHeap sampleOptions [3; 5; 7]%nat _ eq_refl)
    as (_ & Hatt & _).
  assert (completed (log (main forceArgs alwaysFailing true
                            (ParseResolved sampleHeap sampleOptions))) =
          [failingResult; failingResult; failingResult]) as Hc
    by (vm_compute; reflexivity).
  cbv zeta in *. rewrite Hc in H2.
  destruct H2 as (At & Ap & Af & As & Hs).
  split; [exact H1 |]. split; [exact Hatt |]. split; [exact Hc |].
  split; [by repeat split |]. exact Hs.
Defined.

(** The claim C7 fails as stated: with [--until-passes --force -n 3] and
    Cypress passing every time, only the first attempt runs, and the total
    is the count of that attempt, 3, not the sum over three attempts, 9. *)
Lemma force_does_not_run_every_attempt :
  let st := main untilForceArgs alwaysPassing true
              (ParseResolved sampleHeap sampleOptions) in
  forceContinue untilForceArgs = true /\
  repeatNtimes untilForceArgs = 3 /\
  attempts (log st) = [0%nat] /\
  totalTests st = Num 3 /\
  totalOf Res.totalTests [passingResult; passingResult; passingResult] = 9 /\
  totalTests st <> Num 9.
Proof.
  cbv zeta.
  assert (totalTests (main untilForceArgs alwaysPassing true
                        (ParseResolved sampleHeap sampleOptions)) = Num 3) as ->
    by (vm_compute; reflexivity).
  split; [reflexivity |]. split; [reflexivity |].
  split; [vm_compute; reflexivity |]. split; [reflexivity |].
  split; [reflexivity |]. discriminate.
Qed.

(** ** C2: the default mode *)

(** C2, on the code.  In the default mode ([-n 3], no flag), when the first
    attempt reports failed tests in a finished run, the loop is rejected and
    no other attempt runs, but the failure flag is never set: the summary
    block reports a successful finish, and only the error block tells of a
    failure.  With [--force] the three attempts run, each with failed
    tests, and the script ends on the report of a successful finish. *)
Theorem default_failure_not_flagged :
  let st := main sampleArgs alwaysFailing true
              (ParseResolved sampleHeap sampleOptions) in
  let forced := main forceArgs alwaysFailing true
                  (ParseResolved sampleHeap sampleOptions) in
  (untilPasses sampleArgs = false /\ rerunFailedOnly sampleArgs = false /\
   forceContinue sampleArgs = false) /\
  truthyNum (Res.totalFailed failingResult) = true /\
  anyTestFailed st = false /\
  log st =
    [ LogAttempt 1 3;
      CypressRun 0 3 (RunResolved failingResult);
      ErrRunFailed 1 3;
      LogEnterSummary;
      LogSummary (summaryText (Num 5) (Num 3) (Num 2) (Num 0));
      LogWriting;
      WriteFile (summaryText (Num 5) (Num 3) (Num 2) (Num 0));
      LogWritten;
      LogFinished 3;
      ErrError (Err "Failures detected and conditions met");
      LogExitError ] /\
  anyTestFailed forced = false /\
  attempts (log forced) = [0; 1; 2]%nat /\
  last (log forced) = Some (LogFinished 3).
Proof.
  cbv zeta. repeat split; vm_compute; reflexivity.
Qed.

(** * More properties of the script *)

(** ** The command line handed to Cypress *)

Lemma cliArgs_cases (positional : list string) :
  exists pre rest,
    cliArgs positional = "cypress" :: "run" :: rest /\
    positional = pre ++ rest /\
    (pre = [] \/ pre = ["cypress"] \/ pre = ["run"] \/ pre = ["cypress"; "run"]) /\
    (pre = [] -> positional !! 0%nat <> Some "cypress" /\ positional !! 0%nat <> Some "run").
Proof.
  unfold cliArgs, unshiftCypress, spliceRun.
  destruct positional as [| x r]; simpl.
  - exists [], []. repeat split; auto; discriminate.
  - destruct (String.eqb x "cypress") eqn:Ex.
    + apply String.eqb_eq in Ex. subst x. simpl.
      destruct r as [| y r']; simpl.
      * exists ["cypress"], []. repeat split; auto; discriminate.
      * destruct (String.eqb y "run") eqn:Ey.
        -- apply String.eqb_eq in Ey. subst y.
           exists ["cypress"; "run"], r'. repeat split; auto; discriminate.
        -- exists ["cypress"], (y :: r'). repeat split; auto; discriminate.
    + simpl. destruct (String.eqb x "run") eqn:Er.
      * apply String.eqb_eq in Er. subst x.
        exists ["run"], r. repeat split; auto; discriminate.
      * exists [], (x :: r). split; [done |]. split; [done |].
        split; [by left |]. intros _.
        apply String.eqb_neq in Ex, Er. split; congruence.
Qed.

(** X1.  Whatever the positional arguments, the command line handed to
    Cypress starts with [cypress run], and what follows is the positional
    arguments without a leading [cypress] and without a [run] after it (or
    first): nothing else of the user's arguments is dropped, and nothing is
    reordered. *)
Theorem cliArgs_shape (positional : list string) :
  exists pre rest,
    cliArgs positional = "cypress" :: "run" :: rest /\
    positional = pre ++ rest /\
    (pre = [] \/ pre = ["cypress"] \/ pre = ["run"] \/ pre = ["cypress"; "run"]) /\
    (pre = [] -> positional !! 0%nat <> Some "cypress" /\ positional !! 0%nat <> Some "run").
Proof. apply cliArgs_cases. Qed.

(** X2.  Normalising the command line twice is normalising it once. *)
Theorem cliArgs_idempotent (positional : list string) :
  cliArgs (cliArgs positional) = cliArgs positional.
Proof.
  destruct (cliArgs_cases positional) as (pre & rest & -> & _).
  reflexivity.
Qed.

(** ** Relations kept by the blocks of [onTestResults] *)

Section Holds.

Context (R : State -> State -> Prop) `{!PreOrder R}.

Lemma holds_skip : holds R skip.
Proof using Type*. intros st. simpl. reflexivity. Qed.

Lemma holds_ret s : holds R (ret s).
Proof using Type*. intros st. simpl. reflexivity. Qed.

Lemma holds_exec f : (forall st, R st (f st)) -> holds R (exec f).
Proof. intros H st. apply H. Qed.

Lemma holds_seq a b : holds R a -> holds R b -> holds R (a >>> b).
Proof using Type*.
  intros Ha Hb st. unfold seq. specialize (Ha st).
  destruct (a st) as [st' [s |]]; [done |].
  simpl in Ha. etransitivity; [exact Ha | apply Hb].
Qed.

Lemma holds_when c a : holds R a -> holds R (when c a).
Proof using Type*. intros Ha. destruct c; [done | apply holds_skip]. Qed.

Variable args : Args.

(** What the three blocks after the counters keep, given what their
    assignments keep. *)
Lemma holds_blocks all k n r :
  (forall e st, loopEvent e = true -> R st (emit e st)) ->
  (crashed r = true -> forall st, R st (setAnyTestFailed true st)) ->
  (forall next runs st,
     all !! S k = Some next -> Res.runs r = Some runs ->
     rerunFailedOnly args = true -> isLastRun k n = false ->
     R st (setHeap (writeField (theHeap st) next "spec"
                      (VStr (failedSpecsOf runs))) st)) ->
  holds R (rerunStep args all k n r >>> failedStatusStep args r >>>
           verdictStep args k n r).
Proof using Type*.
  intros Hemit Hflag Hpatch.
  assert (forall e, loopEvent e = true -> holds R (exec (emit e))) as He
    by (intros e H; apply holds_exec; intros st; by apply Hemit).
  apply holds_seq; [| apply holds_seq].
  - unfold rerunStep.
    destruct (rerunFailedOnly args) eqn:Hr; [| apply holds_skip].
    destruct (isLastRun k n) eqn:Hl; [apply holds_skip |]. simpl.
    destruct (Res.runs r) as [runs |] eqn:Hruns; [| apply holds_ret].
    destruct (negb _).
    + apply holds_seq; [by apply He |].
      destruct (all !! S k) as [next |] eqn:Hnext; [| apply holds_ret].
      intros st. by eapply Hpatch.
    + apply holds_seq; [by apply He |]. apply holds_when, holds_ret.
  - unfold failedStatusStep.
    destruct (isFailedStatus (Res.status r)) eqn:Hs; [| apply holds_skip].
    destruct (truthyNum (Res.failures r)) eqn:Hf; [| apply holds_skip]. simpl.
    apply holds_seq; [by apply He |].
    apply holds_seq; [| apply holds_when, holds_ret].
    apply holds_exec. apply Hflag. unfold crashed. by rewrite Hs, Hf.
  - unfold verdictStep. destruct (untilPasses args).
    + apply holds_seq; [apply holds_when, holds_seq; [by apply He | apply holds_ret] |].
      apply holds_seq; [by apply He | apply holds_when, holds_ret].
    + apply holds_when, holds_seq; [by apply He | apply holds_when, holds_ret].
Qed.

End Holds.

#[local] Instance grows_preorder (Q : Event -> Prop) : PreOrder (grows Q).
Proof.
  split.
  - intros st. exists []. split; [by rewrite app_nil_r | constructor].
  - intros st1 st2 st3 (l1 & L1 & Q1) (l2 & L2 & Q2).
    exists (l1 ++ l2). split; [by rewrite L2, L1, app_assoc | by apply Forall_app].
Qed.

#[local] Instance flagged_preorder (r : Res.t) : PreOrder (flagged r).
Proof.
  split.
  - intros st. by left.
  - intros st1 st2 st3 [H1 | [H1 Hc]] [H2 | [H2 Hc2]].
    + left. congruence.
    + right. by split.
    + right. split; [congruence | done].
    + right. by split.
Qed.

#[local] Instance patches_preorder (next : option nat) : PreOrder (patches next).
Proof.
  split.
  - intros st. by repeat split.
  - intros st1 st2 st3 (L1 & A1 & B1) (L2 & A2 & B2).
    split; [congruence |]. split.
    + intros l Hl. by rewrite A2, A1.
    + intros l key Hk. by rewrite B2, B1.
Qed.

Section Relations.

Variable args : Args.

(** [onTestResults] logs events of the loop only. *)
Lemma onTestResults_grows all k n r st :
  grows (fun e => loopEvent e = true) st (fst (onTestResults args all k n r st)).
Proof.
  rewrite onTestResults_unfold, fst_body.
  pose proof (holds_blocks (grows (fun e => loopEvent e = true)) args all k n r) as H.
  destruct (H ltac:(intros e st0 He; exists [e]; split; [done | by constructor])
              ltac:(intros _ st0; exists []; split; [by rewrite app_nil_r | constructor])
              ltac:(intros; exists []; split; [by rewrite app_nil_r | constructor])
              (updateTotals r st)) as (l & L & Q).
  by exists l.
Qed.

(** [onTestResults] sets the failure flag for the result of a crashed run
    only, and never unsets it. *)
Lemma onTestResults_flagged all k n r st :
  flagged r st (fst (onTestResults args all k n r st)).
Proof.
  rewrite onTestResults_unfold, fst_body.
  pose proof (holds_blocks (flagged r) args all k n r) as H.
  apply (H ltac:(intros; by left) ltac:(intros Hc st0; right; by split)
           ltac:(intros; by left) (updateTotals r st)).
Qed.

(** [onTestResults] writes the [spec] of the next configuration and nothing
    else. *)
Lemma onTestResults_patches all k n r st :
  patches (all !! S k) st (fst (onTestResults args all k n r st)).
Proof.
  rewrite onTestResults_unfold, fst_body.
  pose proof (holds_blocks (patches (all !! S k)) args all k n r) as H.
  apply (H ltac:(intros; by repeat split) ltac:(intros; by repeat split)) with
    (st := updateTotals r st).
  intros next runs st0 Hnext _ _ _. simpl. split; [apply writeField_length |].
  split.
  - intros l Hl. apply writeField_lookup_ne. congruence.
  - intros l key Hk. destruct (decide (l = next)) as [-> | Hne].
    + by apply readField_writeField_ne_key.
    + unfold readField. simpl. by rewrite writeField_lookup_ne.
Qed.

End Relations.

(** ** The log of a whole run *)

Section WholeRun.

Variable args : Args.
Variable cypressRun : nat -> heap -> nat -> RunOutcome.
Variable writeFileOk : bool.

(** What the summary block and the error block add to the log. *)
Lemma main_parts parsed :
  exists st s,
    chain args cypressRun parsed = (st, s) /\
    log (main args cypressRun writeFileOk parsed) =
      log st ++
      [LogEnterSummary; LogSummary (resultSummary st); LogWriting;
       WriteFile (resultSummary st);
       if writeFileOk then LogWritten else ErrWriting] ++
      (if anyTestFailed st
       then [ErrSomeTestsFailed; LogExitTestFailures]
       else [LogFinished (repeatNtimes args)]) ++
      match s with
      | Fulfilled => []
      | Rejected e => ErrError e :: (if forceContinue args then [] else [LogExitError])
      end /\
    anyTestFailed (main args cypressRun writeFileOk parsed) = anyTestFailed st /\
    theHeap (main args cypressRun writeFileOk parsed) = theHeap st.
Proof.
  unfold main. destruct (chain args cypressRun parsed) as [st s].
  exists st, s. split; [done |].
  unfold finallyHandler, catchHandler.
  destruct writeFileOk, (anyTestFailed st) eqn:Hflag, s as [| e],
    (forceContinue args); simpl; rewrite ?Hflag; simpl;
    rewrite <- ?app_assoc; simpl; by repeat split.
Qed.

Lemma loopEvent_attempts (l : list Event) :
  Forall (fun e => loopEvent e = false) l -> attempts l = [] /\ completed l = [].
Proof.
  induction 1 as [| e l He _ [IH1 IH2]]; [done |].
  unfold attempts, completed in *. change (e :: l) with ([e] ++ l).
  rewrite !omap_app, IH1, IH2, !app_nil_r. by destruct e.
Qed.

(** Neither block calls Cypress. *)
Lemma main_attempts parsed :
  attempts (log (main args cypressRun writeFileOk parsed)) =
    attempts (log (fst (chain args cypressRun parsed))) /\
  completed (log (main args cypressRun writeFileOk parsed)) =
    completed (log (fst (chain args cypressRun parsed))).
Proof.
  destruct (main_parts parsed) as (st & s & Hc & Hlog & _). rewrite Hc. simpl.
  match type of Hlog with _ = _ ++ ?X => remember X as F eqn:EF end.
  assert (Forall (fun e => loopEvent e = false) F) as HF.
  { subst F. destruct writeFileOk, (anyTestFailed st), s, (forceContinue args);
      repeat constructor. }
  destruct (loopEvent_attempts _ HF) as [Ha Hcm].
  rewrite Hlog. unfold attempts, completed in *.
  by rewrite !omap_app, Ha, Hcm, !app_nil_r.
Qed.

(** The attempts of the loop are numbered in order from where it starts,
    and there are no more of them than configurations left. *)
Lemma mapSeriesFrom_attempts all n k items st :
  exists m, (m <= length items)%nat /\
    attempts (log (fst (mapSeriesFrom args cypressRun all n k items st))) =
    attempts (log st) ++ List.seq k m.
Proof.
  revert k st. induction items as [| c rest IH]; intros k st.
  - exists 0%nat. simpl. by rewrite app_nil_r.
  - cbn [mapSeriesFrom].
    change (theHeap (emit (LogAttempt (Z.of_nat k + 1) (Z.of_nat n)) st))
      with (theHeap st).
    destruct (cypressRun k (theHeap st) c) as [r | e].
    + destruct (onTestResults_log args all k n r
                  (emit (CypressRun k c (RunResolved r))
                     (emit (LogAttempt (Z.of_nat k + 1) (Z.of_nat n)) st)))
        as (l & L & Q).
      destruct (omap_quiet l Q) as (_ & _ & _ & La).
      destruct (onTestResults args all k n r _) as [st2 [| e]]; simpl in L.
      * destruct (IH (S k) st2) as (m & Hm & Hatt).
        exists (S m). split; [simpl; lia |].
        rewrite Hatt. unfold attempts in *. rewrite L, !omap_app, La. simpl.
        by rewrite !app_nil_r, <- app_assoc.
      * exists 1%nat. split; [simpl; lia |]. simpl.
        unfold attempts in *. rewrite L, !omap_app, La. simpl.
        by rewrite !app_nil_r.
    + exists 1%nat. split; [simpl; lia |]. simpl.
      unfold attempts. rewrite !omap_app. simpl. by rewrite !app_nil_r.
Qed.

End WholeRun.

Section LoopEvents.

Variable args : Args.
Variable cypressRun : nat -> heap -> nat -> RunOutcome.
Variable writeFileOk : bool.

(** The loop logs events of the loop only. *)
Lemma mapSeriesFrom_grows all n k items st :
  grows (fun e => loopEvent e = true) st
    (fst (mapSeriesFrom args cypressRun all n k items st)).
Proof.
  revert k st. induction items as [| c rest IH]; intros k st.
  - reflexivity.
  - cbn [mapSeriesFrom].
    set (st1 := emit (CypressRun k c (cypressRun k
                        (theHeap (emit (LogAttempt (Z.of_nat k + 1) (Z.of_nat n)) st)) c))
                  (emit (LogAttempt (Z.of_nat k + 1) (Z.of_nat n)) st)).
    assert (grows (fun e => loopEvent e = true) st st1) as H1.
    { eexists [_; _]. split; [unfold st1; simpl; by rewrite <- app_assoc |].
      by repeat constructor. }
    destruct (cypressRun k _ c) as [r | e]; [| exact H1].
    pose proof (onTestResults_grows args all k n r st1) as H2.
    destruct (onTestResults args all k n r st1) as [st2 [| e]]; simpl in *.
    + etransitivity; [exact H1 |]. etransitivity; [exact H2 | apply IH].
    + etransitivity; [exact H1 | exact H2].
Qed.

Lemma chain_loopEvents parsed :
  Forall (fun e => loopEvent e = true) (log (fst (chain args cypressRun parsed))).
Proof.
  unfold chain. destruct parsed as [h options | e]; [| constructor].
  destruct (buildAllRunOptions args options h) as [[all h'] |]; [| constructor].
  destruct (mapSeriesFrom_grows all (length all) 0 all (initial h')) as (l & L & Q).
  unfold mapSeries. by rewrite L.
Qed.

Lemma loopEvents_errors (l : list Event) :
  Forall (fun e => loopEvent e = true) l -> errors l = [] /\ LogExitError ∉ l.
Proof.
  induction 1 as [| e l He _ [IH1 IH2]].
  - split; [done |]. apply not_elem_of_nil.
  - split.
    + unfold errors in *. change (e :: l) with ([e] ++ l).
      rewrite omap_app, IH1, app_nil_r. by destruct e.
    + intros Hin. apply elem_of_cons in Hin as [<- | Hin]; [done | by apply IH2].
Qed.

End LoopEvents.

(** ** The count, the order of the attempts and the error block *)

(** X3.  The repeat count is never 0 ([-n 0] means one attempt), and with a
    negative [-n] the script builds no configuration and never calls
    Cypress: it prints and writes a summary of zeros and reports a
    successful finish. *)
Theorem negative_count_runs_nothing (args : Args)
    (cypressRun : nat -> heap -> nat -> RunOutcome) (writeFileOk : bool)
    (h : heap) (options : nat) :
  repeatNtimes args <> 0 /\
  (repeatNtimes args < 0 ->
   chain args cypressRun (ParseResolved h options) = (initial h, Fulfilled) /\
   log (main args cypressRun writeFileOk (ParseResolved h options)) =
     [ LogEnterSummary;
       LogSummary (summaryText (Num 0) (Num 0) (Num 0) (Num 0));
       LogWriting;
       WriteFile (summaryText (Num 0) (Num 0) (Num 0) (Num 0));
       if writeFileOk then LogWritten else ErrWriting;
       LogFinished (repeatNtimes args) ]).
Proof.
  split.
  - unfold repeatNtimes. destruct (arg_n args) as [z |]; [| done].
    destruct (z =? 0) eqn:E; [done |]. by apply Z.eqb_neq.
  - intros Hneg.
    assert (chain args cypressRun (ParseResolved h options) = (initial h, Fulfilled)) as Hc.
    { unfold chain, buildAllRunOptions.
      assert (Z.to_nat (repeatNtimes args) = 0%nat) as -> by lia. reflexivity. }
    split; [exact Hc |].
    destruct (main_parts args cypressRun writeFileOk (ParseResolved h options))
      as (st & s & Hc' & -> & _).
    rewrite Hc in Hc'. injection Hc' as <- <-. reflexivity.
Qed.

Lemma negative_count_runs_nothing_witness :
  repeatNtimes (mkArgs (Some (-2)) false false false) <> 0 /\
  chain (mkArgs (Some (-2)) false false false) alwaysFailing
    (ParseResolved sampleHeap sampleOptions) = (initial sampleHeap, Fulfilled) /\
  log (main (mkArgs (Some (-2)) false false false) alwaysFailing true
         (ParseResolved sampleHeap sampleOptions)) =
    [ LogEnterSummary;
      LogSummary (summaryText (Num 0) (Num 0) (Num 0) (Num 0));
      LogWriting;
      WriteFile (summaryText (Num 0) (Num 0) (Num 0) (Num 0));
      LogWritten;
      LogFinished (-2) ].
Proof.
  destruct (negative_count_runs_nothing (mkArgs (Some (-2)) false false false)
              alwaysFailing true sampleHeap sampleOptions) as [H0 Hneg].
  split; [exact H0 |]. apply Hneg. reflexivity.
Defined.

(** X4.  Whatever happens, the attempts that run are the attempts 0, 1, ...,
    m - 1, in this order and each once, for some m that is not above the
    number of configurations that the build made. *)
Theorem attempts_in_order (args : Args)
    (cypressRun : nat -> heap -> nat -> RunOutcome) (writeFileOk : bool)
    (parsed : Parsed) :
  exists m, (m <= length (built args parsed))%nat /\
    attempts (log (main args cypressRun writeFileOk parsed)) = List.seq 0 m.
Proof.
  destruct (main_attempts args cypressRun writeFileOk parsed) as [-> _].
  unfold chain, built.
  destruct parsed as [h options | e]; [| by exists 0%nat; split; [simpl; lia |]].
  destruct (buildAllRunOptions args options h) as [[all h'] |] eqn:Hb;
    [| by exists 0%nat; split; [simpl; lia |]].
  destruct (mapSeriesFrom_attempts args cypressRun all (length all) 0 all (initial h'))
    as (m & Hm & Hatt).
  exists m. by split.
Qed.

(** X5.  The error block prints the reason of the rejection that ended the
    chain, once, and nothing when the chain is fulfilled; and 'Exiting with
    failure due to an error.' is printed exactly when the chain is rejected
    and [--force] is absent. *)
Theorem error_block_reports_rejection (args : Args)
    (cypressRun : nat -> heap -> nat -> RunOutcome) (writeFileOk : bool)
    (parsed : Parsed) :
  errors (log (main args cypressRun writeFileOk parsed)) =
    match snd (chain args cypressRun parsed) with
    | Fulfilled => []
    | Rejected e => [e]
    end /\
  (LogExitError ∈ log (main args cypressRun writeFileOk parsed) <->
   snd (chain args cypressRun parsed) <> Fulfilled /\ forceContinue args = false).
Proof.
  destruct (main_parts args cypressRun writeFileOk parsed) as (st & s & Hc & -> & _).
  pose proof (chain_loopEvents args cypressRun parsed) as Hloop.
  rewrite Hc in *. simpl in *.
  destruct (loopEvents_errors _ Hloop) as [He Hx].
  split.
  - unfold errors in *. rewrite omap_app, He. simpl.
    destruct writeFileOk, (anyTestFailed st), s, (forceContinue args); reflexivity.
  - rewrite elem_of_app. split.
    + intros [Hin | Hin]; [done |]. apply list_elem_of_In in Hin.
      destruct writeFileOk, (anyTestFailed st), s as [| e], (forceContinue args);
        simpl in Hin; intuition discriminate.
    + intros [Hs Hf]. right. rewrite Hf.
      destruct s as [| e]; [done |]. apply list_elem_of_In.
      destruct writeFileOk, (anyTestFailed st); simpl; tauto.
Qed.

(** ** The write of the summary *)

(** X6.  The summary is written to the file once, after the last call of
    Cypress: 'Writing result summary to file...' is followed by the write of
    the six lines with the totals of the attempts that completed, and then
    by the line of success when [fs.writeFileSync] returns and by the line
    of the error when it throws.  Either way the script goes on to its final
    report, the line of the failed tests or the line of the finish: an
    error of the write is caught and does not end the script. *)
Theorem summary_write_reported (args : Args)
    (cypressRun : nat -> heap -> nat -> RunOutcome) (writeFileOk : bool)
    (parsed : Parsed) :
  let st := main args cypressRun writeFileOk parsed in
  let rs := completed (log st) in
  let s := String.concat (String (ascii_of_nat 10) EmptyString)
             [ "***** Repeat Run Summary *****";
               "Total Tests with repeat: " +:+ showZ (totalOf Res.totalTests rs);
               "Total Passed: " +:+ showZ (totalOf Res.totalPassed rs);
               "Total Failed: " +:+ showZ (totalOf Res.totalFailed rs);
               "Total Skipped: " +:+ showZ (totalOf Res.totalSkipped rs);
               "*****************************" ] in
  exists pre post,
    log st = pre ++ [LogWriting; WriteFile s;
                     if writeFileOk then LogWritten else ErrWriting] ++ post /\
    written pre = [] /\ written post = [] /\ attempts post = [] /\
    (head post = Some ErrSomeTestsFailed \/
     head post = Some (LogFinished (repeatNtimes args))).
Proof.
  cbv zeta.
  destruct (main_totals args cypressRun writeFileOk parsed) as [_ Hw].
  destruct (main_parts args cypressRun writeFileOk parsed)
    as (stc & settled & Hc & Hlog & _).
  pose proof (chain_accounted args cypressRun parsed) as Hacc.
  rewrite Hc in Hacc. simpl in Hacc. destruct Hacc as (_ & _ & _ & _ & _ & W).
  cbv zeta in Hw.
  set (s := String.concat _ _) in *.
  match type of Hlog with _ = _ ++ _ ++ ?X => set (post := X) in * end.
  assert (written post = [] /\ attempts post = [] /\
          (head post = Some ErrSomeTestsFailed \/
           head post = Some (LogFinished (repeatNtimes args)))) as (Wp & Ap & Hp).
  { unfold post.
    destruct (anyTestFailed stc), settled, (forceContinue args); simpl; auto. }
  assert (forall a b, written (a ++ b) = written a ++ written b) as Happ
    by (intros a b; apply omap_app).
  assert (resultSummary stc = s) as Hs.
  { rewrite Hlog, !Happ, W, Wp, app_nil_r in Hw.
    destruct writeFileOk; simpl in Hw; congruence. }
  exists (log stc ++ [LogEnterSummary; LogSummary s]), post.
  split; [| split; [| by repeat split]].
  - rewrite Hlog, Hs, <- app_assoc. reflexivity.
  - by rewrite Happ, W.
Qed.

(** ** The failure flag *)

Section Flag.

Variable args : Args.
Variable cypressRun : nat -> heap -> nat -> RunOutcome.
Variable writeFileOk : bool.

Lemma loopEvents_not_elem (l : list Event) e :
  Forall (fun e => loopEvent e = true) l -> loopEvent e = false -> e ∉ l.
Proof.
  intros Hl He Hin. rewrite Forall_forall in Hl. specialize (Hl e Hin). congruence.
Qed.

(** Without [--rerun-failed-only] the flag after [onTestResults] is the flag
    before, or the result is that of a crashed run. *)
Lemma onTestResults_flag_exact all k n r st :
  rerunFailedOnly args = false ->
  anyTestFailed (fst (onTestResults args all k n r st)) =
    anyTestFailed st || crashed r.
Proof.
  intros Hr. unfold onTestResults, rerunStep, failedStatusStep, verdictStep, crashed,
    body, seq, when, exec, ret, skip.
  rewrite Hr. simpl.
  destruct (isFailedStatus _), (truthyNum (Res.failures r)), (forceContinue args),
    (untilPasses args), (truthyNum (Res.totalFailed r)), (isLastRun k n),
    (Z.of_nat k =? Z.of_nat n - 1); simpl; by rewrite ?orb_true_r, ?orb_false_r.
Qed.

Lemma completed_app (l1 l2 : list Event) :
  completed (l1 ++ l2) = completed l1 ++ completed l2.
Proof. apply omap_app. Qed.

(** Through the loop the flag is never unset, it is set only by the result
    of a crashed run, and without [--rerun-failed-only] every such result
    sets it. *)
Lemma mapSeriesFrom_flag all n k items st :
  exists l,
    log (fst (mapSeriesFrom args cypressRun all n k items st)) = log st ++ l /\
    (anyTestFailed st = true ->
     anyTestFailed (fst (mapSeriesFrom args cypressRun all n k items st)) = true) /\
    (anyTestFailed (fst (mapSeriesFrom args cypressRun all n k items st)) = true ->
     anyTestFailed st = true \/ exists r, r ∈ completed l /\ crashed r = true) /\
    (rerunFailedOnly args = false ->
     forall r, r ∈ completed l -> crashed r = true ->
       anyTestFailed (fst (mapSeriesFrom args cypressRun all n k items st)) = true).
Proof.
  revert k st. induction items as [| c rest IH]; intros k st.
  - exists []. simpl. rewrite app_nil_r. split; [done |]. split; [done |].
    split; [by left |]. intros _ r Hr. by apply elem_of_nil in Hr.
  - cbn [mapSeriesFrom].
    change (theHeap (emit (LogAttempt (Z.of_nat k + 1) (Z.of_nat n)) st))
      with (theHeap st).
    destruct (cypressRun k (theHeap st) c) as [r | e].
    + set (st0 := emit (CypressRun k c (RunResolved r))
                    (emit (LogAttempt (Z.of_nat k + 1) (Z.of_nat n)) st)).
      destruct (onTestResults_log args all k n r st0) as (l1 & L1 & Q1).
      destruct (omap_quiet l1 Q1) as (Lc & _ & _ & _).
      pose proof (onTestResults_flagged args all k n r st0) as Hfl.
      unfold flagged in Hfl.
      pose proof (onTestResults_flag_exact all k n r st0) as Hex.
      change (anyTestFailed st0) with (anyTestFailed st) in *.
      assert (crashed r = true -> rerunFailedOnly args = false ->
              anyTestFailed (fst (onTestResults args all k n r st0)) = true) as Hset.
      { intros Hc Hr. rewrite (Hex Hr), Hc. apply orb_true_r. }
      destruct (onTestResults args all k n r st0) as [st2 [| e]]; simpl in *.
      * destruct (IH (S k) st2) as (l2 & L2 & Hmono & Hback & Hforth).
        exists ([LogAttempt (Z.of_nat k + 1) (Z.of_nat n);
                 CypressRun k c (RunResolved r)] ++ l1 ++ l2).
        split; [rewrite L2, L1; by rewrite <- !app_assoc |].
        rewrite !completed_app. fold (completed l1). rewrite Lc. simpl.
        split; [| split].
        -- intros H. apply Hmono. destruct Hfl as [-> | [-> _]]; done.
        -- intros H. destruct (Hback H) as [H2 | (r' & Hin & Hc)].
           ++ destruct Hfl as [Hsame | [_ Hc]]; [left; congruence |].
              right. exists r. split; [apply elem_of_cons; by left | done].
           ++ right. exists r'. split; [apply elem_of_cons; by right | done].
        -- intros Hr r' Hin Hc. apply elem_of_cons in Hin as [-> | Hin].
           ++ apply Hmono. by apply Hset.
           ++ by apply (Hforth Hr r').
      * exists ([LogAttempt (Z.of_nat k + 1) (Z.of_nat n);
                 CypressRun k c (RunResolved r)] ++ l1).
        split; [rewrite L1; by rewrite <- !app_assoc |].
        rewrite !completed_app. fold (completed l1). rewrite Lc. simpl.
        split; [| split].
        -- intros H. destruct Hfl as [-> | [-> _]]; done.
        -- intros H. destruct Hfl as [Hsame | [_ Hc]]; [left; congruence |].
           right. exists r. split; [apply elem_of_cons; by left | done].
        -- intros Hr r' Hin Hc. apply list_elem_of_singleton in Hin as ->.
           by apply Hset.
    + exists [LogAttempt (Z.of_nat k + 1) (Z.of_nat n); CypressRun k c (RunRejected e)].
      simpl. split; [by rewrite <- !app_assoc |]. split; [done |].
      split; [by left |]. intros _ r Hr. by apply elem_of_nil in Hr.
Qed.

End Flag.

(** X7.  At the end of a run the failure flag is set only if some attempt
    completed with the result of a crashed run (status 'failed' with a
    truthy [failures]): failed tests of a finished run never set it.
    Without [--rerun-failed-only] every such result sets it.  The summary
    block prints 'Some tests failed during the run(s)' exactly when the
    flag is set. *)
Theorem failure_flag_means_crashed_run (args : Args)
    (cypressRun : nat -> heap -> nat -> RunOutcome) (writeFileOk : bool)
    (parsed : Parsed) :
  let st := main args cypressRun writeFileOk parsed in
  (anyTestFailed st = true ->
   exists r, r ∈ completed (log st) /\ crashed r = true) /\
  (rerunFailedOnly args = false ->
   forall r, r ∈ completed (log st) -> crashed r = true -> anyTestFailed st = true) /\
  (ErrSomeTestsFailed ∈ log st <-> anyTestFailed st = true).
Proof.
  cbv zeta.
  destruct (main_attempts args cypressRun writeFileOk parsed) as [_ ->].
  destruct (main_parts args cypressRun writeFileOk parsed) as (st & s & Hc & -> & -> & _).
  pose proof (chain_loopEvents args cypressRun parsed) as Hloop.
  rewrite Hc in *. simpl in *.
  assert ((anyTestFailed st = true ->
           exists r, r ∈ completed (log st) /\ crashed r = true) /\
          (rerunFailedOnly args = false ->
           forall r, r ∈ completed (log st) -> crashed r = true ->
             anyTestFailed st = true)) as [Hback Hforth].
  { unfold chain in Hc. destruct parsed as [h options | e].
    - destruct (buildAllRunOptions args options h) as [[all h'] |].
      + destruct (mapSeriesFrom_flag args cypressRun all (length all) 0 all (initial h'))
          as (l & L & _ & Hb & Hf).
        unfold mapSeries in Hc. rewrite Hc in *. simpl in *. subst l.
        split; [| exact Hf].
        intros H. by destruct (Hb H).
      + injection Hc as <- <-. split; [done |].
        intros _ r Hr. by apply elem_of_nil in Hr.
    - injection Hc as <- <-. split; [done |].
      intros _ r Hr. by apply elem_of_nil in Hr. }
  split; [exact Hback |]. split; [exact Hforth |].
  rewrite elem_of_app. split.
  - intros [Hin | Hin].
    + by destruct (loopEvents_not_elem _ ErrSomeTestsFailed Hloop eq_refl).
    + apply list_elem_of_In in Hin.
      destruct writeFileOk, (anyTestFailed st), s as [| e], (forceContinue args);
        simpl in Hin; intuition discriminate.
  - intros Hflag. right. rewrite Hflag. apply list_elem_of_In.
    destruct writeFileOk; simpl; tauto.
Qed.

(** ** The verdict of an attempt *)

(** X8.  What [onTestResults] settles with depends on the flags, on the
    position of the attempt, on the configurations array and on the result
    only: not on the counters, the failure flag, the heap or the log, that
    is, not on what earlier attempts did. *)
Theorem verdict_ignores_state (args : Args) (allRunOptions : list nat)
    (k n : nat) (testResults : Res.t) (st1 st2 : State) :
  snd (onTestResults args allRunOptions k n testResults st1) =
  snd (onTestResults args allRunOptions k n testResults st2).
Proof.
  unfold onTestResults, rerunStep, failedStatusStep, verdictStep,
    body, seq, when, exec, ret, skip.
  destruct (rerunFailedOnly args), (isLastRun k n), (Res.runs testResults) as [runs |],
    (isFailedStatus _), (truthyNum (Res.failures testResults)), (forceContinue args),
    (untilPasses args), (truthyNum (Res.totalFailed testResults)),
    (Z.of_nat k =? Z.of_nat n - 1); simpl; try reflexivity;
    destruct (negb (String.length (failedSpecsOf runs) =? 0)%nat); simpl; try reflexivity;
    destruct (allRunOptions !! S k); reflexivity.
Qed.

(** ** One turn of the loop, case by case *)

Section Turns.

Variable args : Args.
Variable cypressRun : nat -> heap -> nat -> RunOutcome.

(** X9.  When the rerun block does not apply and the result is that of a
    crashed run, without [--force] the attempt prints the message of the
    result, sets the failure flag and rejects with 'Test results indicate
    failures': the later configurations are not run, the heap is untouched
    and the mode flags and test counts of the result play no part. *)
Theorem crashed_run_stops (all : list nat) (n k c : nat) (rest : list nat)
    (st : State) (r : Res.t) :
  cypressRun k (theHeap st) c = RunResolved r ->
  crashed r = true ->
  forceContinue args = false ->
  rerunFailedOnly args && negb (isLastRun k n) = false ->
  exists st',
    mapSeriesFrom args cypressRun all n k (c :: rest) st =
      (st', Rejected (Err "Test results indicate failures")) /\
    log st' = log st ++
      [LogAttempt (Z.of_nat k + 1) (Z.of_nat n); CypressRun k c (RunResolved r);
       ErrMessage (Res.message r)] /\
    anyTestFailed st' = true /\
    theHeap st' = theHeap st.
Proof.
  intros Hrun Hcr Hforce Hre.
  rewrite (mapSeriesFrom_resolved args cypressRun all n k c rest st r Hrun).
  unfold crashed in Hcr. apply andb_true_iff in Hcr as [Hs Hf].
  unfold onTestResults, rerunStep, failedStatusStep, body, seq, when, exec, ret, skip.
  rewrite Hre, Hs, Hf, Hforce. simpl.
  eexists. split; [reflexivity |]. simpl.
  by rewrite <- !app_assoc.
Qed.

(** X10.  With [--rerun-failed-only], a result without [runs] at an attempt
    that is not the last makes [testResults.runs.filter] throw: the loop is
    rejected with a TypeError right after the counters are updated, nothing
    is printed for the attempt, and the failure flag is not set even when
    the result is that of a crashed run. *)
Theorem missing_runs_rejects (all : list nat) (n k c : nat) (rest : list nat)
    (st : State) (r : Res.t) :
  cypressRun k (theHeap st) c = RunResolved r ->
  rerunFailedOnly args = true ->
  isLastRun k n = false ->
  Res.runs r = None ->
  exists st',
    mapSeriesFrom args cypressRun all n k (c :: rest) st = (st', Rejected TypeErr) /\
    log st' = log st ++
      [LogAttempt (Z.of_nat k + 1) (Z.of_nat n); CypressRun k c (RunResolved r)] /\
    anyTestFailed st' = anyTestFailed st /\
    theHeap st' = theHeap st /\
    totalTests st' = add (totalTests st) (orZero (Res.totalTests r)).
Proof.
  intros Hrun Hre Hlast Hruns.
  rewrite (mapSeriesFrom_resolved args cypressRun all n k c rest st r Hrun).
  unfold onTestResults, rerunStep, body, seq, when, exec, ret, skip.
  rewrite Hre, Hlast, Hruns. simpl.
  eexists. split; [reflexivity |]. simpl.
  by rewrite <- !app_assoc.
Qed.

(** X11.  In the default mode without [--force], a completed run with
    failed tests ends the loop when the rerun block does not apply: it
    prints that the run failed and rejects with 'Failures detected and
    conditions met'.  The failure flag is left as it was. *)
Theorem failed_run_stops (all : list nat) (n k c : nat) (rest : list nat)
    (st : State) (r : Res.t) :
  cypressRun k (theHeap st) c = RunResolved r ->
  untilPasses args = false ->
  forceContinue args = false ->
  rerunFailedOnly args && negb (isLastRun k n) = false ->
  crashed r = false ->
  truthyNum (Res.totalFailed r) = true ->
  exists st',
    mapSeriesFrom args cypressRun all n k (c :: rest) st =
      (st', Rejected (Err "Failures detected and conditions met")) /\
    log st' = log st ++
      [LogAttempt (Z.of_nat k + 1) (Z.of_nat n); CypressRun k c (RunResolved r);
       ErrRunFailed (Z.of_nat k + 1) (Z.of_nat n)] /\
    anyTestFailed st' = anyTestFailed st /\
    theHeap st' = theHeap st.
Proof.
  intros Hrun Hun Hforce Hre Hcr Hfail.
  rewrite (mapSeriesFrom_resolved args cypressRun all n k c rest st r Hrun).
  unfold crashed in Hcr.
  assert (rerunFailedOnly args = false \/ isLastRun k n = true) as Hcase.
  { destruct (rerunFailedOnly args), (isLastRun k n); simpl in Hre; auto. }
  unfold onTestResults, rerunStep, failedStatusStep, verdictStep,
    body, seq, when, exec, ret, skip.
  rewrite Hre, Hun, Hforce, Hfail.
  destruct (isFailedStatus (Res.status r)), (truthyNum (Res.failures r));
    try discriminate; simpl;
    (destruct Hcase as [-> | ->]; simpl; rewrite ?orb_true_r; simpl;
     eexists; (split; [reflexivity |]); simpl; by rewrite <- !app_assoc).
Qed.

(** X12.  With [--rerun-failed-only] in the default mode, a completed run
    with failed spec files at an attempt that is not the last does not end
    the loop, with or without [--force]: the failed specs are printed, the
    failed run is reported when the result counts failed tests, and the
    next attempt starts; Cypress is then called on the heap in which the
    [spec] of the next configuration is the list of failed specs. *)
Theorem failed_specs_rerun_next (all : list nat) (n k c c' : nat) (rest : list nat)
    (st : State) (r : Res.t) (runs : list RunEntry) :
  cypressRun k (theHeap st) c = RunResolved r ->
  rerunFailedOnly args = true ->
  untilPasses args = false ->
  isLastRun k n = false ->
  Res.runs r = Some runs ->
  failedSpecsOf runs <> "" ->
  all !! S k = Some c' ->
  crashed r = false ->
  exists tail,
    log (fst (mapSeriesFrom args cypressRun all n k (c :: c' :: rest) st)) =
    log st ++
      [LogAttempt (Z.of_nat k + 1) (Z.of_nat n); CypressRun k c (RunResolved r);
       LogFailedSpecs (failedSpecsOf runs)] ++
      (if truthyNum (Res.totalFailed r)
       then [ErrRunFailed (Z.of_nat k + 1) (Z.of_nat n)] else []) ++
      [LogAttempt (Z.of_nat (S k) + 1) (Z.of_nat n);
       CypressRun (S k) c'
         (cypressRun (S k)
            (writeField (theHeap st) c' "spec" (VStr (failedSpecsOf runs))) c')] ++
      tail.
Proof.
  intros Hrun Hre Hun Hlast Hruns Hne Hnext Hcr.
  rewrite (mapSeriesFrom_resolved args cypressRun all n k c (c' :: rest) st r Hrun).
  assert ((String.length (failedSpecsOf runs) =? 0)%nat = false) as Hlen.
  { apply Nat.eqb_neq. destruct (failedSpecsOf runs); [done | simpl; lia]. }
  unfold crashed in Hcr.
  set (st0 := emit (CypressRun k c (RunResolved r))
                (emit (LogAttempt (Z.of_nat k + 1) (Z.of_nat n)) st)).
  set (st1 := setHeap (writeField (theHeap st) c' "spec" (VStr (failedSpecsOf runs)))
                (emit (LogFailedSpecs (failedSpecsOf runs)) (updateTotals r st0))).
  assert (onTestResults args all k n r st0 =
            (if truthyNum (Res.totalFailed r)
             then emit (ErrRunFailed (Z.of_nat k + 1) (Z.of_nat n)) st1 else st1,
             Fulfilled)) as Hstep.
  { unfold onTestResults, rerunStep, failedStatusStep, verdictStep,
      body, seq, when, exec, ret, skip.
    rewrite Hre, Hun, Hlast, Hruns, Hlen, Hnext. simpl.
    destruct (isFailedStatus (Res.status r)), (truthyNum (Res.failures r));
      try discriminate; simpl;
      destruct (truthyNum (Res.totalFailed r)), (forceContinue args); reflexivity. }
  rewrite Hstep.
  match goal with
  | |- context [mapSeriesFrom _ _ _ _ _ _ ?s] =>
      destruct (mapSeriesFrom_log_head args cypressRun all n (S k) c' rest s)
        as (tail & Htail)
  end.
  exists tail. rewrite Htail.
  destruct (truthyNum (Res.totalFailed r)); simpl; by rewrite <- !app_assoc.
Qed.

End Turns.

Lemma crashed_run_stops_witness :
  exists st',
    mapSeriesFrom sampleArgs alwaysCrashed [1; 2; 3]%nat 3 0 (1 :: [2; 3])%nat
      (initial threeConfigs) =
      (st', Rejected (Err "Test results indicate failures")) /\
    log st' = log (initial threeConfigs) ++
      [LogAttempt (Z.of_nat 0 + 1) (Z.of_nat 3);
       CypressRun 0 1 (RunResolved crashedResult);
       ErrMessage (Res.message crashedResult)] /\
    anyTestFailed st' = true /\
    theHeap st' = theHeap (initial threeConfigs).
Proof.
  apply (crashed_run_stops sampleArgs alwaysCrashed [1; 2; 3]%nat 3 0 1 [2; 3]%nat
           (initial threeConfigs) crashedResult); reflexivity.
Defined.

Lemma missing_runs_rejects_witness :
  exists st',
    mapSeriesFrom rerunForceArgs alwaysCrashed [1; 2; 3]%nat 3 0 (1 :: [2; 3])%nat
      (initial threeConfigs) = (st', Rejected TypeErr) /\
    log st' = log (initial threeConfigs) ++
      [LogAttempt (Z.of_nat 0 + 1) (Z.of_nat 3);
       CypressRun 0 1 (RunResolved crashedResult)] /\
    anyTestFailed st' = anyTestFailed (initial threeConfigs) /\
    theHeap st' = theHeap (initial threeConfigs) /\
    totalTests st' =
      add (totalTests (initial threeConfigs)) (orZero (Res.totalTests crashedResult)).
Proof.
  apply (missing_runs_rejects rerunForceArgs alwaysCrashed [1; 2; 3]%nat 3 0 1
           [2; 3]%nat (initial threeConfigs) crashedResult); reflexivity.
Defined.

Lemma failed_run_stops_witness :
  exists st',
    mapSeriesFrom sampleArgs alwaysFailing [1; 2; 3]%nat 3 0 (1 :: [2; 3])%nat
      (initial threeConfigs) =
      (st', Rejected (Err "Failures detected and conditions met")) /\
    log st' = log (initial threeConfigs) ++
      [LogAttempt (Z.of_nat 0 + 1) (Z.of_nat 3);
       CypressRun 0 1 (RunResolved failingResult);
       ErrRunFailed (Z.of_nat 0 + 1) (Z.of_nat 3)] /\
    anyTestFailed st' = anyTestFailed (initial threeConfigs) /\
    theHeap st' = theHeap (initial threeConfigs).
Proof.
  apply (failed_run_stops sampleArgs alwaysFailing [1; 2; 3]%nat 3 0 1 [2; 3]%nat
           (initial threeConfigs) failingResult); reflexivity.
Defined.

Lemma failed_specs_rerun_next_witness :
  exists tail,
    log (fst (mapSeriesFrom rerunArgs alwaysFailing [1; 2; 3]%nat 3 0
                (1 :: 2 :: [3])%nat (initial threeConfigs))) =
    log (initial threeConfigs) ++
      [LogAttempt (Z.of_nat 0 + 1) (Z.of_nat 3);
       CypressRun 0 1 (RunResolved failingResult);
       LogFailedSpecs
         (failedSpecsOf
            [mkRunEntry 0 "cypress/e2e/a.cy.js"; mkRunEntry 1 "cypress/e2e/b.cy.js";
             mkRunEntry 1 "cypress/e2e/c.cy.js"])] ++
      (if truthyNum (Res.totalFailed failingResult)
       then [ErrRunFailed (Z.of_nat 0 + 1) (Z.of_nat 3)] else []) ++
      [LogAttempt (Z.of_nat 1 + 1) (Z.of_nat 3);
       CypressRun 1 2
         (alwaysFailing 1%nat
            (writeField (theHeap (initial threeConfigs)) 2 "spec"
               (VStr (failedSpecsOf
                        [mkRunEntry 0 "cypress/e2e/a.cy.js";
                         mkRunEntry 1 "cypress/e2e/b.cy.js";
                         mkRunEntry 1 "cypress/e2e/c.cy.js"]))) 2%nat)] ++
      tail.
Proof.
  apply (failed_specs_rerun_next rerunArgs alwaysFailing [1; 2; 3]%nat 3 0 1 2 [3%nat]
           (initial threeConfigs) failingResult
           [mkRunEntry 0 "cypress/e2e/a.cy.js"; mkRunEntry 1 "cypress/e2e/b.cy.js";
            mkRunEntry 1 "cypress/e2e/c.cy.js"]);
    try reflexivity.
  vm_compute. discriminate.
Defined.

(** ** Loops that visit every configuration *)

Section Through.

Variable args : Args.
Variable cypressRun : nat -> heap -> nat -> RunOutcome.

Section Visit.

(** What is known of the failure flag from one state to a later one. *)
Variable R : bool -> bool -> Prop.
Hypothesis R_refl : forall b, R b b.
Hypothesis R_trans : forall a b c, R a b -> R b c -> R a c.

(** When every attempt but the last is fulfilled, the loop visits all the
    configurations and settles as the last attempt does. *)
Lemma mapSeriesFrom_through (all : list nat) (sLast : Settled) k items st :
  drop k all = items ->
  (forall k' c0 st0, (k' < length all)%nat ->
     exists r, cypressRun k' (theHeap st0) c0 = RunResolved r /\
       forall st1,
         snd (onTestResults args all k' (length all) r st1) =
           (if isLastRun k' (length all) then sLast else Fulfilled) /\
         R (anyTestFailed st1)
           (anyTestFailed (fst (onTestResults args all k' (length all) r st1)))) ->
  attempts (log (fst (mapSeriesFrom args cypressRun all (length all) k items st))) =
    attempts (log st) ++ List.seq k (length items) /\
  snd (mapSeriesFrom args cypressRun all (length all) k items st) =
    match items with [] => Fulfilled | _ => sLast end /\
  R (anyTestFailed st)
    (anyTestFailed (fst (mapSeriesFrom args cypressRun all (length all) k items st))).
Proof.
  intros Hdrop Hstep. revert k st Hdrop.
  induction items as [| c rest IH]; intros k st Hdrop.
  - simpl. rewrite app_nil_r. by repeat split.
  - assert (k < length all)%nat as Hk.
    { destruct (decide (k < length all)%nat) as [| Hge]; [done |].
      rewrite drop_ge in Hdrop by lia. discriminate. }
    assert (drop (S k) all = rest) as Hrest.
    { replace (S k) with (k + 1)%nat by lia.
      by rewrite <- (drop_drop all 1 k), Hdrop. }
    assert (length rest = (length all - S k)%nat) as Hlen.
    { by rewrite <- Hrest, length_drop. }
    destruct (Hstep k c st Hk) as (r & Hrun & Hturn).
    rewrite (mapSeriesFrom_resolved args cypressRun all _ k c rest st r Hrun).
    set (st0 := emit (CypressRun k c (RunResolved r))
                  (emit (LogAttempt (Z.of_nat k + 1) (Z.of_nat (length all))) st)).
    destruct (Hturn st0) as [Hs Hflag].
    destruct (onTestResults_log args all k (length all) r st0) as (l & L & Q).
    destruct (omap_quiet l Q) as (_ & _ & _ & La).
    assert (attempts (log (fst (onTestResults args all k (length all) r st0))) =
            attempts (log st) ++ [k]) as Hatt.
    { unfold attempts in *. rewrite L. unfold st0. simpl.
      rewrite !omap_app, La. simpl. by rewrite !app_nil_r. }
    destruct (onTestResults args all k (length all) r st0) as [st2 s] eqn:E.
    simpl in Hs, Hflag, Hatt. subst s.
    destruct (isLastRun k (length all)) eqn:Hl.
    + assert (rest = []) as ->.
      { apply nil_length_inv. unfold isLastRun in Hl. apply Z.eqb_eq in Hl. lia. }
      destruct sLast as [| e]; simpl; rewrite Hatt; by repeat split.
    + destruct (IH (S k) st2 Hrest) as (IHa & IHs & IHf).
      rewrite IHa, IHs, Hatt. simpl. rewrite <- app_assoc. simpl.
      split; [done |]. split.
      * destruct rest; [| done].
        unfold isLastRun in Hl. apply Z.eqb_neq in Hl. simpl in Hlen. lia.
      * exact (R_trans _ _ _ Hflag IHf).
Qed.

End Visit.

(** A failing attempt of [--until-passes] is fulfilled unless it is the
    last. *)
Lemma until_passes_failing_turn (all : list nat) k r st :
  (k < length all)%nat ->
  untilPasses args = true ->
  truthyNum (Res.totalFailed r) = true ->
  crashed r = false ->
  (rerunFailedOnly args = true -> Res.runs r <> None) ->
  snd (onTestResults args all k (length all) r st) =
    (if isLastRun k (length all)
     then if forceContinue args then Fulfilled
          else Rejected (Err "No more attempts left")
     else Fulfilled) /\
  anyTestFailed (fst (onTestResults args all k (length all) r st)) = anyTestFailed st.
Proof.
  intros Hk Hun Hfail Hcr Hruns. unfold crashed in Hcr.
  pose proof (not_last_has_next all k Hk) as Hnext.
  unfold onTestResults, rerunStep, failedStatusStep, verdictStep,
    body, seq, when, exec, ret, skip.
  unfold isLastRun in *. rewrite Hun, Hfail.
  destruct (Z.of_nat k =? Z.of_nat (length all) - 1) eqn:Hl;
    destruct (rerunFailedOnly args); simpl;
    destruct (isFailedStatus (Res.status r)), (truthyNum (Res.failures r));
    try discriminate; simpl;
    try (destruct (forceContinue args); by simpl);
    (destruct (Res.runs r) as [runs |]; [| by destruct Hruns]);
    (destruct (Hnext eq_refl) as (next & ->));
    destruct (negb (String.length (failedSpecsOf runs) =? 0)%nat); simpl;
    destruct (forceContinue args); by simpl.
Qed.

(** A passing attempt of the default mode is fulfilled. *)
Lemma default_passing_turn (all : list nat) k r st :
  (k < length all)%nat ->
  untilPasses args = false ->
  truthyNum (Res.totalFailed r) = false ->
  crashed r = false ->
  (rerunFailedOnly args = true -> Res.runs r <> None) ->
  snd (onTestResults args all k (length all) r st) = Fulfilled /\
  anyTestFailed (fst (onTestResults args all k (length all) r st)) = anyTestFailed st.
Proof.
  intros Hk Hun Hfail Hcr Hruns. unfold crashed in Hcr.
  pose proof (not_last_has_next all k Hk) as Hnext.
  unfold onTestResults, rerunStep, failedStatusStep, verdictStep,
    body, seq, when, exec, ret, skip.
  unfold isLastRun in *. rewrite Hun, Hfail.
  destruct (Z.of_nat k =? Z.of_nat (length all) - 1) eqn:Hl;
    destruct (rerunFailedOnly args); simpl;
    destruct (isFailedStatus (Res.status r)), (truthyNum (Res.failures r));
    try discriminate; simpl; try done;
    (destruct (Res.runs r) as [runs |]; [| by destruct Hruns]);
    (destruct (Hnext eq_refl) as (next & ->));
    destruct (negb (String.length (failedSpecsOf runs) =? 0)%nat); simpl;
    destruct (forceContinue args); by simpl.
Qed.

(** With [--force] an attempt of the default mode is fulfilled. *)
Lemma default_force_turn (all : list nat) k r st :
  (k < length all)%nat ->
  untilPasses args = false ->
  forceContinue args = true ->
  (rerunFailedOnly args = true -> Res.runs r <> None) ->
  snd (onTestResults args all k (length all) r st) = Fulfilled.
Proof.
  intros Hk Hun Hforce Hruns.
  pose proof (not_last_has_next all k Hk) as Hnext.
  unfold onTestResults, rerunStep, failedStatusStep, verdictStep,
    body, seq, when, exec, ret, skip.
  unfold isLastRun in *. rewrite Hun, Hforce.
  destruct (Z.of_nat k =? Z.of_nat (length all) - 1) eqn:Hl;
    destruct (rerunFailedOnly args); simpl;
    try (destruct (isFailedStatus (Res.status r)), (truthyNum (Res.failures r)),
           (truthyNum (Res.totalFailed r)); by simpl);
    (destruct (Res.runs r) as [runs |]; [| by destruct Hruns]);
    (destruct (Hnext eq_refl) as (next & ->));
    destruct (negb (String.length (failedSpecsOf runs) =? 0)%nat); simpl;
    destruct (isFailedStatus (Res.status r)), (truthyNum (Res.failures r)),
      (truthyNum (Res.totalFailed r)); by simpl.
Qed.

End Through.

Section ThroughMain.

Variable args : Args.
Variable cypressRun : nat -> heap -> nat -> RunOutcome.
Variable writeFileOk : bool.

Variable R : bool -> bool -> Prop.
Hypothesis R_refl : forall b, R b b.
Hypothesis R_trans : forall a b c, R a b -> R b c -> R a c.

(** The whole script when every attempt but the last is fulfilled. *)
Lemma main_through (sLast : Settled) h options all h' :
  buildAllRunOptions args options h = Some (all, h') ->
  0 < repeatNtimes args ->
  (forall k' c0 st0, (k' < length all)%nat ->
     exists r, cypressRun k' (theHeap st0) c0 = RunResolved r /\
       forall st1,
         snd (onTestResults args all k' (length all) r st1) =
           (if isLastRun k' (length all) then sLast else Fulfilled) /\
         R (anyTestFailed st1)
           (anyTestFailed (fst (onTestResults args all k' (length all) r st1)))) ->
  let st := main args cypressRun writeFileOk (ParseResolved h options) in
  attempts (log st) = List.seq 0 (Z.to_nat (repeatNtimes args)) /\
  snd (chain args cypressRun (ParseResolved h options)) = sLast /\
  R false (anyTestFailed st).
Proof.
  intros Hb Hpos Hstep st.
  pose proof (buildLoop_length args _ _ _ _ _ _ _ Hb) as Hlen. simpl in Hlen.
  destruct (mapSeriesFrom_through args cypressRun R R_refl R_trans all sLast 0 all
              (initial h') (drop_0 all) Hstep) as (Hatt & Hs & Hflag).
  destruct (main_attempts args cypressRun writeFileOk (ParseResolved h options))
    as [Hma _].
  destruct (main_parts args cypressRun writeFileOk (ParseResolved h options))
    as (stc & s & Hc & Hlog & Hmf & _).
  assert (chain args cypressRun (ParseResolved h options) =
          mapSeriesFrom args cypressRun all (length all) 0 all (initial h')) as Hchain.
  { unfold chain. by rewrite Hb. }
  rewrite Hchain in *. rewrite Hc in *. simpl in Hatt, Hs, Hflag, Hma.
  split; [| split].
  - unfold st. by rewrite Hma, Hatt, Hlen.
  - simpl. rewrite Hs. destruct all; [simpl in Hlen; lia | done].
  - unfold st. by rewrite Hmf.
Qed.

(** What the summary block and the error block print after the loop. *)
Lemma main_report h options s :
  snd (chain args cypressRun (ParseResolved h options)) = s ->
  let st := main args cypressRun writeFileOk (ParseResolved h options) in
  errors (log st) = match s with Fulfilled => [] | Rejected e => [e] end /\
  (anyTestFailed st = false ->
   LogFinished (repeatNtimes args) ∈ log st /\
   (s = Fulfilled -> last (log st) = Some (LogFinished (repeatNtimes args)))).
Proof.
  intros Hs st.
  destruct (main_parts args cypressRun writeFileOk (ParseResolved h options))
    as (stc & s' & Hc & Hlog & Hmf & _).
  pose proof (chain_loopEvents args cypressRun (ParseResolved h options)) as Hloop.
  rewrite Hc in Hs, Hloop. simpl in Hs, Hloop. subst s'.
  destruct (loopEvents_errors _ Hloop) as [He _].
  split.
  - unfold st. rewrite Hlog. unfold errors in *. rewrite omap_app, He.
    destruct writeFileOk, (anyTestFailed stc), s, (forceContinue args); reflexivity.
  - unfold st. rewrite Hmf. intros Hflag. rewrite Hflag in Hlog. split.
    + rewrite Hlog, !elem_of_app. right. right. left.
      apply list_elem_of_In. simpl. tauto.
    + intros ->. rewrite Hlog, app_nil_r, !app_assoc. apply last_snoc.
Qed.

End ThroughMain.

(** X13.  With [--until-passes], when every run completes with failed
    tests, Cypress is run for all the N configurations in order; the script
    then ends with the error 'No more attempts left', or without error
    under [--force].  Either way the failure flag stays unset and the
    summary block reports a successful finish. *)
Theorem until_passes_exhausts (args : Args)
    (cypressRun : nat -> heap -> nat -> RunOutcome) (writeFileOk : bool)
    (h : heap) (options : nat) (all : list nat) (h' : heap) :
  buildAllRunOptions args options h = Some (all, h') ->
  0 < repeatNtimes args ->
  untilPasses args = true ->
  (forall k h0 c, exists r,
     cypressRun k h0 c = RunResolved r /\
     truthyNum (Res.totalFailed r) = true /\ crashed r = false /\
     (rerunFailedOnly args = true -> Res.runs r <> None)) ->
  let st := main args cypressRun writeFileOk (ParseResolved h options) in
  attempts (log st) = List.seq 0 (Z.to_nat (repeatNtimes args)) /\
  errors (log st) =
    (if forceContinue args then [] else [Err "No more attempts left"]) /\
  anyTestFailed st = false /\
  LogFinished (repeatNtimes args) ∈ log st.
Proof.
  intros Hb Hpos Hun Hruns st.
  destruct (main_through args cypressRun writeFileOk eq
              (fun b => eq_refl) (fun a b c => @eq_trans bool a b c)
              (if forceContinue args then Fulfilled
               else Rejected (Err "No more attempts left"))
              h options all h' Hb Hpos) as (Hatt & Hs & Hflag).
  { intros k' c0 st0 Hk.
    destruct (Hruns k' (theHeap st0) c0) as (r & Hrun & Hfail & Hcr & Hr).
    exists r. split; [done |]. intros st1.
    destruct (until_passes_failing_turn args all k' r st1 Hk Hun Hfail Hcr Hr)
      as [-> ->]. by split. }
  destruct (main_report args cypressRun writeFileOk h options _ Hs) as [He Hfin].
  split; [exact Hatt |]. split; [| split; [done | by apply Hfin]].
  fold st in He. rewrite He. by destruct (forceContinue args).
Qed.

Lemma until_passes_exhausts_witness :
  let st := main untilArgs alwaysFailing true (ParseResolved sampleHeap sampleOptions) in
  attempts (log st) = List.seq 0 (Z.to_nat (repeatNtimes untilArgs)) /\
  errors (log st) =
    (if forceContinue untilArgs then [] else [Err "No more attempts left"]) /\
  anyTestFailed st = false /\
  LogFinished (repeatNtimes untilArgs) ∈ log st.
Proof.
  refine (until_passes_exhausts untilArgs alwaysFailing true sampleHeap sampleOptions
            _ _ _ _ _ _).
  - vm_compute. reflexivity.
  - reflexivity.
  - reflexivity.
  - intros k h0 c. exists failingResult. by repeat split.
Defined.

(** X14.  In the default mode, when every run completes without failed
    tests, Cypress is run for all the N configurations in order, no error
    is printed, the failure flag stays unset and the script ends on the
    report of a successful finish. *)
Theorem passing_runs_all_attempts (args : Args)
    (cypressRun : nat -> heap -> nat -> RunOutcome) (writeFileOk : bool)
    (h : heap) (options : nat) (all : list nat) (h' : heap) :
  buildAllRunOptions args options h = Some (all, h') ->
  0 < repeatNtimes args ->
  untilPasses args = false ->
  (forall k h0 c, exists r,
     cypressRun k h0 c = RunResolved r /\
     truthyNum (Res.totalFailed r) = false /\ crashed r = false /\
     (rerunFailedOnly args = true -> Res.runs r <> None)) ->
  let st := main args cypressRun writeFileOk (ParseResolved h options) in
  attempts (log st) = List.seq 0 (Z.to_nat (repeatNtimes args)) /\
  errors (log st) = [] /\
  anyTestFailed st = false /\
  last (log st) = Some (LogFinished (repeatNtimes args)).
Proof.
  intros Hb Hpos Hun Hruns st.
  destruct (main_through args cypressRun writeFileOk eq
              (fun b => eq_refl) (fun a b c => @eq_trans bool a b c) Fulfilled
              h options all h' Hb Hpos) as (Hatt & Hs & Hflag).
  { intros k' c0 st0 Hk.
    destruct (Hruns k' (theHeap st0) c0) as (r & Hrun & Hfail & Hcr & Hr).
    exists r. split; [done |]. intros st1.
    destruct (default_passing_turn args all k' r st1 Hk Hun Hfail Hcr Hr) as [-> ->].
    by destruct (isLastRun k' (length all)). }
  destruct (main_report args cypressRun writeFileOk h options _ Hs) as [He Hfin].
  split; [exact Hatt |]. split; [exact He |]. split; [done |].
  by apply Hfin.
Qed.

Lemma passing_runs_all_attempts_witness :
  let st := main sampleArgs alwaysPassing true (ParseResolved sampleHeap sampleOptions) in
  attempts (log st) = List.seq 0 (Z.to_nat (repeatNtimes sampleArgs)) /\
  errors (log st) = [] /\
  anyTestFailed st = false /\
  last (log st) = Some (LogFinished (repeatNtimes sampleArgs)).
Proof.
  refine (passing_runs_all_attempts sampleArgs alwaysPassing true sampleHeap
            sampleOptions _ _ _ _ _ _).
  - vm_compute. reflexivity.
  - reflexivity.
  - reflexivity.
  - intros k h0 c. exists passingResult. by repeat split.
Defined.

(** ** What the loop writes *)

Section Frame.

Variable args : Args.
Variable cypressRun : nat -> heap -> nat -> RunOutcome.

(** Without [--rerun-failed-only] an attempt leaves the heap as it is. *)
Lemma onTestResults_heap all k n r st :
  rerunFailedOnly args = false ->
  theHeap (fst (onTestResults args all k n r st)) = theHeap st.
Proof.
  intros Hre.
  unfold onTestResults, rerunStep, failedStatusStep, verdictStep,
    body, seq, when, exec, ret, skip.
  rewrite Hre. simpl.
  destruct (isFailedStatus (Res.status r)), (truthyNum (Res.failures r)),
    (forceContinue args), (untilPasses args), (truthyNum (Res.totalFailed r)),
    (Z.of_nat k =? Z.of_nat n - 1), (isLastRun k n); reflexivity.
Qed.

(** One turn of the loop, whatever Cypress settles with. *)
Lemma mapSeriesFrom_cons all n k c rest st :
  exists st1,
    theHeap st1 = theHeap st /\
    (fst (mapSeriesFrom args cypressRun all n k (c :: rest) st) = st1 \/
     (exists r, fst (mapSeriesFrom args cypressRun all n k (c :: rest) st) =
                  fst (mapSeriesFrom args cypressRun all n (S k) rest
                         (fst (onTestResults args all k n r st1)))) \/
     (exists r, fst (mapSeriesFrom args cypressRun all n k (c :: rest) st) =
                  fst (onTestResults args all k n r st1))).
Proof.
  cbn [mapSeriesFrom].
  set (st1 := emit (CypressRun k c _) _).
  exists st1. split; [done |].
  destruct (cypressRun k _ c) as [r | e]; [| by left].
  destruct (onTestResults args all k n r st1) as [st2 [| e]] eqn:E.
  - right. left. exists r. by rewrite E.
  - right. right. exists r. by rewrite E.
Qed.

End Frame.

(** X15.  The loop of attempts changes one thing in the heap: the [spec] of
    configurations of later attempts.  No object is allocated, the objects
    that are not configurations of a later attempt are kept, every property
    other than [spec] keeps its value in every object, and without
    [--rerun-failed-only] the heap is not changed at all. *)
Theorem loop_writes_only_spec (args : Args)
    (cypressRun : nat -> heap -> nat -> RunOutcome)
    (allRunOptions : list nat) (n k : nat) (items : list nat) (st : State) :
  let st' := fst (mapSeriesFrom args cypressRun allRunOptions n k items st) in
  length (theHeap st') = length (theHeap st) /\
  (forall l, (forall j, (k < j)%nat -> allRunOptions !! j <> Some l) ->
     theHeap st' !! l = theHeap st !! l) /\
  (forall l key, key <> "spec" ->
     readField (theHeap st') l key = readField (theHeap st) l key) /\
  (rerunFailedOnly args = false -> theHeap st' = theHeap st).
Proof.
  revert k st. induction items as [| c rest IH]; intros k st; [by repeat split |].
  cbv zeta.
  destruct (mapSeriesFrom_cons args cypressRun allRunOptions n k c rest st)
    as (st1 & Hh & [-> | [(r & ->) | (r & ->)]]).
  - rewrite Hh. by repeat split.
  - destruct (IH (S k) (fst (onTestResults args allRunOptions k n r st1)))
      as (L & A & B & C).
    destruct (onTestResults_patches args allRunOptions k n r st1) as (L1 & A1 & B1).
    rewrite <- Hh. split; [congruence |]. split; [| split].
    + intros l Hl. rewrite A by (intros j Hj; apply Hl; lia).
      apply A1. apply Hl. lia.
    + intros l key Hk. by rewrite B, B1.
    + intros Hre. rewrite (C Hre). by apply onTestResults_heap.
  - destruct (onTestResults_patches args allRunOptions k n r st1) as (L1 & A1 & B1).
    rewrite <- Hh. split; [done |]. split; [| split].
    + intros l Hl. apply A1. apply Hl. lia.
    + done.
    + intros Hre. by apply onTestResults_heap.
Qed.

(** ** Which configuration an attempt runs *)

Section Calls.

Variable args : Args.
Variable cypressRun : nat -> heap -> nat -> RunOutcome.
Variable writeFileOk : bool.

Lemma calls_none (l : list Event) :
  Forall (fun e => attemptOf e = None) l -> calls l = [].
Proof.
  induction 1 as [| e l He _ IH]; [done |].
  unfold calls in *. change (e :: l) with ([e] ++ l).
  rewrite omap_app, IH, app_nil_r. by destruct e.
Qed.

Lemma mapSeriesFrom_calls all n k items st :
  exists m, (m <= length items)%nat /\
    calls (log (fst (mapSeriesFrom args cypressRun all n k items st))) =
    calls (log st) ++ zip (List.seq k m) (take m items).
Proof.
  revert k st. induction items as [| c rest IH]; intros k st.
  - exists 0%nat. simpl. by rewrite app_nil_r.
  - assert (forall r, calls (log (fst (onTestResults args all k n r
              (emit (CypressRun k c (RunResolved r))
                 (emit (LogAttempt (Z.of_nat k + 1) (Z.of_nat n)) st))))) =
            calls (log st) ++ [(k, c)]) as Hturn.
    { intros r.
      destruct (onTestResults_log args all k n r
                  (emit (CypressRun k c (RunResolved r))
                     (emit (LogAttempt (Z.of_nat k + 1) (Z.of_nat n)) st)))
        as (l & -> & Q).
      assert (calls l = []) as Hl.
      { apply calls_none. eapply Forall_impl; [exact Q |]. by intros e (He & _). }
      unfold calls in *. cbn [log emit]. rewrite !omap_app, Hl. simpl.
      by rewrite app_nil_r, <- app_assoc. }
    cbn [mapSeriesFrom].
    change (theHeap (emit (LogAttempt (Z.of_nat k + 1) (Z.of_nat n)) st))
      with (theHeap st).
    destruct (cypressRun k (theHeap st) c) as [r | e].
    + specialize (Hturn r).
      destruct (onTestResults args all k n r _) as [st2 [| e]]; simpl in Hturn.
      * destruct (IH (S k) st2) as (m & Hm & Hc).
        exists (S m). split; [simpl; lia |].
        rewrite Hc, Hturn. simpl. by rewrite <- app_assoc.
      * exists 1%nat. split; [simpl; lia |]. simpl. rewrite Hturn.
        by destruct rest.
    + exists 1%nat. split; [simpl; lia |]. simpl.
      unfold calls. rewrite !omap_app. simpl. by rewrite app_nil_r.
Qed.

End Calls.

(** X16.  The calls of [cypress.run] of a whole run are made with the
    configurations that the build produced, in the order of the build and
    without gap: the attempt of index [k] runs the configuration built for
    [k], for the first [m] configurations. *)
Theorem attempt_runs_its_configuration (args : Args)
    (cypressRun : nat -> heap -> nat -> RunOutcome) (writeFileOk : bool)
    (h : heap) (options : nat) (allRunOptions : list nat) (h' : heap) :
  buildAllRunOptions args options h = Some (allRunOptions, h') ->
  exists m, (m <= length allRunOptions)%nat /\
    calls (log (main args cypressRun writeFileOk (ParseResolved h options))) =
      zip (List.seq 0 m) (take m allRunOptions) /\
    forall k c, (k, c) ∈ calls (log (main args cypressRun writeFileOk
                                      (ParseResolved h options))) ->
      allRunOptions !! k = Some c.
Proof.
  intros Hb.
  destruct (main_parts args cypressRun writeFileOk (ParseResolved h options))
    as (st & s & Hc & Hlog & _).
  unfold chain in Hc. rewrite Hb in Hc. unfold mapSeries in Hc.
  destruct (mapSeriesFrom_calls args cypressRun allRunOptions (length allRunOptions)
              0 allRunOptions (initial h')) as (m & Hm & Hcalls).
  rewrite Hc in Hcalls. simpl in Hcalls.
  assert (calls (log (main args cypressRun writeFileOk (ParseResolved h options))) =
          zip (List.seq 0 m) (take m allRunOptions)) as Hmain.
  { rewrite Hlog. unfold calls in *. rewrite omap_app, Hcalls.
    destruct writeFileOk, (anyTestFailed st), s, (forceContinue args);
      simpl; by rewrite app_nil_r. }
  exists m. split; [done |]. split; [done |].
  intros k c Hin. rewrite Hmain in Hin.
  apply list_elem_of_lookup in Hin as [i Hi].
  apply lookup_zip_with_Some in Hi as (x & y & [= <- <-] & Hx & Hy).
  apply lookup_seq in Hx as [-> Hlt]. simpl.
  by rewrite lookup_take_lt in Hy.
Qed.

Lemma attempt_runs_its_configuration_witness :
  exists m, (m <= length [3; 5; 7]%nat)%nat /\
    calls (log (main sampleArgs alwaysPassing true
                  (ParseResolved sampleHeap sampleOptions))) =
      zip (List.seq 0 m) (take m [3; 5; 7]%nat) /\
    forall k c, (k, c) ∈ calls (log (main sampleArgs alwaysPassing true
                                      (ParseResolved sampleHeap sampleOptions))) ->
      [3; 5; 7]%nat !! k = Some c.
Proof.
  refine (attempt_runs_its_configuration sampleArgs alwaysPassing true sampleHeap
            sampleOptions [3; 5; 7]%nat _ _).
  vm_compute. reflexivity.
Defined.

(** ** Parsed options that cannot be copied *)

Section Circular.

Implicit Types (h : heap) (v : val).

(** Serialising a value serialises what is reached from it, with no more
    fuel. *)
Lemma stringify_reach h v l :
  reach h v l ->
  forall f r, stringify f h v = Some r ->
    exists f' r', (f' <= f)%nat /\ stringify f' h (VRef l) = Some r'.
Proof.
  induction 1 as [l | l o key v l' Ho Hin _ IH]; intros f r Hr.
  - by exists f, r.
  - destruct f as [| f]; [done |]. rewrite stringify_ref, Ho in Hr.
    destruct (serMembers (stringify f h) o) as [ms |] eqn:Hs; [| done].
    destruct (serMembers_Some _ _ _ _ _ Hs Hin) as (rv & Hrv).
    destruct (IH f rv Hrv) as (f' & r' & Hle & Hf').
    exists f', r'. split; [lia | done].
Qed.

(** An object on a cycle is not serialised, whatever the fuel. *)
Lemma onCycle_stringify h l f : onCycle h l -> stringify f h (VRef l) = None.
Proof.
  intros (o & key & v & Ho & Hin & Hreach).
  induction f as [f IH] using lt_wf_ind.
  destruct (stringify f h (VRef l)) as [r |] eqn:Hr; [| done]. exfalso.
  destruct f as [| f]; [done |]. rewrite stringify_ref, Ho in Hr.
  destruct (serMembers (stringify f h) o) as [ms |] eqn:Hs; [| done].
  destruct (serMembers_Some _ _ _ _ _ Hs Hin) as (rv & Hrv).
  destruct (stringify_reach h v l Hreach f rv Hrv) as (f' & r' & Hle & Hf').
  rewrite IH in Hf' by lia. done.
Qed.

Lemma cycle_clone h x l : reach h (VRef x) l -> onCycle h l -> clone h x = None.
Proof.
  intros Hreach Hcyc. unfold clone, view.
  destruct (stringify (length h) h (VRef x)) as [r |] eqn:Hr; [| done].
  destruct (stringify_reach h _ l Hreach _ r Hr) as (f' & r' & _ & Hf').
  by rewrite onCycle_stringify in Hf'.
Qed.

End Circular.

(** X17.  When the parsed options hold a cycle of references,
    [JSON.stringify] throws in the first turn of the build: for a positive
    repeat count no configuration is built, Cypress is never called, the
    summary block prints the summary with all counts 0 and reports a
    successful finish, and the error block prints the TypeError. *)
Theorem circular_options_rejected (args : Args)
    (cypressRun : nat -> heap -> nat -> RunOutcome) (writeFileOk : bool)
    (h : heap) (options l : nat) :
  reach h (VRef options) l ->
  onCycle h l ->
  0 < repeatNtimes args ->
  let st := main args cypressRun writeFileOk (ParseResolved h options) in
  buildAllRunOptions args options h = None /\
  attempts (log st) = [] /\
  summaries (log st) = [summaryText (Num 0) (Num 0) (Num 0) (Num 0)] /\
  LogFinished (repeatNtimes args) ∈ log st /\
  errors (log st) = [TypeErr].
Proof.
  intros Hreach Hcyc Hpos st.
  assert (buildAllRunOptions args options h = None) as Hb.
  { unfold buildAllRunOptions.
    destruct (Z.to_nat (repeatNtimes args)) as [| n] eqn:E; [lia |].
    simpl. unfold buildRunOptions. by rewrite (cycle_clone h options l). }
  split; [exact Hb |].
  unfold st, main, chain. rewrite Hb. unfold finallyHandler, catchHandler.
  destruct writeFileOk, (forceContinue args); simpl;
    (split; [reflexivity |]); (split; [reflexivity |]);
    (split; [| reflexivity]); apply list_elem_of_In; simpl; tauto.
Qed.

Lemma circular_options_rejected_witness :
  let st := main sampleArgs alwaysPassing true (ParseResolved circularHeap 0%nat) in
  buildAllRunOptions sampleArgs 0%nat circularHeap = None /\
  attempts (log st) = [] /\
  summaries (log st) = [summaryText (Num 0) (Num 0) (Num 0) (Num 0)] /\
  LogFinished (repeatNtimes sampleArgs) ∈ log st /\
  errors (log st) = [TypeErr].
Proof.
  refine (circular_options_rejected sampleArgs alwaysPassing true circularHeap
            0%nat 0%nat _ _ _).
  - apply reach_here.
  - exists [("spec", VStr "cypress/e2e/*.cy.js"); ("self", VRef 0)], "self", (VRef 0).
    split; [reflexivity |]. split; [| apply reach_here].
    apply elem_of_cons. right. apply elem_of_cons. by left.
  - reflexivity.
Defined.

(** ** The properties that the build injects *)

Section Members.

Implicit Types (h : heap) (o : obj) (v : val) (j : json).

Lemma alike_refl v : alike v v.
Proof. by destruct v. Qed.

Lemma alike_truthy v w : alike v w -> truthy v = truthy w.
Proof. destruct v, w; simpl; intros H; by try (injection H as ->); try discriminate. Qed.

Lemma alike_toString v w : alike v w -> toString v = toString w.
Proof. destruct v, w; simpl; intros H; by try (injection H as ->); try discriminate. Qed.

(** A property that an object lacks is not a member of its serialisation. *)
Lemma serMembers_absent (rec : val -> option (option json)) o ms key :
  key ∉ o.*1 -> serMembers rec o = Some ms -> jget key ms = None.
Proof.
  revert ms. induction o as [| [k v] r IH]; intros ms Hk; simpl.
  - by intros [= <-].
  - destruct (rec v) as [jv |]; [| done].
    destruct (serMembers rec r) as [js |]; [| done].
    intros [= <-]. simpl in Hk. apply not_elem_of_cons in Hk as [Hne Hk].
    assert (String.eqb k key = false) as E by (apply String.eqb_neq; congruence).
    destruct jv as [j |]; simpl; rewrite ?E; by apply IH.
Qed.

(** The member of a serialisation is the serialisation of the property. *)
Lemma serMembers_jget (rec : val -> option (option json)) o ms key :
  NoDup o.*1 -> rec VUndef = Some None -> serMembers rec o = Some ms ->
  rec (getProp key o) = Some (jget key ms).
Proof.
  intros Hnd Hu. revert ms. induction o as [| [k v] r IH]; intros ms; simpl.
  - by intros [= <-].
  - simpl in Hnd. apply NoDup_cons in Hnd as [Hk Hnd].
    destruct (rec v) as [jv |] eqn:Hv; [| done].
    destruct (serMembers rec r) as [js |] eqn:Hs; [| done].
    intros [= <-]. destruct (String.eqb k key) eqn:E.
    + apply String.eqb_eq in E as ->. rewrite Hv. f_equal.
      destruct jv as [j |]; simpl; [by rewrite String.eqb_refl |].
      symmetry. by eapply serMembers_absent.
    + rewrite (IH Hnd js eq_refl). f_equal.
      destruct jv as [j |]; simpl; by rewrite ?E.
Qed.

(** A property of a parsed object is the parse of the member of its name. *)
Lemma parseMembers_getProp key ms :
  forall h o h', parseMembers parse ms h = (o, h') ->
    match jget key ms with
    | None => getProp key o = VUndef
    | Some j => exists hj, getProp key o = fst (parse j hj)
    end.
Proof.
  induction ms as [| [k j] r IH]; intros h o h'; simpl.
  - by intros [= <- <-].
  - destruct (parse j h) as [v ha] eqn:Hp.
    destruct (parseMembers parse r ha) as [o' hb] eqn:Hm.
    intros [= <- <-]. simpl. destruct (String.eqb k key).
    + exists h. by rewrite Hp.
    + by apply (IH ha o' hb).
Qed.

Lemma stringify_parse_alike f h v j hj :
  stringify f h v = Some (Some j) -> alike (fst (parse j hj)) v.
Proof.
  destruct v as [| | b | z | s | l]; try (destruct f; simpl; intros [= <-]; done);
    try (destruct f; simpl; done).
  destruct f as [| f]; [done |]. rewrite stringify_ref.
  destruct (h !! l); [| done]. destruct (serMembers _ _) as [ms |]; [| done].
  intros [= <-]. simpl. by destruct (parseMembers parse ms hj).
Qed.

Lemma stringify_undef f h v : stringify f h v = Some None -> v = VUndef.
Proof.
  destruct v as [| | b | z | s | l]; try (by destruct f).
  destruct f as [| f]; [done |]. rewrite stringify_ref.
  destruct (h !! l); [| done]. by destruct (serMembers _ _).
Qed.

(** The copy has the properties of the original: the same primitive, or an
    object for an object. *)
Lemma clone_field h x o c hc key :
  h !! x = Some o -> NoDup o.*1 -> clone h x = Some (c, hc) ->
  alike (readField hc c key) (getProp key o).
Proof.
  intros Ho Hnd. unfold clone, view.
  destruct (length h) as [| f] eqn:El; [done |].
  rewrite stringify_ref, Ho.
  destruct (serMembers (stringify f h) o) as [ms |] eqn:Hs; [| done].
  simpl. destruct (parseMembers parse ms h) as [o' h1] eqn:Hm.
  intros [= <- <-].
  unfold readField. rewrite lookup_app_r by lia. rewrite Nat.sub_diag. simpl.
  assert (stringify f h VUndef = Some None) as Hu by (by destruct f).
  pose proof (serMembers_jget _ o ms key Hnd Hu Hs) as Hj.
  pose proof (parseMembers_getProp key ms h o' h1 Hm) as Hg.
  destruct (jget key ms) as [j |].
  - destruct Hg as (hj & ->). by eapply stringify_parse_alike.
  - rewrite Hg. apply stringify_undef in Hj. rewrite Hj. done.
Qed.

End Members.

Section Injected.

Variable args : Args.
Variables (h0 : heap) (options : nat) (ms : list (string * json)) (o : obj).

Hypothesis Hwf : closedBlock h0 0 (length h0).
Hypothesis Hview : view h0 (VRef options) = Some (Some (JObj ms)).
Hypothesis Hgroup : isPrim (readField h0 options "group").
Hypothesis Ho : h0 !! options = Some o.
Hypothesis Hnodup : NoDup o.*1.

(** The [env] and the [force] of one configuration, as the build leaves
    them. *)
Let injectedOk (h : heap) (k c : nat) : Prop :=
  readField h c "env" =
    VStr (if truthy (readField h0 options "env")
          then toString (readField h0 options "env") +:+ "," +:+
               "cypress_repeat_n=" +:+ showZ (repeatNtimes args) +:+
               ",cypress_repeat_k=" +:+ showZ (Z.of_nat k + 1)
          else "cypress_repeat_n=" +:+ showZ (repeatNtimes args) +:+
               ",cypress_repeat_k=" +:+ showZ (Z.of_nat k + 1)) /\
  (forceContinue args = true -> readField h c "force" = VBool true) /\
  (forceContinue args = false ->
   alike (readField h c "force") (readField h0 options "force")).

Lemma injectGroup_other h c k key :
  key <> "group" ->
  readField (injectGroup args options c k h) c key = readField h c key.
Proof.
  intros Hk. unfold injectGroup.
  destruct (truthy _ && truthy _); [| done].
  destruct (truthy _ && (1 <? _)); by rewrite ?readField_writeField_ne_key.
Qed.

Lemma injectGroup_length h c k :
  length (injectGroup args options c k h) = length h.
Proof.
  unfold injectGroup.
  destruct (truthy _ && truthy _); [| done].
  destruct (truthy _ && (1 <? _)); by rewrite ?writeField_length.
Qed.

Lemma buildRunOptions_injected k h c h' :
  extends h0 h ->
  buildRunOptions args options k h = Some (c, h') ->
  injectedOk h' k c.
Proof.
  intros Hext. unfold buildRunOptions.
  destruct (clone h options) as [[c0 hc] |] eqn:Hclone; [| done].
  intros [= -> <-].
  destruct (clone_spec h options (JObj ms)
              (view_extends args h0 options ms Hwf Hview h Hext))
    as (c1 & hc1 & Hclone1 & Hlen & _).
  rewrite Hclone in Hclone1. injection Hclone1 as <- <-.
  assert (h !! options = Some o) as Hoh.
  { destruct Hext as [_ Hag]. rewrite Hag; [done |]. by eapply lookup_lt_Some. }
  assert (forall key, alike (readField hc c key) (readField h0 options key)) as Hal.
  { intros key. unfold readField at 2. rewrite Ho.
    by apply (clone_field h options o c hc key). }
  set (h1 := injectEnv args c k hc).
  set (h2 := injectGroup args options c k h1).
  assert (length h1 = length hc) as L1 by apply writeField_length.
  assert (length h2 = length hc) as L2
    by (unfold h2; by rewrite injectGroup_length).
  assert (readField h2 c "env" =
          VStr (if truthy (readField h0 options "env")
                then toString (readField h0 options "env") +:+ "," +:+
                     "cypress_repeat_n=" +:+ showZ (repeatNtimes args) +:+
                     ",cypress_repeat_k=" +:+ showZ (Z.of_nat k + 1)
                else "cypress_repeat_n=" +:+ showZ (repeatNtimes args) +:+
                     ",cypress_repeat_k=" +:+ showZ (Z.of_nat k + 1))) as Henv.
  { unfold h2. rewrite injectGroup_other by done.
    unfold h1, injectEnv. rewrite readField_writeField_eq by lia.
    rewrite (alike_truthy _ _ (Hal "env")), (alike_toString _ _ (Hal "env")).
    by destruct (truthy _). }
  assert (readField h2 c "force" = readField hc c "force") as Hforce.
  { unfold h2. rewrite injectGroup_other by done.
    unfold h1, injectEnv. by rewrite readField_writeField_ne_key. }
  unfold injectedOk, injectForce. destruct (forceContinue args).
  - split; [by rewrite readField_writeField_ne_key |].
    split; [| done]. intros _. apply readField_writeField_eq. lia.
  - split; [done |]. split; [done |]. intros _. rewrite Hforce. apply Hal.
Qed.

Lemma buildLoop_injected count k h cs h1 :
  extends h0 h ->
  buildLoop args options count k h [] = Some (cs, h1) ->
  forall i c, cs !! i = Some c -> injectedOk h1 (k + i) c.
Proof.
  revert k h cs. induction count as [| n IH]; intros k h cs Hext; simpl.
  - by intros [= <- <-].
  - destruct (buildRunOptions_spec args h0 options ms Hwf Hview Hgroup k h Hext)
      as (c & h' & Hb & Hc & Hlen & Hag & _).
    rewrite Hb.
    assert (extends h0 h') as Hext'.
    { apply (extends_trans_below h0 h); [done | lia | done]. }
    destruct (buildLoop_spec args h0 options ms Hwf Hview Hgroup n (S k) h' Hext')
      as (cs' & h1' & Hloop & _ & _ & _ & Hag1 & _).
    rewrite buildLoop_acc, Hloop. intros [= <- <-].
    intros [| i] c' Hi; simpl in Hi.
    + injection Hi as <-. rewrite Nat.add_0_r.
      pose proof (buildRunOptions_injected k h c h' Hext Hb) as (He & Hf1 & Hf2).
      unfold injectedOk, readField in *. by rewrite !Hag1 by lia.
    + rewrite Nat.add_succ_r. by apply (IH (S k) h' cs' Hext' Hloop).
Qed.

End Injected.

(** X18.  Every configuration of the build carries the attempt in its
    [env]: the string 'cypress_repeat_n=N,cypress_repeat_k=k+1' for the
    attempt of index [k], alone when the [env] of the parsed options is
    falsy (absent, for one), and appended to it after a comma when it is
    truthy.  With [--force] every configuration has [force] true; without,
    [force] is as in the parsed options.  The parsed options are an object
    without repeated property, of a heap without dangling references, that
    [JSON.stringify] accepts. *)
Theorem env_and_force_injected (args : Args) (h0 : heap) (options : nat)
    (fuel : nat) (ms : list (string * json)) (o : obj) :
  closedBlock h0 0 (length h0) ->
  stringify fuel h0 (VRef options) = Some (Some (JObj ms)) ->
  isPrim (readField h0 options "group") ->
  h0 !! options = Some o ->
  NoDup o.*1 ->
  exists allRunOptions h1,
    buildAllRunOptions args options h0 = Some (allRunOptions, h1) /\
    forall k c, allRunOptions !! k = Some c ->
      readField h1 c "env" =
        VStr (if truthy (readField h0 options "env")
              then toString (readField h0 options "env") +:+ "," +:+
                   "cypress_repeat_n=" +:+ showZ (repeatNtimes args) +:+
                   ",cypress_repeat_k=" +:+ showZ (Z.of_nat k + 1)
              else "cypress_repeat_n=" +:+ showZ (repeatNtimes args) +:+
                   ",cypress_repeat_k=" +:+ showZ (Z.of_nat k + 1)) /\
      (forceContinue args = true -> readField h1 c "force" = VBool true) /\
      (forceContinue args = false ->
       alike (readField h1 c "force") (readField h0 options "force")).
Proof.
  intros Hwf Hfuel Hgroup Ho Hnd.
  pose proof (stringify_enough_fuel _ _ _ _ Hfuel) as Hview.
  fold (view h0 (VRef options)) in Hview.
  destruct (buildLoop_spec args h0 options ms Hwf Hview Hgroup
              (Z.to_nat (repeatNtimes args)) 0 h0 (extends_refl h0))
    as (cs & h1 & Hloop & _).
  exists cs, h1. split; [exact Hloop |].
  intros k c Hk.
  exact (buildLoop_injected args h0 options ms o Hwf Hview Hgroup Ho Hnd
           _ 0 h0 cs h1 (extends_refl h0) Hloop k c Hk).
Qed.

Lemma env_and_force_injected_witness :
  exists allRunOptions h1,
    buildAllRunOptions forceArgs 1%nat envHeap = Some (allRunOptions, h1) /\
    forall k c, allRunOptions !! k = Some c ->
      readField h1 c "env" =
        VStr (if truthy (readField envHeap 1 "env")
              then toString (readField envHeap 1 "env") +:+ "," +:+
                   "cypress_repeat_n=" +:+ showZ (repeatNtimes forceArgs) +:+
                   ",cypress_repeat_k=" +:+ showZ (Z.of_nat k + 1)
              else "cypress_repeat_n=" +:+ showZ (repeatNtimes forceArgs) +:+
                   ",cypress_repeat_k=" +:+ showZ (Z.of_nat k + 1)) /\
      (forceContinue forceArgs = true -> readField h1 c "force" = VBool true) /\
      (forceContinue forceArgs = false ->
       alike (readField h1 c "force") (readField envHeap 1 "force")).
Proof.
  refine (env_and_force_injected forceArgs envHeap 1%nat 2
            [("spec", JStr "cypress/e2e/spec.cy.js"); ("env", JStr "user=qa");
             ("config", JObj [("baseUrl", JStr "http://localhost:3000")])]
            [("spec", VStr "cypress/e2e/spec.cy.js"); ("env", VStr "user=qa");
             ("config", VRef 0)] _ _ _ _ _).
  - intros l ob key v Hl Hlook Hin. simpl in Hl.
    destruct l as [| [| l]]; [| | lia]; simpl in Hlook; injection Hlook as <-;
      repeat (apply elem_of_cons in Hin as [[= -> ->] | Hin]; [simpl; lia || done |]);
      by apply elem_of_nil in Hin.
  - reflexivity.
  - exact I.
  - reflexivity.
  - simpl.
    repeat (apply NoDup_cons_2;
            [rewrite ?elem_of_cons, elem_of_nil; intuition discriminate |]).
    apply NoDup_nil_2.
Defined.

(** The same on an example, with the strings written out: the parsed
    options have [env] 'user=qa', the command line is [--force -n 3]. *)
Lemma env_and_force_example :
  exists h1,
    buildAllRunOptions forceArgs 1%nat envHeap = Some ([3; 5; 7]%nat, h1) /\
    readField h1 3 "env" = VStr "user=qa,cypress_repeat_n=3,cypress_repeat_k=1" /\
    readField h1 5 "env" = VStr "user=qa,cypress_repeat_n=3,cypress_repeat_k=2" /\
    readField h1 7 "env" = VStr "user=qa,cypress_repeat_n=3,cypress_repeat_k=3" /\
    readField h1 3 "force" = VBool true /\
    readField h1 5 "force" = VBool true /\
    readField h1 7 "force" = VBool true.
Proof. eexists. split; [vm_compute; reflexivity |]. by repeat split. Qed.

(** X19.  With [--force] and without [--until-passes], when every call of
    Cypress resolves (with [runs] in the result under
    [--rerun-failed-only]), Cypress is run for all the N configurations in
    order, whatever the results: failed tests and crashed runs do not end
    the loop, and the error block prints nothing. *)
Theorem force_runs_all_attempts (args : Args)
    (cypressRun : nat -> heap -> nat -> RunOutcome) (writeFileOk : bool)
    (h : heap) (options : nat) (all : list nat) (h' : heap) :
  buildAllRunOptions args options h = Some (all, h') ->
  0 < repeatNtimes args ->
  untilPasses args = false ->
  forceContinue args = true ->
  (forall k h0 c, exists r,
     cypressRun k h0 c = RunResolved r /\
     (rerunFailedOnly args = true -> Res.runs r <> None)) ->
  let st := main args cypressRun writeFileOk (ParseResolved h options) in
  attempts (log st) = List.seq 0 (Z.to_nat (repeatNtimes args)) /\
  snd (chain args cypressRun (ParseResolved h options)) = Fulfilled /\
  errors (log st) = [].
Proof.
  intros Hb Hpos Hun Hforce Hruns st.
  destruct (main_through args cypressRun writeFileOk (fun _ _ => True)
              (fun b => I) (fun a b c _ _ => I) Fulfilled
              h options all h' Hb Hpos) as (Hatt & Hs & _).
  { intros k' c0 st0 Hk.
    destruct (Hruns k' (theHeap st0) c0) as (r & Hrun & Hr).
    exists r. split; [done |]. intros st1. split; [| done].
    rewrite (default_force_turn args all k' r st1 Hk Hun Hforce Hr).
    by destruct (isLastRun k' (length all)). }
  destruct (main_report args cypressRun writeFileOk h options _ Hs) as [He _].
  by repeat split.
Qed.

Lemma force_runs_all_attempts_witness :
  let st := main forceArgs alwaysCrashed true
              (ParseResolved sampleHeap sampleOptions) in
  attempts (log st) = List.seq 0 (Z.to_nat (repeatNtimes forceArgs)) /\
  snd (chain forceArgs alwaysCrashed (ParseResolved sampleHeap sampleOptions)) =
    Fulfilled /\
  errors (log st) = [].
Proof.
  refine (force_runs_all_attempts forceArgs alwaysCrashed true sampleHeap
            sampleOptions _ _ _ _ _ _ _).
  - vm_compute. reflexivity.
  - reflexivity.
  - reflexivity.
  - reflexivity.
  - intros k h0 c. exists crashedResult. split; [reflexivity |]. discriminate.
Defined.
